(** * A red-black tree with parent pointers (RBTree.c) and its vector client
      (Structs.c)

    The tree of RBTree.c is a pointer structure: every node carries its
    element, a colour and three links (left, right, parent), and the
    operations rewrite those links in place.  The embedding keeps that
    shape: node storage is a finite map from addresses to node records, a
    NULL pointer is [None], and every function of the source is a
    computation in a small state-and-fault monad over that store.  A
    dereference of NULL (or of a released node) is the outcome [Fault];
    recursion of the source is bounded by a fuel argument and running out
    of it is the outcome [NoFuel]. *)

From Stdlib Require Import ZArith Lia List Floats.
From stdpp Require Import gmap sorting.
Import ListNotations.

Local Open Scope Z_scope.

(** ** Node storage *)

Inductive Color := RED | BLACK.

Definition is_red (c : Color) : bool :=
  match c with RED => true | BLACK => false end.

Definition is_black (c : Color) : bool :=
  match c with RED => false | BLACK => true end.

Abbreviation addr := positive (only parsing).
Abbreviation ptr := (option positive) (only parsing).

(** The [side] characters handed around by the deletion code:
    ['l'], ['r'] and ['t'] (the removed node was the root). *)
Inductive Side := SideL | SideR | SideT.

Section Store.

Context {A : Type}.

Record Node := mkNode {
  data : A;
  color : Color;
  left : ptr;
  right : ptr;
  parent : ptr
}.

(** The header [RBTree] (RBTree.h).  Its [compFunc] and [freeFunc] are
    set at construction and never written again: they are parameters of
    the functions below.  [size] is an [int] that moves by one per
    successful call. *)
Record RBTree := mkRBTree {
  root : ptr;
  size : Z
}.

(** The memory seen by the tree code: the allocated nodes, the tree
    header, and the elements handed to the caller's [freeFunc] so far
    (oldest first). *)
Record mem := mkMem {
  nodes : gmap positive Node;
  tree : RBTree;
  freed : list A
}.

Inductive outcome (X : Type) :=
| Done (x : X) (m : mem)
| Fault
| NoFuel.

Definition M (X : Type) := mem -> outcome X.

Definition ret {X} (x : X) : M X := fun m => Done X x m.

Definition bind {X Y} (c : M X) (k : X -> M Y) : M Y :=
  fun m => match c m with
           | Done _ x m' => k x m'
           | Fault _ => Fault Y
           | NoFuel _ => NoFuel Y
           end.

Definition out_of_fuel {X} : M X := fun _ => NoFuel X.

End Store.

Arguments Node : clear implicits.
Arguments RBTree : clear implicits.
Arguments mem : clear implicits.
Arguments outcome : clear implicits.
Arguments M : clear implicits.
Arguments Done {A X} x m.
Arguments Fault {A X}.
Arguments NoFuel {A X}.

Notation "x <- c ;; k" := (bind c (fun x => k))
  (at level 63, c at next level, right associativity).
Notation "c ;;; k" := (bind c (fun _ => k))
  (at level 63, right associativity).

Section Primitives.

Context {A : Type}.

Definition with_data (d : A) (n : Node A) : Node A :=
  mkNode d (color n) (left n) (right n) (parent n).
Definition with_color (c : Color) (n : Node A) : Node A :=
  mkNode (data n) c (left n) (right n) (parent n).
Definition with_left (p : ptr) (n : Node A) : Node A :=
  mkNode (data n) (color n) p (right n) (parent n).
Definition with_right (p : ptr) (n : Node A) : Node A :=
  mkNode (data n) (color n) (left n) p (parent n).
Definition with_parent (p : ptr) (n : Node A) : Node A :=
  mkNode (data n) (color n) (left n) (right n) p.

(** [p->...]: reading through a pointer. *)
Definition deref (p : ptr) : M A (Node A) :=
  fun m => match p with
           | None => Fault
           | Some a => match nodes m !! a with
                       | Some n => Done n m
                       | None => Fault
                       end
           end.

(** [p->f] for a field [f]. *)
Definition fld {X} (f : Node A -> X) (p : ptr) : M A X :=
  n <- deref p ;; ret (f n).

(** [p->f = v], as an update [upd] of the record behind [p]. *)
Definition assign (upd : Node A -> Node A) (p : ptr) : M A unit :=
  fun m => match p with
           | None => Fault
           | Some a => match nodes m !! a with
                       | Some n => Done tt (mkMem (<[a := upd n]> (nodes m)) (tree m) (freed m))
                       | None => Fault
                       end
           end.

Definition set_data (p : ptr) (d : A) : M A unit := assign (with_data d) p.
Definition set_color (p : ptr) (c : Color) : M A unit := assign (with_color c) p.
Definition set_left (p : ptr) (v : ptr) : M A unit := assign (with_left v) p.
Definition set_right (p : ptr) (v : ptr) : M A unit := assign (with_right v) p.
Definition set_parent (p : ptr) (v : ptr) : M A unit := assign (with_parent v) p.

(** [tree->root], [tree->root = v], [tree->size += k]. *)
Definition get_root : M A ptr := fun m => Done (root (tree m)) m.
Definition set_root (v : ptr) : M A unit :=
  fun m => Done tt (mkMem (nodes m) (mkRBTree v (size (tree m))) (freed m)).
Definition add_size (k : Z) : M A unit :=
  fun m => Done tt (mkMem (nodes m) (mkRBTree (root (tree m)) (size (tree m) + k)) (freed m)).

(** [tree->freeFunc(d)]: the element is handed to the caller's
    destructor; the call is recorded. *)
Definition call_freeFunc (d : A) : M A unit :=
  fun m => Done tt (mkMem (nodes m) (tree m) (freed m ++ [d])).

(** [free(p)]: the node leaves the store. *)
Definition free (p : ptr) : M A unit :=
  fun m => match p with
           | None => Done tt m
           | Some a => match nodes m !! a with
                       | Some _ => Done tt (mkMem (delete a (nodes m)) (tree m) (freed m))
                       | None => Fault
                       end
           end.

(** Fuel for the recursive functions of the source, taken from the
    number of allocated nodes: no walk along child or parent links of a
    tree stored in [m] is longer than that. *)
Definition gas (m : mem A) : nat := (2 * base.size (nodes m) + 2)%nat.

Definition with_gas {X} (f : nat -> M A X) : M A X := fun m => f (gas m) m.

End Primitives.

(** ** RBTree.c *)

(** The [RBTree *] argument of the public functions: NULL or the tree. *)
Inductive treeptr := TNULL | TREE.

Section Tree.

Context {A : Type}.

(** [tree->compFunc], fixed at construction. *)
Variable compFunc : A -> A -> Z.

(** [malloc(sizeof(Node))]: an unused address, or NULL. *)
Variable alloc : gmap positive (Node A) -> option positive.

(** [p == NULL || p->color == BLACK], [p != NULL && p->color == RED],
    [p != NULL && p->color == BLACK]. *)
Definition null_or_black (p : ptr) : M A bool :=
  match p with
  | None => ret true
  | Some _ => c <- fld color p ;; ret (is_black c)
  end.

Definition nonnull_red (p : ptr) : M A bool :=
  match p with
  | None => ret false
  | Some _ => c <- fld color p ;; ret (is_red c)
  end.

Definition nonnull_black (p : ptr) : M A bool :=
  match p with
  | None => ret false
  | Some _ => c <- fld color p ;; ret (is_black c)
  end.

(** [q != NULL && compFunc(d, q->data) == 0] *)
Definition nonnull_same (d : A) (q : ptr) : M A bool :=
  match q with
  | None => ret false
  | Some _ => qd <- fld data q ;; ret (compFunc d qd =? 0)
  end.

Definition newRBTree : mem A := mkMem ∅ (mkRBTree None 0) [].

Fixpoint treeRBinsert (fuel : nat) (cur new : ptr) : M A Z :=
  match fuel with
  | O => out_of_fuel
  | S fuel =>
    rd <- fld data cur ;;
    nd <- fld data new ;;
    let comp := compFunc rd nd in
    if comp =? 0 then ret 0
    else if comp <? 0 then
      r <- fld right cur ;;
      match r with
      | Some _ => _ <- treeRBinsert fuel r new ;; ret 1
      | None => set_right cur new ;;; set_parent new cur ;;; ret 1
      end
    else
      l <- fld left cur ;;
      match l with
      | Some _ => _ <- treeRBinsert fuel l new ;; ret 1
      | None => set_left cur new ;;; set_parent new cur ;;; ret 1
      end
  end.

Definition getParent (node : ptr) : M A ptr :=
  match node with
  | None => ret None
  | Some _ => fld parent node
  end.

Definition getUncle (node : ptr) : M A ptr :=
  par <- getParent node ;;
  grandParent <- getParent par ;;
  match grandParent with
  | Some _ =>
    gl <- fld left grandParent ;;
    match gl with
    | Some _ =>
      gld <- fld data gl ;;
      pd <- fld data par ;;
      if negb (compFunc gld pd =? 0) then ret gl
      else
        gr <- fld right grandParent ;;
        match gr with
        | Some _ => ret gr
        | None => ret None
        end
    | None => ret None
    end
  | None => ret None
  end.

Definition rotateLeft2 (node : ptr) : M A unit :=
  p <- getParent node ;;
  grandParent <- getParent p ;;
  par <- getParent node ;;
  pl <- fld left par ;;
  set_right grandParent pl ;;;
  (match pl with
   | Some _ => set_parent pl grandParent
   | None => ret tt
   end) ;;;
  set_left par grandParent ;;;
  gp <- fld parent grandParent ;;
  match gp with
  | None =>
    set_root par ;;;
    set_parent par None ;;;
    set_color par BLACK ;;;
    set_parent grandParent par
  | Some _ =>
    gpl <- fld left gp ;;
    gpld <- fld data gpl ;;
    gd <- fld data grandParent ;;
    (if compFunc gpld gd =? 0 then set_left gp par
     else set_right gp par) ;;;
    set_parent par gp ;;;
    set_parent grandParent par
  end.

Definition rotateRight2 (node : ptr) : M A unit :=
  p <- getParent node ;;
  grandParent <- getParent p ;;
  par <- getParent node ;;
  pr <- fld right par ;;
  set_left grandParent pr ;;;
  (match pr with
   | Some _ => set_parent pr grandParent
   | None => ret tt
   end) ;;;
  set_right par grandParent ;;;
  gp <- fld parent grandParent ;;
  (match gp with
   | None =>
     set_root par ;;;
     set_parent par None ;;;
     set_color par BLACK ;;;
     set_parent grandParent par
   | Some _ =>
     gpl <- fld left gp ;;
     gpld <- fld data gpl ;;
     gd <- fld data grandParent ;;
     (if compFunc gpld gd =? 0 then set_left gp par
      else set_right gp par) ;;;
     set_parent par gp ;;;
     set_parent grandParent par
   end) ;;;
  set_color grandParent RED.

Definition rotateLeft (node : ptr) : M A unit :=
  par <- getParent node ;;
  p <- getParent node ;;
  grandParent <- getParent p ;;
  gl <- fld left grandParent ;;
  left_kid <- (match gl with
               | Some _ => pd <- fld data par ;; nonnull_same pd gl
               | None => ret false
               end) ;;
  (if left_kid : bool then
     (* the right kid of a left kid *)
     set_left grandParent node ;;;
     nl <- fld left node ;;
     (match nl with
      | Some _ => set_parent nl par
      | None => ret tt
      end) ;;;
     set_right par nl ;;;
     set_left node par ;;;
     set_parent node grandParent ;;;
     set_parent par node ;;;
     rotateRight2 par ;;;
     set_color node BLACK
   else
     (* the right kid of a right kid *)
     rotateLeft2 node ;;;
     set_color par BLACK) ;;;
  set_color grandParent RED.

Definition rotateRight (node : ptr) : M A unit :=
  par <- getParent node ;;
  p <- getParent node ;;
  grandParent <- getParent p ;;
  gr <- fld right grandParent ;;
  right_kid <- (match gr with
                | Some _ => pd <- fld data par ;; nonnull_same pd gr
                | None => ret false
                end) ;;
  (if right_kid : bool then
     (* the left kid of a right kid *)
     set_right grandParent node ;;;
     nr <- fld right node ;;
     (match nr with
      | Some _ => set_parent nr par
      | None => ret tt
      end) ;;;
     set_left par nr ;;;
     set_right node par ;;;
     set_parent node grandParent ;;;
     set_parent par node ;;;
     rotateLeft2 par ;;;
     set_color node BLACK
   else
     pd <- fld data par ;;
     gl <- fld left grandParent ;;
     gld <- fld data gl ;;
     if compFunc pd gld =? 0 then
       (* the left kid of a left kid *)
       rotateRight2 node ;;;
       set_color par BLACK
     else ret tt) ;;;
  set_color grandParent RED.

Fixpoint fixTreeInsert (fuel : nat) (newlyAdded : ptr) : M A unit :=
  match fuel with
  | O => out_of_fuel
  | S fuel =>
    uncle <- getUncle newlyAdded ;;
    par <- getParent newlyAdded ;;
    grandParent <- getParent par ;;
    r <- get_root ;;
    rd <- fld data r ;;
    nd <- fld data newlyAdded ;;
    (* case 1 *)
    if compFunc rd nd =? 0 then set_color newlyAdded BLACK
    else
      pc <- fld color par ;;
      (* case 2: no need to change *)
      if is_red pc then
        (* case 3 *)
        uncle_red <- nonnull_red uncle ;;
        if uncle_red : bool then
          set_color par BLACK ;;;
          set_color uncle BLACK ;;;
          set_color grandParent RED ;;;
          fixTreeInsert fuel grandParent
        else
          pl <- fld left par ;;
          left_kid <- nonnull_same nd pl ;;
          if left_kid : bool then rotateRight newlyAdded
          else rotateLeft newlyAdded
      else ret tt
  end.

Fixpoint contains (fuel : nat) (node : ptr) (d : A) : M A Z :=
  match fuel with
  | O => out_of_fuel
  | S fuel =>
    match node with
    | Some _ =>
      nd <- fld data node ;;
      if compFunc nd d =? 0 then ret 1
      else if compFunc nd d <? 0 then
        r <- fld right node ;; contains fuel r d
      else
        l <- fld left node ;; contains fuel l d
    | None => ret 0
    end
  end.

Definition RBTreeContains (t : treeptr) (d : A) : M A Z :=
  match t with
  | TNULL => ret 0
  | TREE => r <- get_root ;; with_gas (fun g => contains g r d)
  end.

(** Lines 194-203: the node is allocated and its five fields are set. *)
Definition new_node (d : A) : M A ptr :=
  fun m => match alloc (nodes m) with
           | None => Done None m
           | Some a =>
             Done (Some a)
                  (mkMem (<[a := mkNode d RED None None None]> (nodes m)) (tree m) (freed m))
           end.

Definition insertToRBTree (t : treeptr) (d : option A) : M A Z :=
  match t with
  | TNULL => ret 0
  | TREE =>
    match d with
    | None => ret 0
    | Some d =>
      c <- RBTreeContains t d ;;
      if c =? 1 then ret 0
      else
        newNode <- new_node d ;;
        match newNode with
        | None => ret 0
        | Some _ =>
          r <- get_root ;;
          match r with
          | None =>
            set_color newNode BLACK ;;;
            set_root newNode ;;;
            add_size 1 ;;;
            ret 1
          | Some _ =>
            ok <- with_gas (fun g => treeRBinsert g r newNode) ;;
            if ok =? 0 then ret 0
            else
              with_gas (fun g => fixTreeInsert g newNode) ;;;
              add_size 1 ;;;
              ret 1
          end
        end
    end
  end.

Fixpoint minValue (fuel : nat) (current : ptr) : M A ptr :=
  match fuel with
  | O => out_of_fuel
  | S fuel =>
    l <- fld left current ;;
    match l with
    | Some _ => minValue fuel l
    | None => ret current
    end
  end.

Definition inOrderSuccessor (n : ptr) : M A ptr :=
  match n with
  | None => ret None
  | Some _ =>
    r <- fld right n ;;
    match r with
    | Some _ => with_gas (fun g => minValue g r)
    | None => ret None
    end
  end.

Definition treeReplaceNode (n child : ptr) : M A unit :=
  temp <- fld data n ;;
  cd <- fld data child ;;
  set_data n cd ;;;
  set_data child temp.

Fixpoint nodeFinder (fuel : nat) (node : ptr) (d : A) : M A ptr :=
  match fuel with
  | O => out_of_fuel
  | S fuel =>
    nd <- fld data node ;;
    if compFunc nd d =? 0 then ret node
    else if compFunc nd d <? 0 then
      r <- fld right node ;; nodeFinder fuel r d
    else
      l <- fld left node ;; nodeFinder fuel l d
  end.

Definition rotateRightDelete (par : ptr) : M A unit :=
  s <- fld left par ;;
  sr <- fld right s ;;
  set_left par sr ;;;
  (match sr with
   | Some _ => set_parent sr par
   | None => ret tt
   end) ;;;
  set_right s par ;;;
  pp <- fld parent par ;;
  set_parent s pp ;;;
  (match pp with
   | Some _ =>
     ppl <- fld left pp ;;
     pd <- fld data par ;;
     left_kid <- nonnull_same pd ppl ;;
     if left_kid : bool then set_left pp s else set_right pp s
   | None => set_root s
   end) ;;;
  set_parent par s.

Definition rotateLeftDelete (par : ptr) : M A unit :=
  s <- fld right par ;;
  sl <- fld left s ;;
  set_right par sl ;;;
  (match sl with
   | Some _ => set_parent sl par
   | None => ret tt
   end) ;;;
  set_left s par ;;;
  pp <- fld parent par ;;
  set_parent s pp ;;;
  (match pp with
   | Some _ =>
     pd <- fld data par ;;
     ppl <- fld left pp ;;
     ppld <- fld data ppl ;;
     if compFunc pd ppld =? 0 then set_left pp s else set_right pp s
   | None => set_root s
   end) ;;;
  set_parent par s.

Definition deleteE (par : ptr) (side : Side) : M A unit :=
  match side with
  | SideL =>
    sib <- fld right par ;;
    pc <- fld color par ;;
    Sc <- fld color sib ;;
    set_color par Sc ;;;
    set_color sib pc ;;;
    rotateLeftDelete par ;;;
    Sr <- fld right sib ;;
    set_color Sr BLACK
  | SideR =>
    sib <- fld left par ;;
    pc <- fld color par ;;
    Sc <- fld color sib ;;
    set_color par Sc ;;;
    set_color sib pc ;;;
    rotateRightDelete par ;;;
    Sl <- fld left sib ;;
    set_color Sl BLACK
  | SideT => ret tt
  end.

Definition deleteD (par : ptr) (side : Side) : M A unit :=
  match side with
  | SideL =>
    sib <- fld right par ;;
    Sl <- fld left sib ;;
    set_color Sl BLACK ;;;
    set_color sib RED ;;;
    rotateRightDelete sib ;;;
    deleteE par side
  | _ =>
    sib <- fld left par ;;
    Sr <- fld right sib ;;
    set_color Sr BLACK ;;;
    set_color sib RED ;;;
    rotateLeftDelete sib ;;;
    deleteE par side
  end.

(** [deleteB] and [deleteC] call back into [delete3]; the callee is the
    argument [delete3]. *)
Definition deleteB_rec (delete3 : ptr -> Side -> M A unit) (par : ptr) (side : Side)
  : M A unit :=
  pc <- fld color par ;;
  if is_red pc then
    (* case i *)
    set_color par BLACK ;;;
    match side with
    | SideL => sib <- fld right par ;; set_color sib RED
    | SideR => sib <- fld left par ;; set_color sib RED
    | SideT => ret tt
    end
  else
    match side with
    | SideL => sib <- fld right par ;; set_color sib RED
    | _ =>
      sib <- fld left par ;;
      set_color sib RED ;;;
      pp <- fld parent par ;;
      match pp with
      | Some _ =>
        pd <- fld data par ;;
        ppl <- fld left pp ;;
        ppld <- fld data ppl ;;
        if compFunc pd ppld =? 0 then delete3 pp SideL
        else delete3 pp SideR
      | None => ret tt
      end
    end.

Definition deleteC_rec (delete3 : ptr -> Side -> M A unit) (par : ptr) (side : Side)
  : M A unit :=
  (match side with
   | SideL =>
     pc <- fld color par ;;
     sib <- fld right par ;;
     Sc <- fld color sib ;;
     set_color par Sc ;;;
     set_color sib pc ;;;
     rotateLeftDelete par
   | SideR =>
     pc <- fld color par ;;
     sib <- fld left par ;;
     Sc <- fld color sib ;;
     set_color par Sc ;;;
     set_color sib pc ;;;
     rotateRightDelete par
   | SideT => ret tt
   end) ;;;
  delete3 par side.

(** The sibling analysis of [delete3], written once for both sides:
    [sib] is the sibling of the removed node, [near] is the sibling's
    child towards the removed node and [far] the other one.  The first
    test reads the sibling's right child before its left child on
    either side, as the source does. *)
Definition delete3_sibling (deleteB deleteC : ptr -> Side -> M A unit)
    (pnode : ptr) (side : Side) (sib : ptr) (near_far : Node A -> ptr * ptr) : M A unit :=
  sb <- nonnull_black sib ;;
  if sb : bool then
    Sn <- deref sib ;;
    let (near, far) := near_far Sn in
    right_b <- null_or_black (right Sn) ;;
    both_b <- (if right_b : bool then null_or_black (left Sn) else ret false) ;;
    if both_b : bool then deleteB pnode side
    else
      near_r <- nonnull_red near ;;
      far_b <- (if near_r : bool then null_or_black far else ret false) ;;
      if far_b : bool then deleteD pnode side
      else
        far_r <- nonnull_red far ;;
        if far_r : bool then deleteE pnode side else ret tt
  else deleteC pnode side.

Fixpoint delete3 (fuel : nat) (pnode : ptr) (side : Side) : M A unit :=
  match fuel with
  | O => out_of_fuel
  | S fuel =>
    let deleteB := deleteB_rec (delete3 fuel) in
    let deleteC := deleteC_rec (delete3 fuel) in
    match side with
    | SideL =>
      pl <- fld left pnode ;;
      skip <- (match pl with
               | Some _ =>
                 r <- get_root ;;
                 rd <- fld data r ;;
                 pld <- fld data pl ;;
                 ret (negb (compFunc rd pld =? 0))
               | None => ret false
               end) ;;
      if skip : bool then ret tt
      else
        sib <- fld right pnode ;;
        delete3_sibling deleteB deleteC pnode side sib (fun Sn => (left Sn, right Sn))
    | SideR =>
      pr <- fld right pnode ;;
      skip <- (match pr with
               | Some _ =>
                 r <- get_root ;;
                 rd <- fld data r ;;
                 prd <- fld data pr ;;
                 ret (compFunc rd prd =? 0)
               | None => ret false
               end) ;;
      if skip : bool then ret tt
      else
        sib <- fld left pnode ;;
        delete3_sibling deleteB deleteC pnode side sib (fun Sn => (right Sn, left Sn))
    | SideT => ret tt
    end
  end.

Definition deleteB (fuel : nat) := deleteB_rec (delete3 fuel).
Definition deleteC (fuel : nat) := deleteC_rec (delete3 fuel).

Definition removeM (node : ptr) : M A Side :=
  np <- fld parent node ;;
  match np with
  | Some _ =>
    npl <- fld left np ;;
    nd <- fld data node ;;
    left_kid <- nonnull_same nd npl ;;
    if left_kid : bool then
      nl <- fld left node ;;
      set_left np nl ;;;
      (match nl with
       | Some _ => set_parent nl np
       | None => ret tt
       end) ;;;
      call_freeFunc nd ;;;
      free node ;;;
      ret SideL
    else
      nr <- fld right node ;;
      set_right np nr ;;;
      (match nr with
       | Some _ => set_parent nr np
       | None => ret tt
       end) ;;;
      nd <- fld data node ;;
      call_freeFunc nd ;;;
      free node ;;;
      ret SideR
  | None =>
    (* case A: the node is the root *)
    nr <- fld right node ;;
    set_root nr ;;;
    (match nr with
     | Some _ => set_parent nr None
     | None => ret tt
     end) ;;;
    nd <- fld data node ;;
    call_freeFunc nd ;;;
    free node ;;;
    ret SideT
  end.

Definition delete2 (node : ptr) (side : Side) : M A unit :=
  (match side with
   | SideR =>
     nr <- fld right node ;;
     np <- fld parent node ;;
     set_parent nr np ;;;
     npr <- fld right np ;;
     nprd <- fld data npr ;;
     nd <- fld data node ;;
     (if compFunc nprd nd =? 0 then set_right np nr
      else set_left np nr) ;;;
     set_color nr BLACK
   | _ =>
     np <- fld parent node ;;
     nl <- fld left node ;;
     (match np with
      | None =>
        set_root nl ;;;
        set_parent nl np
      | Some _ =>
        set_parent nl np ;;;
        npr <- fld right np ;;
        nprd <- fld data npr ;;
        nd <- fld data node ;;
        if compFunc nprd nd =? 0 then set_right np nl
        else set_left np nl
      end) ;;;
     set_color nl BLACK
   end) ;;;
  nd <- fld data node ;;
  call_freeFunc nd ;;;
  free node.

Definition delete1 (node : ptr) : M A unit :=
  np <- fld parent node ;;
  npr <- fld right np ;;
  right_kid <- (match npr with
                | Some _ =>
                  nprd <- fld data npr ;;
                  nd <- fld data node ;;
                  ret (compFunc nprd nd =? 0)
                | None => ret false
                end) ;;
  (if right_kid : bool then set_right np None
   else set_left np None) ;;;
  nd <- fld data node ;;
  call_freeFunc nd ;;;
  free node.

Definition fixTreeDelete (node : ptr) : M A unit :=
  c <- fld color node ;;
  match c with
  | RED => delete1 node
  | BLACK =>
    nr <- fld right node ;;
    right_red <- nonnull_red nr ;;
    if right_red : bool then delete2 node SideR
    else
      nl <- fld left node ;;
      left_red <- nonnull_red nl ;;
      if left_red : bool then delete2 node SideL
      else
        par <- fld parent node ;;
        side <- removeM node ;;
        match side with
        | SideT => ret tt
        | _ => with_gas (fun g => delete3 g par side)
        end
  end.

Definition deleteFromRBTree (t : treeptr) (d : option A) : M A Z :=
  match t with
  | TNULL => ret 0
  | TREE =>
    match d with
    | None => ret 0
    | Some d =>
      c <- RBTreeContains t d ;;
      if c =? 0 then ret 0
      else
        r <- get_root ;;
        node <- with_gas (fun g => nodeFinder g r d) ;;
        match node with
        | None => ret 0
        | Some _ =>
          suc <- inOrderSuccessor node ;;
          (match suc with
           | Some _ =>
             treeReplaceNode node suc ;;;
             fixTreeDelete suc
           | None => fixTreeDelete node
           end) ;;;
          add_size (-1) ;;;
          ret 1
        end
    end
  end.

(** The visitor [func(data, args)] returns its verdict and may rewrite
    what [args] points to: it is a function to a verdict and the new
    contents of [args].  The elements it was called on are collected in
    call order. *)
Fixpoint forEachHelper {C : Type} (fuel : nat) (node : ptr)
    (func : A -> C -> Z * C) (args : C) (seen : list A) : M A (Z * C * list A) :=
  match fuel with
  | O => out_of_fuel
  | S fuel =>
    match node with
    | None => ret (1, args, seen)
    | Some _ =>
      nl <- fld left node ;;
      lres <- forEachHelper fuel nl func args seen ;;
      let '(l, args, seen) := lres in
      nd <- fld data node ;;
      let (try, args) := func nd args in
      let seen := seen ++ [nd] in
      if (try =? 0) || (l =? 0) then ret (0, args, seen)
      else
        nr <- fld right node ;;
        rres <- forEachHelper fuel nr func args seen ;;
        let '(r, args, seen) := rres in
        if r =? 0 then ret (0, args, seen)
        else ret (1, args, seen)
    end
  end.

Definition forEachRBTree {C : Type} (t : treeptr) (func : A -> C -> Z * C) (args : C)
  : M A (Z * C * list A) :=
  match t with
  | TNULL => ret (0, args, [])
  | TREE => r <- get_root ;; with_gas (fun g => forEachHelper g r func args [])
  end.

Fixpoint freeHelper (fuel : nat) (node : ptr) : M A unit :=
  match fuel with
  | O => out_of_fuel
  | S fuel =>
    match node with
    | Some _ =>
      nr <- fld right node ;;
      freeHelper fuel nr ;;;
      nd <- fld data node ;;
      call_freeFunc nd ;;;
      nl <- fld left node ;;
      freeHelper fuel nl ;;;
      free node
    | None => ret tt
    end
  end.

(** [free( *tree)] releases the header itself; the header is not a node
    and the store keeps its last contents. *)
Definition freeRBTree : M A unit :=
  node <- get_root ;;
  with_gas (fun g => freeHelper g node).

End Tree.

(** ** The tree stored in a memory *)

(** The tree a store holds, read off the links: every node with its
    address, so that two trees are equal exactly when the same nodes are
    linked the same way with the same colours and elements. *)
Inductive btree (A : Type) :=
| Leaf
| Br (a : positive) (c : Color) (l : btree A) (d : A) (r : btree A).

Arguments Leaf {A}.
Arguments Br {A} a c l d r.

Section Abstraction.

Context {A : Type}.

Definition top (t : btree A) : ptr :=
  match t with
  | Leaf => None
  | Br a _ _ _ _ => Some a
  end.

Fixpoint addrs (t : btree A) : gset positive :=
  match t with
  | Leaf => ∅
  | Br a _ l _ r => {[a]} ∪ addrs l ∪ addrs r
  end.

Fixpoint addr_list (t : btree A) : list positive :=
  match t with
  | Leaf => []
  | Br a _ l _ r => addr_list l ++ a :: addr_list r
  end.

Fixpoint inorder (t : btree A) : list A :=
  match t with
  | Leaf => []
  | Br _ _ l d r => inorder l ++ d :: inorder r
  end.

Fixpoint count (t : btree A) : nat :=
  match t with
  | Leaf => O
  | Br _ _ l _ r => S (count l + count r)
  end.

(** Following the links from [p], whose parent link must be [par];
    [None] when a link leaves the store, a parent link is wrong, or the
    walk does not end. *)
Fixpoint readback (fuel : nat) (h : gmap positive (Node A)) (p par : ptr)
  : option (btree A) :=
  match fuel with
  | O => None
  | S fuel =>
    match p with
    | None => Some Leaf
    | Some a =>
      match h !! a with
      | None => None
      | Some n =>
        if decide (parent n = par) then
          match readback fuel h (left n) p, readback fuel h (right n) p with
          | Some l, Some r => Some (Br a (color n) l (data n) r)
          | _, _ => None
          end
        else None
      end
    end
  end.

(** The tree of a memory: what hangs off [tree->root], provided no node
    occurs in it twice. *)
Definition tree_of (m : mem A) : option (btree A) :=
  match readback (S (base.size (nodes m))) (nodes m) (root (tree m)) None with
  | Some t => if decide (NoDup (addr_list t)) then Some t else None
  | None => None
  end.

(** *** The red-black invariants *)

Definition root_color (t : btree A) : Color :=
  match t with
  | Leaf => BLACK
  | Br _ c _ _ _ => c
  end.

(** Invariant 2: the root, if present, is BLACK. *)
Definition root_black (t : btree A) : bool := is_black (root_color t).

(** Invariant 3: no RED node has a RED child. *)
Fixpoint no_red_red (t : btree A) : bool :=
  match t with
  | Leaf => true
  | Br _ c l _ r =>
    (is_black c || (is_black (root_color l) && is_black (root_color r)))
    && no_red_red l && no_red_red r
  end.

(** Invariant 4: the number of BLACK nodes on every path from the root
    of [t] to an absent child, when it is the same on all of them. *)
Fixpoint black_height (t : btree A) : option nat :=
  match t with
  | Leaf => Some O
  | Br _ c l _ r =>
    match black_height l, black_height r with
    | Some hl, Some hr =>
      if decide (hl = hr) then Some (if is_black c then S hl else hl) else None
    | _, _ => None
    end
  end.

Definition balanced (t : btree A) : bool :=
  match black_height t with Some _ => true | None => false end.

Variable compFunc : A -> A -> Z.

(** Invariant 5: the in-order sequence is strictly ascending. *)
Fixpoint ascending (l : list A) : bool :=
  match l with
  | [] => true
  | x :: l' =>
    match l' with
    | [] => true
    | y :: _ => (compFunc x y <? 0) && ascending l'
    end
  end.

Definition red_black (t : btree A) : bool :=
  root_black t && no_red_red t && balanced t && ascending (inorder t).

End Abstraction.

(** ** A client with integer elements *)

(** The elements of the properties in section 8 of the specification
    are integers; their comparator follows the contract of section 6. *)
Definition intCompare (a b : Z) : Z :=
  match a ?= b with
  | Lt => -1
  | Eq => 0
  | Gt => 1
  end.

(** An allocator that never fails and never hands out an address in
    use. *)
Definition bump {A : Type} (h : gmap positive (Node A)) : option positive :=
  Some (fresh (dom h)).

Definition insertZ (x : Z) : M Z Z := insertToRBTree intCompare bump TREE (Some x).
Definition deleteZ (x : Z) : M Z Z := deleteFromRBTree intCompare TREE (Some x).

(** Running a list of operations, stopping at the first that does not
    return; the results are collected. *)
Fixpoint run {A : Type} (ops : list (M A Z)) (m : mem A) : outcome A (list Z) :=
  match ops with
  | [] => Done [] m
  | op :: ops =>
    match op m with
    | Done r m' =>
      match run ops m' with
      | Done rs m'' => Done (r :: rs) m''
      | Fault => Fault
      | NoFuel => NoFuel
      end
    | Fault => Fault
    | NoFuel => NoFuel
    end
  end.

Definition final {A X : Type} (o : outcome A X) : option (mem A) :=
  match o with
  | Done _ m => Some m
  | _ => None
  end.

(** What a client can look at: the in-order sequence of the stored tree
    with the verdicts on the root colour, RED-RED edges, black heights
    and order ([None] when the links do not form a tree), the size field
    and the destructor's log. *)
Definition inspect
  : M Z (option (list Z * (bool * bool * bool * bool)) * Z * list Z) :=
  fun m =>
    Done (option_map
            (fun t => (inorder t,
                       (root_black t, no_red_red t, balanced t,
                        ascending intCompare (inorder t))))
            (tree_of m),
          size (tree m), freed m) m.

(** The results of the operations [ops] on a new tree, and then what
    [c] returns; [None] when one of them does not return. *)
Definition after {A X : Type} (ops : list (M A Z)) (c : M A X) : option (list Z * X) :=
  match run ops newRBTree with
  | Done rs m =>
    match c m with
    | Done x _ => Some (rs, x)
    | _ => None
    end
  | _ => None
  end.

(** Two visitors for [forEachRBTree]; the context counts the calls. *)
Definition stop_at_3 (x : Z) (calls : Z) : Z * Z :=
  (if x =? 3 then 0 else 1, calls + 1).
Definition visit_all (x : Z) (calls : Z) : Z * Z := (1, calls + 1).

(** [c] returns from [m] with a stored tree that has the elements of
    [t], in the same order and number, under the root pointer [r]. *)
Definition same_elements {A : Type} (m : mem A) (t : btree A) (r : ptr) (c : M A unit)
  : Prop :=
  exists m' t',
    c m = Done tt m' /\ tree_of m' = Some t'
    /\ inorder t' = inorder t /\ count t' = count t
    /\ size (tree m') = size (tree m) /\ root (tree m') = r.

(** ** Subtrees in context *)

(** A node seen from one of its children: on which side the child
    hangs, and the node's address, colour, element and other subtree. *)
Inductive dir := Lft | Rgt.

Record frame (A : Type) := F {
  fdir : dir;
  faddr : positive;
  fcolor : Color;
  fdata : A;
  fsib : btree A
}.

Arguments F {A} fdir faddr fcolor fdata fsib.
Arguments fdir {A} f.
Arguments faddr {A} f.
Arguments fcolor {A} f.
Arguments fdata {A} f.
Arguments fsib {A} f.

Section Zipper.

Context {A : Type}.

Definition plug1 (f : frame A) (t : btree A) : btree A :=
  match fdir f with
  | Lft => Br (faddr f) (fcolor f) t (fdata f) (fsib f)
  | Rgt => Br (faddr f) (fcolor f) (fsib f) (fdata f) t
  end.

(** [plug fs t]: the tree around the subtree [t], whose ancestors are
    the frames [fs], the parent first and the root last. *)
Fixpoint plug (fs : list (frame A)) (t : btree A) : btree A :=
  match fs with
  | [] => t
  | f :: up => plug up (plug1 f t)
  end.

Definition ctx_top (fs : list (frame A)) : ptr :=
  match fs with
  | [] => None
  | f :: _ => Some (faddr f)
  end.

(** The store holds the tree [t] below a node (or header) [par]: every
    node of [t] is stored with exactly the links of [t]. *)
Fixpoint shape (h : gmap positive (Node A)) (par : ptr) (t : btree A) : Prop :=
  match t with
  | Leaf => True
  | Br a c l d r =>
    h !! a = Some (mkNode d c (top l) (top r) par)
    /\ shape h (Some a) l /\ shape h (Some a) r
  end.

Definition frame_node (f : frame A) (child par : ptr) : Node A :=
  match fdir f with
  | Lft => mkNode (fdata f) (fcolor f) child (top (fsib f)) par
  | Rgt => mkNode (fdata f) (fcolor f) (top (fsib f)) child par
  end.

Fixpoint shape_ctx (h : gmap positive (Node A)) (fs : list (frame A)) (child : ptr)
  : Prop :=
  match fs with
  | [] => True
  | f :: up =>
    h !! faddr f = Some (frame_node f child (ctx_top up))
    /\ shape h (Some (faddr f)) (fsib f)
    /\ shape_ctx h up (Some (faddr f))
  end.

Fixpoint addrs_ctx (fs : list (frame A)) : gset positive :=
  match fs with
  | [] => ∅
  | f :: up => {[faddr f]} ∪ addrs (fsib f) ∪ addrs_ctx up
  end.

(** No address occurs twice. *)
Fixpoint uniq (t : btree A) : Prop :=
  match t with
  | Leaf => True
  | Br a _ l _ r =>
    (a ∉ addrs l) /\ (a ∉ addrs r) /\ (addrs l ## addrs r) /\ uniq l /\ uniq r
  end.

Fixpoint uniq_ctx (fs : list (frame A)) : Prop :=
  match fs with
  | [] => True
  | f :: up =>
    (faddr f ∉ addrs (fsib f)) /\ (faddr f ∉ addrs_ctx up)
    /\ (addrs (fsib f) ## addrs_ctx up) /\ uniq (fsib f) /\ uniq_ctx up
  end.

(** Two stores that differ at most at the addresses [K]. *)
Definition same_except (K : list positive) (h h' : gmap positive (Node A)) : Prop :=
  forall a, a ∉ K -> h' !! a = h !! a.

(** The memory [m] holds the tree [t]. *)
Definition rep (m : mem A) (t : btree A) : Prop :=
  shape (nodes m) None t /\ root (tree m) = top t /\ uniq t.

(** The nodes of a tree with their elements. *)
Fixpoint cells (t : btree A) : list (positive * A) :=
  match t with
  | Leaf => []
  | Br a _ l d r => cells l ++ (a, d) :: cells r
  end.

Fixpoint cells_ctx (fs : list (frame A)) : list (positive * A) :=
  match fs with
  | [] => []
  | f :: up => (faddr f, fdata f) :: cells (fsib f) ++ cells_ctx up
  end.

Fixpoint ctx_before (fs : list (frame A)) : list A :=
  match fs with
  | [] => []
  | f :: up =>
    match fdir f with
    | Lft => ctx_before up
    | Rgt => ctx_before up ++ inorder (fsib f) ++ [fdata f]
    end
  end.

Fixpoint ctx_after (fs : list (frame A)) : list A :=
  match fs with
  | [] => []
  | f :: up =>
    match fdir f with
    | Lft => fdata f :: inorder (fsib f) ++ ctx_after up
    | Rgt => ctx_after up
    end
  end.

(** The node above the hole has a left child once the hole is filled:
    the rotations read [...->parent->left->data] without a NULL test. *)
Definition left_present (fs : list (frame A)) : bool :=
  match fs with
  | f :: _ =>
    match fdir f, fsib f with
    | Rgt, Leaf => false
    | _, _ => true
    end
  | [] => true
  end.

Definition blacken (t : btree A) : btree A :=
  match t with
  | Leaf => Leaf
  | Br a _ l d r => Br a BLACK l d r
  end.

Variable compFunc : A -> A -> Z.

(** Elements of distinct nodes never compare equal: the source tells
    nodes apart by comparing their elements. *)
Definition keys_inj (t : btree A) : Prop :=
  forall a b da db,
    (a, da) ∈ cells t -> (b, db) ∈ cells t -> compFunc da db = 0 -> a = b.

(** *** Insertion on trees *)

(** The absent child that the descent of [treeRBinsert] for [d] ends
    at, as the frames above it; [None] when an element equal to [d] is
    met on the way. *)
Fixpoint path (t : btree A) (d : A) (acc : list (frame A)) : option (list (frame A)) :=
  match t with
  | Leaf => Some acc
  | Br a c l x r =>
    if compFunc x d =? 0 then None
    else if compFunc x d <? 0 then path r d (F Rgt a c x l :: acc)
    else path l d (F Lft a c x r :: acc)
  end.

(** The descent of [contains] for [d]. *)
Fixpoint contains_tree (t : btree A) (d : A) : Z :=
  match t with
  | Leaf => 0
  | Br _ _ l x r =>
    if compFunc x d =? 0 then 1
    else if compFunc x d <? 0 then contains_tree r d
    else contains_tree l d
  end.

(** What [fixTreeInsert] makes of the tree [plug fs t] when started at
    the root of [t]; [None] where the source reads through NULL. *)
Fixpoint fix_ins (fs : list (frame A)) (t : btree A) : option (btree A) :=
  match fs with
  | [] => Some (blacken t)
  | F d p BLACK dp s :: up => Some (plug fs t)
  | F d p RED dp s :: up =>
    match up with
    | [] => None
    | F d2 g cg dg u :: up2 =>
      match u with
      | Br x RED ul du ur =>
        fix_ins up2 (plug1 (F d2 g RED dg (Br x BLACK ul du ur))
                           (plug1 (F d p BLACK dp s) t))
      | _ =>
        match t with
        | Leaf => None
        | Br n cn nl dn nr =>
          if left_present up2 then
            Some (plug up2
                    match d, d2 with
                    | Lft, Lft => Br p BLACK t dp (Br g RED s dg u)
                    | Rgt, Rgt => Br p BLACK (Br g RED u dg s) dp t
                    | Rgt, Lft => Br n BLACK (Br p RED s dp nl) dn (Br g RED nr dg u)
                    | Lft, Rgt => Br n BLACK (Br g RED u dg nl) dn (Br p RED nr dp s)
                    end)
          else None
        end
      end
    end
  end.

End Zipper.

(** *** Red-black trees in context *)

Section Balance.

Context {A : Type}.

(** [t] has black height [k] and no RED node with a RED child. *)
Definition rbt (k : nat) (t : btree A) : Prop :=
  black_height t = Some k /\ no_red_red t = true.

Definition head_black (fs : list (frame A)) : Prop :=
  match fs with
  | [] => False
  | f :: _ => fcolor f = BLACK
  end.

(** The frames [fs] are those of a red-black tree around a subtree of
    black height [k]: a RED frame has a BLACK sibling subtree and a
    BLACK frame above it, so the last frame, the root, is BLACK. *)
Fixpoint ctx_rb (fs : list (frame A)) (k : nat) : Prop :=
  match fs with
  | [] => True
  | f :: up =>
    rbt k (fsib f)
    /\ match fcolor f with
       | BLACK => ctx_rb up (S k)
       | RED => root_color (fsib f) = BLACK /\ head_black up /\ ctx_rb up k
       end
  end.

End Balance.

(** The contract of the comparator (section 6 of the specification):
    a strict total order on the elements, with zero for equal ones. *)
Class Comparator {A : Type} (compFunc : A -> A -> Z) : Prop := {
  cmp_refl : forall a, compFunc a a = 0;
  cmp_antisym : forall a b, compFunc a b < 0 <-> 0 < compFunc b a;
  cmp_trans : forall a b c, compFunc a b < 0 -> compFunc b c < 0 -> compFunc a c < 0
}.

(** [a] comes strictly before [b]. *)
Definition precedes {A : Type} (compFunc : A -> A -> Z) (a b : A) : Prop :=
  compFunc a b < 0.

(** The elements of [xs] whose insertion or deletion reported success
    in [rs]. *)
Fixpoint accepted {A : Type} (xs : list A) (rs : list Z) : list A :=
  match xs, rs with
  | x :: xs, r :: rs => if r =? 0 then accepted xs rs else x :: accepted xs rs
  | _, _ => []
  end.

(** *** What a call leaves alone *)

Section Frame.

Context {A : Type}.

(** [c] relates the store it starts in to the store it returns in. *)
Definition respects {X} (R : mem A -> mem A -> Prop) (c : M A X) : Prop :=
  forall m x m', c m = Done x m' -> R m m'.

(** [m'] comes from [m] by rewriting links and colours and by releasing
    nodes: the size field and the destructor log are the same, and every
    node of [m'] is a node of [m] with the same element. *)
Definition stable (m m' : mem A) : Prop :=
  size (tree m') = size (tree m) /\ freed m' = freed m
  /\ forall a n', nodes m' !! a = Some n' ->
       exists n, nodes m !! a = Some n /\ data n = data n'.

(** The destructor was not called. *)
Definition quiet (m m' : mem A) : Prop := freed m' = freed m.

(** The destructor was called once, on [d]; the size field is the
    same. *)
Definition released (d : A) (m m' : mem A) : Prop :=
  size (tree m') = size (tree m) /\ freed m' = freed m ++ [d].

(** The node at [a], when there is one, holds [d]. *)
Definition holds (a : positive) (d : A) (m : mem A) : Prop :=
  forall n, nodes m !! a = Some n -> data n = d.

(** Started where the node at [a] holds [d], [c] hands [d] to the
    destructor and nothing else. *)
Definition frees {X} (a : positive) (d : A) (c : M A X) : Prop :=
  forall m x m', holds a d m -> c m = Done x m' -> released d m m'.

End Frame.

(** [malloc] never returns an address that is in use. *)
Definition fresh_alloc {A : Type} (alloc : gmap positive (Node A) -> option positive)
  : Prop :=
  forall h a, alloc h = Some a -> h !! a = None.

(** ** Structs.c *)

(** [Vector] (declared in Structs.h): [len] components of type
    [double] behind the pointer [vector]. *)
Record Vector := mkVector { len : Z; vector : list float }.

Definition min (num1 num2 : Z) : Z := if num1 >? num2 then num2 else num1.

(** The [for] loop of [vectorCompare1By1] from index [i] on, with
    [todo] rounds to go: [Some (Some r)] when the loop returns [r],
    [Some None] when it ends, [None] when a component is read outside
    its array.  [av[i] > bv[i]] is [bv[i] < av[i]]. *)
Fixpoint compare_from (todo i : nat) (av bv : list float) : option (option Z) :=
  match todo with
  | O => Some None
  | S todo =>
    match av !! i, bv !! i with
    | Some x, Some y =>
      if (x <? y)%float then Some (Some (-1))
      else if (y <? x)%float then Some (Some 1)
      else compare_from todo (S i) av bv
    | _, _ => None
    end
  end.

Definition vectorCompare1By1 (a b : Vector) : option Z :=
  let alen := len a in
  let blen := len b in
  match compare_from (Z.to_nat (min alen blen)) 0 (vector a) (vector b) with
  | None => None
  | Some (Some r) => Some r
  | Some None =>
    Some (if alen =? blen then 0 else if alen <? blen then -1 else 1)
  end.

(** [len] is the number of components. *)
Definition sized (v : Vector) : Prop := len v = Z.of_nat (length (vector v)).

(** No component is a NaN. *)
Definition numbers (v : Vector) : bool :=
  forallb (fun x => negb (is_nan x)) (vector v).

(** The components of [a] and [b] at the indices below [i] are equal
    ([==] on [double]). *)
Definition same_below (i : nat) (a b : Vector) : Prop :=
  forall j x y, (j < i)%nat -> vector a !! j = Some x -> vector b !! j = Some y ->
                (x =? y)%float = true.

(** ** Traversal on trees *)



(** No node was allocated: every node of [m'] is a node of [m]. *)
Definition no_new_nodes {A : Type} (m m' : mem A) : Prop :=
  dom (nodes m') ⊆ dom (nodes m).

(** ** Deletion on trees *)

Section Descent.

Context {A : Type} (compFunc : A -> A -> Z).

(** The descent of [nodeFinder] for [d]: the subtree at the first node
    whose element compares equal to [d], with the frames above it;
    [None] when the descent reaches an absent child, where the source
    reads through NULL. *)
Fixpoint locate (t : btree A) (d : A) (acc : list (frame A))
  : option (list (frame A) * btree A) :=
  match t with
  | Leaf => None
  | Br a c l x r =>
    if compFunc x d =? 0 then Some (acc, t)
    else if compFunc x d <? 0 then locate r d (F Rgt a c x l :: acc)
    else locate l d (F Lft a c x r :: acc)
  end.

(** The walk of [minValue] down the left links of [t]: the subtree at
    the last node, with the frames above it. *)
Fixpoint leftmost (t : btree A) (acc : list (frame A)) : list (frame A) * btree A :=
  match t with
  | Leaf => (acc, Leaf)
  | Br a c l x r =>
    match l with
    | Leaf => (acc, t)
    | Br _ _ _ _ _ => leftmost l (F Lft a c x r :: acc)
    end
  end.

(** The tree [t] with the element [d] in the node at [a]. *)
Fixpoint with_element (a : positive) (d : A) (t : btree A) : btree A :=
  match t with
  | Leaf => Leaf
  | Br b c l x r =>
    Br b c (with_element a d l) (if decide (b = a) then d else x) (with_element a d r)
  end.

Definition frame_with_element (a : positive) (d : A) (f : frame A) : frame A :=
  F (fdir f) (faddr f) (fcolor f) (if decide (faddr f = a) then d else fdata f)
    (with_element a d (fsib f)).

End Descent.

(** What the unlinking code needs of the node [f] above the unlinked
    node holding [x]: it tells a left child from a right child by
    comparing [x] with the element of [f]'s right child. *)
Definition sib_differs {A : Type} (compFunc : A -> A -> Z) (f : frame A) (x : A) : Prop :=
  match fdir f, fsib f with
  | Lft, Br _ _ _ z _ => compFunc z x <> 0
  | _, _ => True
  end.

(** The node [f] above the unlinked node has a right child: the code
    for a node with a RED child reads [node->parent->right->data]
    without a NULL test. *)
Definition right_present {A : Type} (f : frame A) : Prop :=
  match fdir f, fsib f with
  | Lft, Leaf => False
  | _, _ => True
  end.

(** The node that [deleteFromRBTree] hands to [fixTreeDelete] for [d],
    as a subtree with the frames above it: the node found by the
    descent, or the first node in-order of its right subtree when it
    has one. *)
Definition unlinked {A : Type} (compFunc : A -> A -> Z) (t : btree A) (d : A)
  : option (list (frame A) * btree A) :=
  match locate compFunc t d [] with
  | Some (fs, Br a c l x r) =>
    Some match r with
         | Leaf => (fs, Br a c l x r)
         | Br _ _ _ _ _ => leftmost r (F Rgt a c x l :: fs)
         end
  | _ => None
  end.

(** The first two branches of [fixTreeDelete]: the node is RED, or it is
    BLACK with a RED right child, or else with a RED left child. *)
Definition red_at_hand {A : Type} (s : btree A) : bool :=
  match s with
  | Leaf => false
  | Br _ c l _ r => is_red c || is_red (root_color r) || is_red (root_color l)
  end.

(** What [delete1] and [delete2] leave in the place of the node [s]:
    nothing for a RED node without children, the RED child made BLACK
    for a BLACK node with one child. *)
Definition spliced {A : Type} (s : btree A) : option (btree A) :=
  match s with
  | Br _ RED Leaf _ Leaf => Some Leaf
  | Br _ BLACK Leaf _ (Br b RED bl z br) => Some (Br b BLACK bl z br)
  | Br _ BLACK (Br b RED bl z br) _ Leaf => Some (Br b BLACK bl z br)
  | _ => None
  end.

(** ** Structs.c: the vector of largest norm *)

(** The [Vector] behind [pMaxVector], whose array is NULL at first. *)
Record MaxVector := mkMaxVector { mlen : Z; mvector : option (list float) }.

(** A visitor that can go wrong (a read or write outside an array or
    through NULL), as a visitor for [forEachRBTree]: the contents of
    [args] are [None] from then on, and the verdict is 0. *)
Definition guarded {A C : Type} (func : A -> C -> option (Z * C))
    (x : A) (args : option C) : Z * option C :=
  match args with
  | None => (0, None)
  | Some c =>
    match func x c with
    | Some (r, c') => (r, Some c')
    | None => (0, None)
    end
  end.

Section MaxNorm.

(** [pow] of math.h; nothing is assumed of it. *)
Variable pow : float -> float -> float.

(** Whether [realloc] to so many components succeeds, and what the
    components it adds hold. *)
Variable realloc_ok : Z -> bool.
Variable junk : float.

(** Whether the [malloc] of [findMaxNormVectorInTree] succeeds. *)
Variable malloc_ok : bool.

(** The loop of [normCalculator] from index [i] on, with [todo] rounds
    to go; [None] when a component is read outside the array. *)
Fixpoint sum_from (todo i : nat) (v : list float) (sum : float) : option float :=
  match todo with
  | O => Some sum
  | S todo =>
    match v !! i with
    | Some x => sum_from todo (S i) v (sum + pow x 2)%float
    | None => None
    end
  end.

Definition normCalculator (v : Vector) : option float :=
  match sum_from (Z.to_nat (len v)) 0 (vector v) 0%float with
  | Some sum => Some (PrimFloat.sqrt sum)
  | None => None
  end.

(** The array after a [realloc] to [n] components that succeeded. *)
Definition resized (n : nat) (old : option (list float)) : list float :=
  let buf := default [] old in
  take n buf ++ replicate (n - length buf) junk.

(** The copy loop of [copyIfNormIsLarger] from index [i] on; [None]
    when it reads or writes outside an array or through NULL. *)
Fixpoint copy_from (todo i : nat) (src : list float) (dst : option (list float))
  : option (option (list float)) :=
  match todo with
  | O => Some dst
  | S todo =>
    match src !! i, dst with
    | Some x, Some buf =>
      if decide (i < length buf)%nat
      then copy_from todo (S i) src (Some (<[i := x]> buf))
      else None
    | _, _ => None
    end
  end.

(** [second->vector == NULL || normCalculator(first) > normCalculator(second)] *)
Definition null_or_smaller (first : Vector) (second : MaxVector) : option bool :=
  match mvector second with
  | None => Some true
  | Some buf =>
    match normCalculator first, normCalculator (mkVector (mlen second) buf) with
    | Some nf, Some ns => Some (ns <? nf)%float
    | _, _ => None
    end
  end.

Definition copyIfNormIsLarger (first : Vector) (second : MaxVector)
  : option (Z * MaxVector) :=
  match null_or_smaller first second with
  | None => None
  | Some false => Some (1, second)
  | Some true =>
    let differ := negb (len first =? mlen second) in
    if differ && negb (realloc_ok (len first))
    then Some (0, mkMaxVector (mlen second) None)
    else
      let dst := if differ
                 then Some (resized (Z.to_nat (len first)) (mvector second))
                 else mvector second in
      match copy_from (Z.to_nat (len first)) 0 (vector first) dst with
      | Some buf => Some (1, mkMaxVector (len first) buf)
      | None => None
      end
  end.

(** The result is NULL or the vector that was allocated. *)
Definition findMaxNormVectorInTree (tp : treeptr) : M Vector (option MaxVector) :=
  if malloc_ok then
    res <- forEachRBTree tp (guarded copyIfNormIsLarger) (Some (mkMaxVector 0 None)) ;;
    match res with
    | (_, None, _) => fun _ => Fault
    | (treeResult, Some vector, _) =>
      if treeResult =? 0 then ret None else ret (Some vector)
    end
  else fun _ => Fault.

End MaxNorm.

(** [len] is the number of components of the array, 0 for NULL. *)
Definition well_sized (s : MaxVector) : Prop :=
  mlen s = Z.of_nat (length (default [] (mvector s))).

(** [s] has the length and the components of [x]. *)
Definition copy_of (x : Vector) (s : MaxVector) : Prop :=
  mlen s = len x /\ default [] (mvector s) = vector x.

(** ** Rotations *)

(** The tree [plug (F d g cg dg u :: up) (Br p cp lp dp rp)] after the
    child [p] was lifted over its parent [g], the two nodes having the
    colours [cp'] and [cg'] then: the same nodes with the same elements,
    linked anew. *)
Definition lifted {A : Type} (d : dir) (up : list (frame A))
    (g : positive) (cg' : Color) (u : btree A) (dg : A)
    (p : positive) (cp' : Color) (lp : btree A) (dp : A) (rp : btree A) : btree A :=
  plug up match d with
          | Lft => Br p cp' lp dp (Br g cg' rp dg u)
          | Rgt => Br p cp' (Br g cg' u dg lp) dp rp
          end.

(** [m'] comes from [m] by rewriting links (left, right, parent, the
    root pointer) and, when [recolours], colours: no node was allocated
    or released, every node has the element it had and, unless
    [recolours], the colour it had; the size field and the destructor's
    log are the same. *)
Definition relinked {A : Type} (recolours : bool) (m m' : mem A) : Prop :=
  size (tree m') = size (tree m) /\ freed m' = freed m
  /\ forall a,
       match nodes m !! a, nodes m' !! a with
       | Some n, Some n' => data n' = data n /\ (recolours = false -> color n' = color n)
       | None, None => True
       | _, _ => False
       end.

(** [c] returns from [m], where the tree [t] is stored, with the tree
    [t'] stored under the root pointer [r]; [t'] has the elements of
    [t] in the same order and number, and only links (and colours, when
    [recolours]) were rewritten. *)
Definition rotates {A : Type} (recolours : bool) (m : mem A) (t t' : btree A) (r : ptr)
    (c : M A unit) : Prop :=
  exists m',
    c m = Done tt m' /\ tree_of m' = Some t'
    /\ inorder t' = inorder t /\ count t' = count t
    /\ root (tree m') = r /\ relinked recolours m m'.

(** The nodes that are allocated, with their elements. *)
Definition allocated : M Z (list (positive * Z)) :=
  fun m => Done (map (fun an => (an.1, data an.2)) (map_to_list (nodes m))) m.

(** * Proofs *)

(** ** Running the store monad on a known store *)

Section Exec.

Context {A : Type}.

Lemma bind_done {X Y} (c : M A X) (k : X -> M A Y) m x m1 :
  c m = Done x m1 -> bind c k m = k x m1.
Proof. unfold bind. intros ->. reflexivity. Qed.

Lemma bind_assoc {X Y W} (c : M A X) (k1 : X -> M A Y) (k2 : Y -> M A W) m :
  bind (bind c k1) k2 m = bind c (fun x => bind (k1 x) k2) m.
Proof. unfold bind. destruct (c m); reflexivity. Qed.

Lemma bind_ret {X Y} (x : X) (k : X -> M A Y) m : bind (ret x) k m = k x m.
Proof. reflexivity. Qed.

Lemma bind_inv {X Y} (c : M A X) (k : X -> M A Y) m y m2 :
  bind c k m = Done y m2 -> exists x m1, c m = Done x m1 /\ k x m1 = Done y m2.
Proof.
  unfold bind. destruct (c m) as [x m1| |]; [|discriminate|discriminate].
  intros H. exists x, m1. split; [reflexivity | exact H].
Qed.

Lemma fld_eval {X} (f : Node A -> X) a h t fr (n : Node A) :
  h !! a = Some n -> fld f (Some a) (mkMem h t fr) = Done (f n) (mkMem h t fr).
Proof. intros H. unfold fld, bind, deref, ret. simpl. rewrite H. reflexivity. Qed.

Lemma deref_eval a h t fr (n : Node A) :
  h !! a = Some n -> deref (Some a) (mkMem h t fr) = Done n (mkMem h t fr).
Proof. intros H. unfold deref. simpl. rewrite H. reflexivity. Qed.

Lemma assign_eval upd a h t fr (n : Node A) :
  h !! a = Some n ->
  assign upd (Some a) (mkMem h t fr) = Done tt (mkMem (<[a := upd n]> h) t fr).
Proof. intros H. unfold assign. simpl. rewrite H. reflexivity. Qed.

Lemma get_root_eval h t (fr : list A) :
  get_root (mkMem h t fr) = Done (root t) (mkMem h t fr).
Proof. reflexivity. Qed.

Lemma set_root_eval v h t (fr : list A) :
  set_root v (mkMem h t fr) = Done tt (mkMem h (mkRBTree v (size t)) fr).
Proof. reflexivity. Qed.

Lemma add_size_eval k h t (fr : list A) :
  add_size k (mkMem h t fr) = Done tt (mkMem h (mkRBTree (root t) (size t + k)) fr).
Proof. reflexivity. Qed.

Lemma call_freeFunc_eval d h t (fr : list A) :
  call_freeFunc d (mkMem h t fr) = Done tt (mkMem h t (fr ++ [d])).
Proof. reflexivity. Qed.

Lemma free_eval a h t fr (n : Node A) :
  h !! a = Some n -> free (Some a) (mkMem h t fr) = Done tt (mkMem (delete a h) t fr).
Proof. intros H. unfold free. simpl. rewrite H. reflexivity. Qed.

Lemma ret_eval {X} (x : X) (m : mem A) : ret x m = Done x m.
Proof. reflexivity. Qed.

Lemma with_gas_eval {X} (f : nat -> M A X) m : with_gas f m = f (gas m) m.
Proof. reflexivity. Qed.

End Exec.

Create HintDb store_ops.
#[export] Hint Unfold set_left set_right set_parent set_color set_data
  with_left with_right with_parent with_color with_data : store_ops.

(** [neq]: two addresses differ; [lk]: a lookup in a store built by
    updates; [exec]: run the program in the goal as far as the store is
    known. *)
Ltac neq := solve [assumption | apply not_eq_sym; assumption | set_solver].

Ltac lk :=
  repeat first [rewrite lookup_insert_eq | rewrite lookup_insert_ne by neq];
  first [reflexivity | eassumption].

Ltac exec1 :=
  first
    [ progress autounfold with store_ops
    | rewrite bind_assoc
    | rewrite bind_ret
    | erewrite (bind_done (fld _ (Some _))) by (apply fld_eval; lk)
    | erewrite (bind_done (deref (Some _))) by (apply deref_eval; lk)
    | erewrite (bind_done (assign _ (Some _))) by (apply assign_eval; lk)
    | erewrite (bind_done get_root) by apply get_root_eval
    | erewrite (bind_done (set_root _)) by apply set_root_eval
    | erewrite (bind_done (add_size _)) by apply add_size_eval
    | erewrite (bind_done (call_freeFunc _)) by apply call_freeFunc_eval
    | erewrite (bind_done (free (Some _))) by (eapply free_eval; lk)
    | erewrite fld_eval by lk
    | erewrite deref_eval by lk
    | erewrite assign_eval by lk
    | rewrite get_root_eval
    | rewrite ret_eval
    | rewrite set_root_eval
    | erewrite free_eval by lk
    | progress cbn [getParent nonnull_same nonnull_red nonnull_black null_or_black
                    data color left right parent root size tree nodes freed
                    top ctx_top frame_node fdir faddr fcolor fdata fsib
                    is_red is_black negb] ].

Ltac exec := repeat exec1.

(** [reads]: as [exec], but stopping at the first assignment. *)
Ltac reads1 :=
  first
    [ rewrite bind_assoc
    | rewrite bind_ret
    | erewrite (bind_done (fld _ (Some _))) by (apply fld_eval; lk)
    | erewrite (bind_done (deref (Some _))) by (apply deref_eval; lk)
    | erewrite (bind_done get_root) by apply get_root_eval
    | erewrite fld_eval by lk
    | erewrite deref_eval by lk
    | rewrite get_root_eval
    | rewrite ret_eval
    | progress cbn [getParent nonnull_same nonnull_red nonnull_black null_or_black
                    data color left right parent root size tree nodes freed
                    top ctx_top frame_node fdir faddr fcolor fdata fsib
                    is_red is_black negb] ].

Ltac reads := repeat reads1.

(** ** Trees in context and their stores *)

Section Shape.

Context {A : Type}.
Implicit Types (t l r : btree A) (fs up : list (frame A)) (h : gmap positive (Node A)).

Lemma shape_plug h fs t :
  shape h None (plug fs t) <-> shape_ctx h fs (top t) /\ shape h (ctx_top fs) t.
Proof.
  revert t. induction fs as [|f up IH]; intros t; simpl.
  - tauto.
  - rewrite IH. destruct f as [[] a c d s]; unfold plug1, frame_node; simpl; tauto.
Qed.

Lemma addrs_plug fs t : addrs (plug fs t) = addrs_ctx fs ∪ addrs t.
Proof.
  revert t. induction fs as [|f up IH]; intros t; simpl.
  - set_solver.
  - rewrite IH. destruct f as [[] a c d s]; unfold plug1; simpl; set_solver.
Qed.

Lemma uniq_plug fs t :
  uniq (plug fs t) <-> uniq_ctx fs /\ uniq t /\ addrs_ctx fs ## addrs t.
Proof.
  revert t. induction fs as [|f up IH]; intros t; simpl.
  - split; [intros; split_and!; [done|done|set_solver] | tauto].
  - rewrite IH. destruct f as [[] a c d s]; unfold plug1; simpl; set_solver.
Qed.

Lemma top_plug_cons f fs t t' : top (plug (f :: fs) t) = top (plug (f :: fs) t').
Proof.
  revert f t t'. induction fs as [|f' up IH]; intros f t t'; simpl.
  - destruct f as [[] a c d s]; reflexivity.
  - apply (IH f' (plug1 f t) (plug1 f t')).
Qed.

Lemma top_plug_congr fs t t' : top t = top t' -> top (plug fs t) = top (plug fs t').
Proof.
  destruct fs as [|f fs]; [done|]. intros _. apply top_plug_cons.
Qed.

Lemma cells_plug fs t x :
  x ∈ cells (plug fs t) <-> x ∈ cells_ctx fs \/ x ∈ cells t.
Proof.
  revert t. induction fs as [|f up IH]; intros t; simpl.
  - set_solver.
  - rewrite IH. destruct f as [[] a c d s]; unfold plug1; simpl; set_solver.
Qed.

Lemma inorder_plug fs t :
  inorder (plug fs t) = ctx_before fs ++ inorder t ++ ctx_after fs.
Proof.
  revert t. induction fs as [|f up IH]; intros t; simpl.
  - by rewrite app_nil_r.
  - rewrite IH. destruct f as [[] a c d s]; unfold plug1; simpl.
    + by rewrite <- !app_assoc.
    + by rewrite <- !app_assoc.
Qed.

Lemma count_inorder t : count t = length (inorder t).
Proof.
  induction t as [|a c l IHl d r IHr]; simpl; [done|].
  rewrite length_app. simpl. lia.
Qed.

(** Frame: what is stored outside a subtree does not matter to it. *)
Lemma shape_agree h h' par t :
  (forall a, a ∈ addrs t -> h' !! a = h !! a) -> shape h par t -> shape h' par t.
Proof.
  revert par. induction t as [|a c l IHl d r IHr]; intros par Hag; simpl; [done|].
  intros (Ha & Hl & Hr). split_and!.
  - rewrite Hag; [done | set_solver].
  - apply IHl; [|done]. intros; apply Hag; set_solver.
  - apply IHr; [|done]. intros; apply Hag; set_solver.
Qed.

Lemma shape_ctx_agree h h' fs child :
  (forall a, a ∈ addrs_ctx fs -> h' !! a = h !! a) ->
  shape_ctx h fs child -> shape_ctx h' fs child.
Proof.
  revert child. induction fs as [|f up IH]; intros child Hag; simpl; [done|].
  intros (Ha & Hs & Hup). split_and!.
  - rewrite Hag; [done | set_solver].
  - eapply shape_agree; [|done]. intros; apply Hag; set_solver.
  - apply IH; [|done]. intros; apply Hag; set_solver.
Qed.

Lemma same_except_nil h : same_except [] h h.
Proof. by intros a _. Qed.

Lemma same_except_insert K h h' k n :
  same_except K h h' -> same_except (k :: K) h (<[k:=n]> h').
Proof.
  intros HS a Ha. apply not_elem_of_cons in Ha as [Hak HaK].
  rewrite lookup_insert_ne by done. by apply HS.
Qed.

Lemma shape_same K h h' par t :
  same_except K h h' -> (forall a, a ∈ addrs t -> a ∉ K) ->
  shape h par t -> shape h' par t.
Proof. intros HS HK. apply shape_agree. intros a Ha. apply HS, HK, Ha. Qed.

Lemma shape_ctx_same K h h' fs child :
  same_except K h h' -> (forall a, a ∈ addrs_ctx fs -> a ∉ K) ->
  shape_ctx h fs child -> shape_ctx h' fs child.
Proof. intros HS HK. apply shape_ctx_agree. intros a Ha. apply HS, HK, Ha. Qed.

Lemma addr_list_plug_congr fs t t' :
  addr_list t = addr_list t' -> addr_list (plug fs t) = addr_list (plug fs t').
Proof.
  revert t t'. induction fs as [|f up IH]; intros t t' Heq; simpl; [done|].
  apply IH. destruct f as [[] a c d s]; unfold plug1; simpl; by rewrite Heq.
Qed.

Lemma inorder_plug_congr fs t t' :
  inorder t = inorder t' -> inorder (plug fs t) = inorder (plug fs t').
Proof. intros Heq. by rewrite !inorder_plug, Heq. Qed.

Lemma shape_dom h par t a : shape h par t -> a ∈ addrs t -> is_Some (h !! a).
Proof.
  revert par. induction t as [|b c l IHl d r IHr]; intros par; simpl.
  - set_solver.
  - intros (Hb & Hl & Hr) Ha.
    apply elem_of_union in Ha as [Ha|Ha]; [apply elem_of_union in Ha as [Ha|Ha]|].
    + apply elem_of_singleton in Ha. subst. eauto.
    + eauto.
    + eauto.
Qed.

Lemma shape_cells h par t a d :
  shape h par t -> (a, d) ∈ cells t -> exists n, h !! a = Some n /\ data n = d.
Proof.
  revert par. induction t as [|b c l IHl x r IHr]; intros par; simpl.
  - intros _ H. by apply elem_of_nil in H.
  - intros (Hb & Hl & Hr) Ha.
    apply elem_of_app in Ha as [Ha|Ha]; [eauto|].
    apply elem_of_cons in Ha as [Ha|Ha]; [|eauto].
    injection Ha as -> ->. eauto.
Qed.

Lemma cells_addrs t a d : (a, d) ∈ cells t -> a ∈ addrs t.
Proof.
  induction t as [|b c l IHl x r IHr]; simpl.
  - intros H. by apply elem_of_nil in H.
  - intros Ha. apply elem_of_app in Ha as [Ha|Ha]; [set_solver|].
    apply elem_of_cons in Ha as [Ha|Ha]; [|set_solver].
    injection Ha as -> ->. set_solver.
Qed.

Lemma cells_inorder t a d : (a, d) ∈ cells t -> d ∈ inorder t.
Proof.
  induction t as [|b c l IHl x r IHr]; simpl.
  - intros H. by apply elem_of_nil in H.
  - intros Ha. apply elem_of_app in Ha as [Ha|Ha]; [set_solver|].
    apply elem_of_cons in Ha as [Ha|Ha]; [|set_solver].
    injection Ha as -> ->. set_solver.
Qed.

Lemma addr_list_addrs t a : a ∈ addr_list t <-> a ∈ addrs t.
Proof.
  induction t as [|b c l IHl x r IHr]; simpl; [set_solver|].
  rewrite elem_of_app, elem_of_cons, IHl, IHr. set_solver.
Qed.

Lemma uniq_NoDup t : uniq t <-> NoDup (addr_list t).
Proof.
  induction t as [|b c l IHl x r IHr]; simpl.
  - split; [intros; constructor | done].
  - rewrite NoDup_app, NoDup_cons, <- IHl, <- IHr.
    split.
    + intros (Hl & Hr & Hd & Hul & Hur). split_and!; try done.
      * intros a Ha [->|Hb]%elem_of_cons; apply addr_list_addrs in Ha; [done|].
        apply addr_list_addrs in Hb. set_solver.
      * by rewrite addr_list_addrs.
    + intros (Hul & Hd & Hr & Hur). split_and!; try done.
      * intros Hb%addr_list_addrs. apply (Hd b Hb). by left.
      * by rewrite <- addr_list_addrs.
      * intros a Ha%addr_list_addrs Hb%addr_list_addrs. apply (Hd a Ha). by right.
Qed.

Lemma uniq_congr t t' : uniq t -> addr_list t' = addr_list t -> uniq t'.
Proof. rewrite !uniq_NoDup. by intros H ->. Qed.

End Shape.

(** ** The tree of a memory *)

Section Readback.

Context {A : Type}.
Implicit Types (t l r : btree A) (h : gmap positive (Node A)).

Lemma shape_readback h par t fuel :
  shape h par t -> (count t < fuel)%nat -> readback fuel h (top t) par = Some t.
Proof.
  revert par t. induction fuel as [|fuel IH]; intros par t Hs Hc; [lia|].
  destruct t as [|a c l d r]; simpl; [done|].
  destruct Hs as (Ha & Hl & Hr). rewrite Ha. simpl in Hc |- *.
  rewrite decide_True by done.
  rewrite (IH (Some a) l), (IH (Some a) r) by (done || lia). done.
Qed.

Lemma readback_shape h par p t fuel :
  readback fuel h p par = Some t -> shape h par t /\ top t = p.
Proof.
  revert par p t. induction fuel as [|fuel IH]; intros par p t; simpl; [done|].
  destruct p as [a|]; [|intros [= <-]; done].
  destruct (h !! a) as [n|] eqn:Ha; [|done].
  destruct (decide (parent n = par)) as [Hp|]; [|done].
  destruct (readback fuel h (left n) (Some a)) as [l|] eqn:Hl; [|done].
  destruct (readback fuel h (right n) (Some a)) as [r|] eqn:Hr; [|done].
  intros [= <-]. apply IH in Hl as (Hl & Htl). apply IH in Hr as (Hr & Htr).
  simpl. rewrite Htl, Htr, <- Hp. destruct n; done.
Qed.

Lemma uniq_count h par t :
  shape h par t -> uniq t -> (count t <= base.size h)%nat.
Proof.
  intros Hs Hu. rewrite <- size_dom.
  assert (length (addr_list t) = count t) as <-.
  { clear. induction t as [|a c l IHl d r IHr]; simpl; [done|].
    rewrite length_app. simpl. lia. }
  apply uniq_NoDup in Hu.
  change (base.size (dom h)) with (length (elements (dom h))).
  apply submseteq_length, NoDup_submseteq; [done|].
  intros a Ha. apply elem_of_elements, elem_of_dom.
  eapply shape_dom; [done|]. by apply addr_list_addrs.
Qed.

Lemma rep_tree_of (m : mem A) t : rep m t <-> tree_of m = Some t.
Proof.
  unfold rep, tree_of. split.
  - intros (Hs & Hr & Hu). rewrite Hr.
    rewrite (shape_readback _ _ t) by (done || (pose proof (uniq_count _ _ _ Hs Hu); lia)).
    rewrite decide_True by (by apply uniq_NoDup). done.
  - destruct (readback _ _ _ _) as [t'|] eqn:Hrb; [|done].
    destruct (decide (NoDup (addr_list t'))) as [Hnd|]; [|done].
    intros [= <-]. apply readback_shape in Hrb as (Hs & Ht).
    split_and!; [done | done | by apply uniq_NoDup].
Qed.

End Readback.

(** ** Ascending element sequences *)

Section Order.

Context {A : Type} (compFunc : A -> A -> Z) `{!Comparator compFunc}.
Implicit Types (t l r : btree A) (fs up : list (frame A)).

Local Abbreviation lt := (precedes compFunc).

#[local] Instance precedes_trans : Transitive lt.
Proof. intros a b c. apply cmp_trans. Qed.

Lemma precedes_ne a b : lt a b -> compFunc a b <> 0 /\ compFunc b a <> 0.
Proof.
  unfold precedes. intros H. split; [lia|].
  apply cmp_antisym in H. lia.
Qed.

Lemma precedes_irrefl a : ~ lt a a.
Proof. unfold precedes. rewrite cmp_refl. lia. Qed.

Lemma ascending_sorted (l : list A) :
  ascending compFunc l = true <-> StronglySorted lt l.
Proof.
  split.
  - intros H. apply Sorted_StronglySorted; [apply _|].
    induction l as [|x [|y l'] IH]; [constructor | repeat constructor |].
    simpl in H. apply andb_true_iff in H as [Hxy Hl].
    constructor; [by apply IH|]. constructor. unfold precedes. lia.
  - intros H. apply StronglySorted_Sorted in H.
    induction l as [|x [|y l'] IH]; [done | done |].
    inversion H as [|? ? Hl Hhd]; subst. simpl. apply andb_true_iff. split.
    + inversion Hhd; subst. unfold precedes in *. lia.
    + by apply IH.
Qed.

Lemma sorted_keys_inj t :
  StronglySorted lt (inorder t) -> keys_inj compFunc t.
Proof.
  induction t as [|x c l IHl d r IHr]; simpl.
  - intros _ a b da db Ha. by apply elem_of_nil in Ha.
  - intros Hs. apply StronglySorted_app in Hs as (Hlr & Hl & Hr).
    apply StronglySorted_cons in Hr as (Hdr & Hr).
    rewrite Forall_forall in Hdr.
    specialize (IHl Hl). specialize (IHr Hr).
    assert (forall y, y ∈ inorder l -> lt y d) as Hld.
    { intros y Hy. apply Hlr; [done | by left]. }
    assert (forall y z, y ∈ inorder l -> z ∈ inorder r -> lt y z) as Hlr'.
    { intros y z Hy Hz. apply Hlr; [done | by right]. }
    unfold keys_inj. cbn [cells]. intros a b da db Ha Hb Hc.
    apply elem_of_app in Ha as [Ha|Ha]; [|apply elem_of_cons in Ha as [Ha|Ha]];
    (apply elem_of_app in Hb as [Hb|Hb]; [|apply elem_of_cons in Hb as [Hb|Hb]]);
    try (injection Ha as -> ->); try (injection Hb as -> ->);
    try (by eapply IHl); try (by eapply IHr); try done;
    repeat match goal with
           | H : (_, _) ∈ cells _ |- _ => apply cells_inorder in H
           end; exfalso;
    match goal with
    | Hc : compFunc ?u ?v = 0 |- _ =>
      first [ assert (lt u v) as Hlt by eauto
            | assert (lt v u) as Hlt by eauto ];
      apply precedes_ne in Hlt; tauto
    end.
Qed.

End Order.

(** ** The rotations on a stored tree *)

(** *** Tactics for addresses

    The addresses of a tree are pairwise different; after taking the
    tree apart this is a handful of facts [a ∉ S] and [S1 ## S2] in the
    context.  [mem] finds an element in a union, [contra e] refutes
    that [e] occurs at two places, [distinct l] derives that the
    addresses [l] are pairwise different, and [notin_by_addrs] that a
    subtree avoids a list of addresses. *)
Ltac mem :=
  first
    [ assumption
    | apply elem_of_singleton_2; reflexivity
    | apply elem_of_union_l; mem
    | apply elem_of_union_r; mem ].

Ltac lmem :=
  first
    [ assumption
    | apply list_elem_of_here
    | apply list_elem_of_further; lmem
    | apply elem_of_app; left; lmem
    | apply elem_of_app; right; lmem ].

Ltac contra e :=
  match goal with
  | H : e ∉ _ |- _ => apply H; mem
  | H : _ ## _ |- _ => apply (proj1 (elem_of_disjoint _ _) H e); mem
  end.

Ltac neq_by_addrs :=
  match goal with
  | |- ?a <> ?b =>
    let E := fresh in
    intros E; first [subst a | subst b]; first [contra a | contra b]
  end.

Ltac contra_any :=
  match goal with
  | Ha : ?e ∈ _ |- _ => contra e
  end.

Ltac notin_by_addrs :=
  match goal with
  | |- forall a, a ∈ _ -> a ∉ _ =>
    let a := fresh "a" in let Ha := fresh "Ha" in let Hk := fresh "Hk" in
    intros a Ha Hk;
    repeat (apply elem_of_cons in Hk as [Hk|Hk]; [subst a; contra_any|]);
    by apply elem_of_nil in Hk
  end.

Ltac distinct_from a l :=
  match l with
  | ?b :: ?l' => assert (a <> b) by neq_by_addrs; distinct_from a l'
  | _ => idtac
  end.

Ltac distinct l :=
  match l with
  | ?a :: ?l' => distinct_from a l'; distinct l'
  | _ => idtac
  end.

Ltac list_eq :=
  cbn [addr_list inorder app plug1 fdir faddr fcolor fdata fsib];
  repeat first [rewrite <- app_assoc | progress cbn [app]]; reflexivity.

(** [untouched HS]: a subtree or context outside the updated addresses. *)
Ltac untouched HS :=
  first
    [ exact I
    | eapply (shape_same _ _ _ _ _ HS); [notin_by_addrs | eassumption]
    | eapply (shape_ctx_same _ _ _ _ _ HS); [notin_by_addrs | eassumption] ].

Ltac incells :=
  apply cells_plug; cbn [cells cells_ctx fdir faddr fcolor fdata fsib plug1];
  first [left; lmem | right; lmem].

(** [fin h l]: the store reached from [h] by updates at the addresses
    [l] is the store of the expected tree. *)
Ltac fin1 HS :=
  match goal with
  | |- shape _ None (plug _ _) =>
    apply shape_plug;
    cbn [shape shape_ctx top ctx_top frame_node fdir faddr fcolor fdata fsib plug1];
    split_and!; first [lk | untouched HS]
  | |- uniq (plug _ _) =>
    match goal with
    | Hu : uniq (plug _ _) |- _ =>
      apply (uniq_congr _ _ Hu); apply addr_list_plug_congr; list_eq
    end
  | |- _ = top (plug (_ :: _) _) =>
    first [eassumption | erewrite top_plug_cons; eassumption]
  | |- root _ = top (plug _ _) =>
    first [eassumption
          | match goal with
            | Hr : root _ = top (plug _ _) |- _ =>
              rewrite Hr; apply top_plug_congr; reflexivity
            end ]
  | |- _ => done
  end.

(** [same h l]: the store in the goal differs from [h] at most at [l]. *)
Ltac same_tac :=
  let a := fresh "a" in let Ha := fresh "Ha" in
  intros a Ha;
  rewrite !lookup_insert_ne by (intros ->; apply Ha; lmem);
  reflexivity.

Ltac rep_tac h l :=
  match goal with
  | |- rep (mkMem ?h' _ _) _ =>
    let HS := fresh "HS" in
    assert (HS : same_except l h h') by same_tac;
    unfold rep; cbn [nodes tree freed root size];
    split_and!; fin1 HS
  end.

Ltac fin h l :=
  match goal with
  | |- exists m', Done _ (mkMem ?h' _ _) = _ /\ _ =>
    let HS := fresh "HS" in
    assert (HS : same_except l h h') by same_tac;
    eexists; split; [reflexivity|]; cbn [nodes tree freed root size];
    split_and!; fin1 HS
  end.

Section Tests.

Context {A : Type} (compFunc : A -> A -> Z) `{!Comparator compFunc}.

Lemma cmp_same_test (a : A) : (compFunc a a =? 0) = true.
Proof. rewrite cmp_refl. reflexivity. Qed.

Lemma keys_inj_test (t : btree A) a b da db :
  keys_inj compFunc t -> (a, da) ∈ cells t -> (b, db) ∈ cells t -> a <> b ->
  (compFunc da db =? 0) = false.
Proof.
  intros Hinj Ha Hb Hab. apply Z.eqb_neq. intros Hc. apply Hab. eapply Hinj; eauto.
Qed.

End Tests.

(** [go h l]: run the program in the goal on the store [h], deciding
    the comparisons of elements on the way, and check the store
    reached; [l] lists the addresses of the nodes involved. *)
Ltac tests :=
  first
    [ match goal with
      | |- context [?f ?x ?x =? 0] => rewrite (cmp_same_test f x)
      end
    | match goal with
      | Ht : (_ =? 0) = false |- _ => rewrite Ht
      end ].

Ltac go h l := distinct l; exec; repeat (tests; exec); fin h l.

(** [case_up]: the node above the rotated subtree: none, or a node [gg]
    with the subtree on its left or right, and its other child absent or
    a node [y]. *)
Ltac case_up compFunc Hinj HU Hup up g dg :=
  destruct up as [|[[] gg cgg dgg [|y cy yl dy yr]] up'];
  cbn [shape_ctx frame_node fdir faddr fcolor fdata fsib top ctx_top shape] in Hup;
  [ clear Hup
  | destruct Hup as (Hgg & _ & Hup')
  | destruct Hup as (Hgg & (Hy & Hyl & Hyr) & Hup')
  | destruct Hup as (Hgg & _ & Hup')
  | destruct Hup as (Hgg & (Hy & Hyl & Hyr) & Hup') ];
  try (assert (Ht : (compFunc dg dy =? 0) = false)
         by (apply (keys_inj_test compFunc _ g y dg dy Hinj);
             [incells | incells |
              cbn [uniq uniq_ctx addrs addrs_ctx fdir faddr fcolor fdata fsib] in HU;
              destruct_and ? HU; neq_by_addrs]);
       assert (Ht' : (compFunc dy dg =? 0) = false)
         by (apply (keys_inj_test compFunc _ y g dy dg Hinj);
             [incells | incells |
              cbn [uniq uniq_ctx addrs addrs_ctx fdir faddr fcolor fdata fsib] in HU;
              destruct_and ? HU; neq_by_addrs]));
  cbn [uniq uniq_ctx addrs addrs_ctx fdir faddr fcolor fdata fsib] in HU;
  destruct_and ? HU.

Section Rotations.

Context {A : Type} (compFunc : A -> A -> Z) `{!Comparator compFunc}.
Implicit Types (t l r u : btree A) (fs up : list (frame A)) (h : gmap positive (Node A)).

Lemma rotateLeftDelete_rep m up g cg u dg p cp lp dp rp :
  rep m (plug up (Br g cg u dg (Br p cp lp dp rp))) ->
  keys_inj compFunc (plug up (Br g cg u dg (Br p cp lp dp rp))) ->
  left_present up = true ->
  exists m',
    rotateLeftDelete compFunc (Some g) m = Done tt m'
    /\ rep m' (plug up (Br p cp (Br g cg u dg lp) dp rp))
    /\ size (tree m') = size (tree m) /\ freed m' = freed m.
Proof.
  destruct m as [h tr fr]. unfold rep. cbn [nodes tree freed].
  intros (Hs & Hroot & Hu0) Hinj Hlp.
  apply shape_plug in Hs. destruct Hs as (Hup & Hg). cbn [shape top ctx_top] in Hg.
  destruct Hg as (Hg & Hsu & Hp & Hlp' & Hrp).
  pose proof Hu0 as HU. apply uniq_plug in HU.
  unfold rotateLeftDelete.
  destruct lp as [|x cx xl dx xr];
    [|cbn [shape top] in Hlp'; destruct Hlp' as (Hx & Hxl & Hxr)];
  (destruct up as [|[[] gg cgg dgg sgg] up'];
   [| cbn [shape_ctx frame_node fdir faddr fcolor fdata fsib top ctx_top] in Hup;
      destruct Hup as (Hgg & Hsgg & Hup') ..]);
  try (destruct sgg as [|y cy yl dy yr]; [discriminate|];
       cbn [shape top] in Hsgg; destruct Hsgg as (Hy & Hyl & Hyr);
       assert (Ht : (compFunc dg dy =? 0) = false)
         by (apply (keys_inj_test compFunc _ g y dg dy Hinj);
             [incells | incells |
              cbn [uniq uniq_ctx addrs addrs_ctx fdir faddr fcolor fdata fsib] in HU;
              destruct_and ? HU; neq_by_addrs]));
  cbn [uniq uniq_ctx addrs addrs_ctx fdir faddr fcolor fdata fsib] in HU.
  all: destruct_and ? HU.
  - go h [g; p].
  - go h [g; p; gg].
  - go h [g; p; gg; y].
  - go h [g; p; x].
  - go h [g; p; x; gg].
  - go h [g; p; x; gg; y].
Qed.

Lemma rotateRightDelete_rep m up g cg u dg p cp lp dp rp :
  rep m (plug up (Br g cg (Br p cp lp dp rp) dg u)) ->
  keys_inj compFunc (plug up (Br g cg (Br p cp lp dp rp) dg u)) ->
  exists m',
    rotateRightDelete compFunc (Some g) m = Done tt m'
    /\ rep m' (plug up (Br p cp lp dp (Br g cg rp dg u)))
    /\ size (tree m') = size (tree m) /\ freed m' = freed m.
Proof.
  destruct m as [h tr fr]. unfold rep. cbn [nodes tree freed].
  intros (Hs & Hroot & Hu0) Hinj.
  apply shape_plug in Hs. destruct Hs as (Hup & Hg). cbn [shape top ctx_top] in Hg.
  destruct Hg as (Hg & (Hp & Hlp' & Hrp) & Hsu).
  pose proof Hu0 as HU. apply uniq_plug in HU.
  unfold rotateRightDelete.
  destruct rp as [|x cx xl dx xr];
    [|cbn [shape top] in Hrp; destruct Hrp as (Hx & Hxl & Hxr)];
  (destruct up as [|[[] gg cgg dgg sgg] up'];
   [| cbn [shape_ctx frame_node fdir faddr fcolor fdata fsib top ctx_top] in Hup;
      destruct Hup as (Hgg & Hsgg & Hup') ..]);
  try (destruct sgg as [|y cy yl dy yr];
       [|cbn [shape top] in Hsgg; destruct Hsgg as (Hy & Hyl & Hyr);
         assert (Ht : (compFunc dg dy =? 0) = false)
           by (apply (keys_inj_test compFunc _ g y dg dy Hinj);
               [incells | incells |
                cbn [uniq uniq_ctx addrs addrs_ctx fdir faddr fcolor fdata fsib] in HU;
                destruct_and ? HU; neq_by_addrs])]);
  cbn [uniq uniq_ctx addrs addrs_ctx fdir faddr fcolor fdata fsib] in HU;
  destruct_and ? HU.
  - go h [g; p].
  - go h [g; p; gg].
  - go h [g; p; gg; y].
  - go h [g; p; gg].
  - go h [g; p; gg; y].
  - go h [g; p; x].
  - go h [g; p; x; gg].
  - go h [g; p; x; gg; y].
  - go h [g; p; x; gg].
  - go h [g; p; x; gg; y].
Qed.

Lemma rotateLeft2_rep m up g cg u dg p cp lp dp rp n :
  rep m (plug up (Br g cg u dg (Br p cp lp dp rp))) ->
  keys_inj compFunc (plug up (Br g cg u dg (Br p cp lp dp rp))) ->
  top lp = Some n \/ top rp = Some n ->
  left_present up = true ->
  exists m',
    rotateLeft2 compFunc (Some n) m = Done tt m'
    /\ rep m' (plug up (Br p (match up with [] => BLACK | _ => cp end)
                            (Br g cg u dg lp) dp rp))
    /\ size (tree m') = size (tree m) /\ freed m' = freed m.
Proof.
  destruct m as [h tr fr]. unfold rep. cbn [nodes tree freed].
  intros (Hs & Hroot & Hu0) Hinj Hn Hlp.
  apply shape_plug in Hs. destruct Hs as (Hup & Hg). cbn [shape top ctx_top] in Hg.
  destruct Hg as (Hg & Hsu & Hp & Hlp' & Hrp).
  pose proof Hu0 as HU. apply uniq_plug in HU.
  unfold rotateLeft2.
  destruct Hn as [Hn|Hn].
  - destruct lp as [|x cx xl dx xr]; [discriminate|]. injection Hn as ->.
    cbn [shape top] in Hlp'. destruct Hlp' as (Hx & Hxl & Hxr).
    case_up compFunc Hinj HU Hup up g dg; try discriminate.
    + go h [g; p; n].
    + go h [g; p; n; gg].
    + go h [g; p; n; gg; y].
    + go h [g; p; n; gg; y].
  - destruct rp as [|z cz zl dz zr]; [discriminate|]. injection Hn as ->.
    cbn [shape top] in Hrp. destruct Hrp as (Hz & Hzl & Hzr).
    destruct lp as [|x cx xl dx xr];
      [|cbn [shape top] in Hlp'; destruct Hlp' as (Hx & Hxl & Hxr)];
    case_up compFunc Hinj HU Hup up g dg; try discriminate.
    + go h [g; p; n].
    + go h [g; p; n; gg].
    + go h [g; p; n; gg; y].
    + go h [g; p; n; gg; y].
    + go h [g; p; n; x].
    + go h [g; p; n; x; gg].
    + go h [g; p; n; x; gg; y].
    + go h [g; p; n; x; gg; y].
Qed.

Lemma rotateRight2_rep m up g cg u dg p cp lp dp rp n :
  rep m (plug up (Br g cg (Br p cp lp dp rp) dg u)) ->
  keys_inj compFunc (plug up (Br g cg (Br p cp lp dp rp) dg u)) ->
  top lp = Some n \/ top rp = Some n ->
  left_present up = true ->
  exists m',
    rotateRight2 compFunc (Some n) m = Done tt m'
    /\ rep m' (plug up (Br p (match up with [] => BLACK | _ => cp end)
                            lp dp (Br g RED rp dg u)))
    /\ size (tree m') = size (tree m) /\ freed m' = freed m.
Proof.
  destruct m as [h tr fr]. unfold rep. cbn [nodes tree freed].
  intros (Hs & Hroot & Hu0) Hinj Hn Hlp.
  apply shape_plug in Hs. destruct Hs as (Hup & Hg). cbn [shape top ctx_top] in Hg.
  destruct Hg as (Hg & (Hp & Hlp' & Hrp) & Hsu).
  pose proof Hu0 as HU. apply uniq_plug in HU.
  unfold rotateRight2.
  destruct Hn as [Hn|Hn].
  - destruct lp as [|z cz zl dz zr]; [discriminate|]. injection Hn as ->.
    cbn [shape top] in Hlp'. destruct Hlp' as (Hz & Hzl & Hzr).
    destruct rp as [|x cx xl dx xr];
      [|cbn [shape top] in Hrp; destruct Hrp as (Hx & Hxl & Hxr)];
    case_up compFunc Hinj HU Hup up g dg; try discriminate.
    + go h [g; p; n].
    + go h [g; p; n; gg].
    + go h [g; p; n; gg; y].
    + go h [g; p; n; gg; y].
    + go h [g; p; n; x].
    + go h [g; p; n; x; gg].
    + go h [g; p; n; x; gg; y].
    + go h [g; p; n; x; gg; y].
  - destruct rp as [|x cx xl dx xr]; [discriminate|]. injection Hn as ->.
    cbn [shape top] in Hrp. destruct Hrp as (Hx & Hxl & Hxr).
    case_up compFunc Hinj HU Hup up g dg; try discriminate.
    + go h [g; p; n].
    + go h [g; p; n; gg].
    + go h [g; p; n; gg; y].
    + go h [g; p; n; gg; y].
Qed.

End Rotations.

(** ** Searching and linking a new node *)

Section Descent.

Context {A : Type} (compFunc : A -> A -> Z) `{!Comparator compFunc}.
Implicit Types (t l r u : btree A) (fs up acc : list (frame A)) (h : gmap positive (Node A)).

Lemma contains_eval h tr fr par t d fuel :
  shape h par t -> (count t < fuel)%nat ->
  contains compFunc fuel (top t) d (mkMem h tr fr)
  = Done (contains_tree compFunc t d) (mkMem h tr fr).
Proof.
  revert par t. induction fuel as [|fuel IH]; intros par t Hs Hc; [lia|].
  destruct t as [|a c l x r]; [reflexivity|].
  cbn [shape] in Hs. destruct Hs as (Ha & Hl & Hr).
  cbn [contains contains_tree top count] in *.
  exec. destruct (compFunc x d =? 0); [reflexivity|].
  destruct (compFunc x d <? 0); exec.
  - apply (IH (Some a) r); [done | lia].
  - apply (IH (Some a) l); [done | lia].
Qed.

(** A tree without an element equal to [d] has a place for [d]. *)
Lemma path_some t d acc :
  contains_tree compFunc t d = 0 ->
  exists fs, path compFunc t d acc = Some fs /\ plug fs Leaf = plug acc t.
Proof.
  revert acc. induction t as [|a c l IHl x r IHr]; intros acc; cbn [contains_tree path].
  - intros _. by exists acc.
  - destruct (compFunc x d =? 0); [discriminate|].
    destruct (compFunc x d <? 0); intros H.
    + destruct (IHr (F Rgt a c x l :: acc) H) as (fs & Hp & Hfs). by exists fs.
    + destruct (IHl (F Lft a c x r :: acc) H) as (fs & Hp & Hfs). by exists fs.
Qed.

Lemma set_color_rep m fs a c l d r c' :
  rep m (plug fs (Br a c l d r)) ->
  exists m',
    set_color (Some a) c' m = Done tt m'
    /\ rep m' (plug fs (Br a c' l d r))
    /\ size (tree m') = size (tree m) /\ freed m' = freed m.
Proof.
  destruct m as [h tr fr]. unfold rep. cbn [nodes tree freed].
  intros (Hs & Hroot & Hu0).
  apply shape_plug in Hs. destruct Hs as (Hup & Ha). cbn [shape top ctx_top] in Ha.
  destruct Ha as (Ha & Hl & Hr).
  pose proof Hu0 as HU. apply uniq_plug in HU.
  cbn [uniq uniq_ctx addrs addrs_ctx fdir faddr fcolor fdata fsib] in HU.
  destruct_and ? HU.
  exec.
  match goal with
  | |- exists m', Done _ (mkMem ?h' _ _) = _ /\ _ =>
    assert (HS : same_except [a] h h')
      by (intros b Hb; rewrite !lookup_insert_ne by (intros ->; apply Hb; lmem);
          reflexivity)
  end.
  eexists. split; [reflexivity|]. cbn [nodes tree freed root size].
  split_and!; try done.
  - apply shape_plug. cbn [shape top]. split_and!; first [lk | untouched HS].
  - destruct fs; [done|]. erewrite top_plug_cons. eassumption.
  - apply (uniq_congr _ _ Hu0), addr_list_plug_congr. reflexivity.
Qed.

Lemma path_plug t d acc fs :
  path compFunc t d acc = Some fs -> plug fs Leaf = plug acc t.
Proof.
  revert acc. induction t as [|a c l IHl x r IHr]; intros acc; cbn [path].
  - by intros [= ->].
  - destruct (compFunc x d =? 0); [discriminate|].
    destruct (compFunc x d <? 0); intros H.
    + by rewrite (IHr _ H).
    + by rewrite (IHl _ H).
Qed.

Lemma path_nonempty t d acc fs :
  path compFunc t d acc = Some fs -> t <> Leaf -> fs <> [].
Proof.
  intros Hp Ht ->. apply path_plug in Hp. cbn in Hp.
  destruct acc as [|f acc]; [by destruct t|].
  assert (count (plug (f :: acc) t) = 0%nat) as Hc by (by rewrite <- Hp).
  clear -Hc. revert f t Hc. induction acc as [|f' acc IH]; intros f t Hc.
  - destruct f as [[] ? ? ? ?]; discriminate.
  - cbn [plug] in Hc. by apply IH in Hc.
Qed.

Lemma treeRBinsert_shape h tr fr t acc fs n d fuel :
  shape_ctx h acc (top t) -> shape h (ctx_top acc) t ->
  uniq (plug acc t) -> n ∉ addrs (plug acc t) ->
  h !! n = Some (mkNode d RED None None None) ->
  t <> Leaf -> path compFunc t d acc = Some fs -> (count t < fuel)%nat ->
  exists h',
    treeRBinsert compFunc fuel (top t) (Some n) (mkMem h tr fr) = Done 1 (mkMem h' tr fr)
    /\ shape h' None (plug fs (Br n RED Leaf d Leaf)).
Proof.
  revert t acc. induction fuel as [|fuel IH]; intros t acc Hup Ht Hu Hfresh Hn Hne Hp Hc; [lia|].
  destruct t as [|a c l x r]; [done|]. clear Hne.
  cbn [shape top] in Ht. destruct Ht as (Ha & Hl & Hr).
  cbn [treeRBinsert path top count] in *.
  exec. destruct (compFunc x d =? 0); [discriminate|].
  destruct (compFunc x d <? 0).
  - destruct r as [|b cb bl xb br].
    + cbn [path] in Hp. injection Hp as <-.
      pose proof Hu as HU. apply uniq_plug in HU. rewrite addrs_plug in Hfresh.
      cbn [uniq uniq_ctx addrs addrs_ctx fdir faddr fcolor fdata fsib] in HU, Hfresh.
      destruct_and ? HU. distinct [a; n]. exec.
      match goal with
      | |- exists h', Done _ (mkMem ?h1 _ _) = _ /\ _ =>
        assert (HS : same_except [a; n] h h1)
          by (intros k Hk; rewrite !lookup_insert_ne by (intros ->; apply Hk; lmem);
              reflexivity)
      end.
      eexists. split; [reflexivity|].
      apply shape_plug.
      cbn [shape shape_ctx top ctx_top frame_node fdir faddr fcolor fdata fsib].
      split_and!; first [lk | untouched HS].
    + exec.
      destruct (IH (Br b cb bl xb br) (F Rgt a c x l :: acc)) as (h' & Hrun & Hs');
        try done; try lia.
      cbn [top] in Hrun. erewrite (bind_done _ _ _ _ _ Hrun). exec. eauto.
  - destruct l as [|b cb bl xb br].
    + cbn [path] in Hp. injection Hp as <-.
      pose proof Hu as HU. apply uniq_plug in HU. rewrite addrs_plug in Hfresh.
      cbn [uniq uniq_ctx addrs addrs_ctx fdir faddr fcolor fdata fsib] in HU, Hfresh.
      destruct_and ? HU. distinct [a; n]. exec.
      match goal with
      | |- exists h', Done _ (mkMem ?h1 _ _) = _ /\ _ =>
        assert (HS : same_except [a; n] h h1)
          by (intros k Hk; rewrite !lookup_insert_ne by (intros ->; apply Hk; lmem);
              reflexivity)
      end.
      eexists. split; [reflexivity|].
      apply shape_plug.
      cbn [shape shape_ctx top ctx_top frame_node fdir faddr fcolor fdata fsib].
      split_and!; first [lk | untouched HS].
    + exec.
      destruct (IH (Br b cb bl xb br) (F Lft a c x r :: acc)) as (h' & Hrun & Hs');
        try done; try lia.
      cbn [top] in Hrun. erewrite (bind_done _ _ _ _ _ Hrun). exec. eauto.
Qed.

End Descent.

(** ** The rotations of the insertion fixup *)

Section InsertRotations.

Context {A : Type} (compFunc : A -> A -> Z) `{!Comparator compFunc}.
Implicit Types (t l r u s : btree A) (fs up acc : list (frame A)) (h : gmap positive (Node A)).

Local Abbreviation lt := (precedes compFunc).

Lemma sorted_plug_congr fs t t' :
  inorder t = inorder t' ->
  StronglySorted lt (inorder (plug fs t)) -> StronglySorted lt (inorder (plug fs t')).
Proof. intros Heq. by rewrite (inorder_plug_congr fs t t' Heq). Qed.

(** The right kid of a right kid. *)
Lemma rotateLeft_RR m up g cg u dg p cp s dp n cn nl dn nr :
  let T := plug up (Br g cg u dg (Br p cp s dp (Br n cn nl dn nr))) in
  rep m T -> StronglySorted lt (inorder T) -> left_present up = true ->
  exists m',
    rotateLeft compFunc (Some n) m = Done tt m'
    /\ rep m' (plug up (Br p BLACK (Br g RED u dg s) dp (Br n cn nl dn nr)))
    /\ size (tree m') = size (tree m) /\ freed m' = freed m.
Proof.
  intros T Hrep Hsort Hlp. subst T.
  pose proof (sorted_keys_inj compFunc _ Hsort) as Hinj.
  destruct (rotateLeft2_rep compFunc m up g cg u dg p cp s dp (Br n cn nl dn nr) n)
    as (m1 & Hrun1 & Hrep1 & Hsz1 & Hfr1); try done; [by right|].
  destruct (set_color_rep m1 up p _ _ _ _ BLACK Hrep1)
    as (m2 & Hrun2 & Hrep2 & Hsz2 & Hfr2).
  destruct (set_color_rep m2 (F Lft p BLACK dp (Br n cn nl dn nr) :: up) g cg u dg s RED Hrep2)
    as (m3 & Hrun3 & Hrep3 & Hsz3 & Hfr3).
  exists m3. split; [|split_and!; [exact Hrep3 | congruence | congruence]].
  destruct m as [h tr fr]. destruct Hrep as (Hs & Hroot & Hu0). cbn [nodes tree] in *.
  apply shape_plug in Hs. destruct Hs as (Hup & Hg). cbn [shape top ctx_top] in Hg.
  destruct Hg as (Hg & Hsu & Hp & Hss & Hn & Hnl & Hnr).
  pose proof Hu0 as HU. apply uniq_plug in HU.
  unfold rotateLeft.
  destruct u as [|z cz zl dz zr];
    [|cbn [shape top] in Hsu; destruct Hsu as (Hz & Hzl & Hzr);
      assert (Ht : (compFunc dp dz =? 0) = false)
        by (apply (keys_inj_test compFunc _ p z dp dz Hinj);
            [incells | incells |
             cbn [uniq uniq_ctx addrs addrs_ctx] in HU; destruct_and ? HU; neq_by_addrs])];
  cbn [uniq uniq_ctx addrs addrs_ctx] in HU; destruct_and ? HU.
  - exec. erewrite (bind_done _ _ _ _ _ Hrun1). erewrite (bind_done _ _ _ _ _ Hrun2).
    exact Hrun3.
  - exec. rewrite Ht. exec.
    erewrite (bind_done _ _ _ _ _ Hrun1). erewrite (bind_done _ _ _ _ _ Hrun2).
    exact Hrun3.
Qed.

(** The left kid of a left kid. *)
Lemma rotateRight_LL m up g cg u dg p cp s dp n cn nl dn nr :
  let T := plug up (Br g cg (Br p cp (Br n cn nl dn nr) dp s) dg u) in
  rep m T -> StronglySorted lt (inorder T) -> left_present up = true ->
  exists m',
    rotateRight compFunc (Some n) m = Done tt m'
    /\ rep m' (plug up (Br p BLACK (Br n cn nl dn nr) dp (Br g RED s dg u)))
    /\ size (tree m') = size (tree m) /\ freed m' = freed m.
Proof.
  intros T Hrep Hsort Hlp. subst T.
  pose proof (sorted_keys_inj compFunc _ Hsort) as Hinj.
  destruct (rotateRight2_rep compFunc m up g cg u dg p cp (Br n cn nl dn nr) dp s n)
    as (m1 & Hrun1 & Hrep1 & Hsz1 & Hfr1); try done; [by left|].
  destruct (set_color_rep m1 up p _ _ _ _ BLACK Hrep1)
    as (m2 & Hrun2 & Hrep2 & Hsz2 & Hfr2).
  destruct (set_color_rep m2 (F Rgt p BLACK dp (Br n cn nl dn nr) :: up) g RED s dg u RED Hrep2)
    as (m3 & Hrun3 & Hrep3 & Hsz3 & Hfr3).
  exists m3. split; [|split_and!; [exact Hrep3 | congruence | congruence]].
  destruct m as [h tr fr]. destruct Hrep as (Hs & Hroot & Hu0). cbn [nodes tree] in *.
  apply shape_plug in Hs. destruct Hs as (Hup & Hg). cbn [shape top ctx_top] in Hg.
  destruct Hg as (Hg & (Hp & (Hn & Hnl & Hnr) & Hss) & Hsu).
  pose proof Hu0 as HU. apply uniq_plug in HU.
  unfold rotateRight.
  destruct u as [|z cz zl dz zr];
    [|cbn [shape top] in Hsu; destruct Hsu as (Hz & Hzl & Hzr);
      assert (Ht : (compFunc dp dz =? 0) = false)
        by (apply (keys_inj_test compFunc _ p z dp dz Hinj);
            [incells | incells |
             cbn [uniq uniq_ctx addrs addrs_ctx] in HU; destruct_and ? HU; neq_by_addrs])];
  cbn [uniq uniq_ctx addrs addrs_ctx] in HU; destruct_and ? HU.
  - exec. repeat (tests; exec).
    erewrite (bind_done _ _ _ _ _ Hrun1). erewrite (bind_done _ _ _ _ _ Hrun2).
    exact Hrun3.
  - exec. repeat (tests; exec).
    erewrite (bind_done _ _ _ _ _ Hrun1). erewrite (bind_done _ _ _ _ _ Hrun2).
    exact Hrun3.
Qed.

(** The right kid of a left kid. *)
Lemma rotateLeft_LR m up g cg u dg p cp s dp n cn nl dn nr :
  let T := plug up (Br g cg (Br p cp s dp (Br n cn nl dn nr)) dg u) in
  rep m T -> StronglySorted lt (inorder T) -> left_present up = true ->
  exists m',
    rotateLeft compFunc (Some n) m = Done tt m'
    /\ rep m' (plug up (Br n BLACK (Br p cp s dp nl) dn (Br g RED nr dg u)))
    /\ size (tree m') = size (tree m) /\ freed m' = freed m.
Proof.
  intros T Hrep Hsort Hlp. subst T.
  set (T1 := plug up (Br g cg (Br n cn (Br p cp s dp nl) dn nr) dg u)).
  assert (Hsort1 : StronglySorted lt (inorder T1)).
  { revert Hsort. apply sorted_plug_congr. list_eq. }
  pose proof (sorted_keys_inj compFunc _ Hsort) as Hinj.
  pose proof (sorted_keys_inj compFunc _ Hsort1) as Hinj1.
  destruct m as [h tr fr]. pose proof Hrep as (Hs & Hroot & Hu0). cbn [nodes tree] in *.
  apply shape_plug in Hs. destruct Hs as (Hup & Hg). cbn [shape top ctx_top] in Hg.
  destruct Hg as (Hg & (Hp & Hss & Hn & Hnl & Hnr) & Hsu).
  pose proof Hu0 as HU. apply uniq_plug in HU.
  unfold rotateLeft.
  destruct nl as [|x cx xl dx xr];
    [|cbn [shape top] in Hnl; destruct Hnl as (Hx & Hxl & Hxr)];
  cbn [uniq uniq_ctx addrs addrs_ctx] in HU; destruct_and ? HU.
  - distinct [g; p; n]. exec. repeat (tests; exec).
    match goal with
    | |- context [mkMem ?h1 tr fr] =>
      assert (Hrep1 : rep (mkMem h1 tr fr) T1) by (subst T1; rep_tac h [g; p; n])
    end.
    destruct (rotateRight2_rep compFunc _ up g cg u dg n cn (Br p cp s dp Leaf) dn nr p Hrep1)
      as (m1 & Hrun1 & Hrep2 & Hsz1 & Hfr1); try done; [by left|].
    destruct (set_color_rep m1 up n _ _ _ _ BLACK Hrep2)
      as (m2 & Hrun2 & Hrep3 & Hsz2 & Hfr2).
    destruct (set_color_rep m2 (F Rgt n BLACK dn (Br p cp s dp Leaf) :: up) g RED nr dg u RED Hrep3)
      as (m3 & Hrun3 & Hrep4 & Hsz3 & Hfr3).
    exists m3. split; [|split_and!; [exact Hrep4 | cbn in *; congruence | cbn in *; congruence]].
    erewrite (bind_done _ _ _ _ _ Hrun1). erewrite (bind_done _ _ _ _ _ Hrun2).
    exact Hrun3.
  - distinct [g; p; n; x]. exec. repeat (tests; exec).
    match goal with
    | |- context [mkMem ?h1 tr fr] =>
      assert (Hrep1 : rep (mkMem h1 tr fr) T1) by (subst T1; rep_tac h [g; p; n; x])
    end.
    destruct (rotateRight2_rep compFunc _ up g cg u dg n cn (Br p cp s dp (Br x cx xl dx xr))
                dn nr p Hrep1)
      as (m1 & Hrun1 & Hrep2 & Hsz1 & Hfr1); try done; [by left|].
    destruct (set_color_rep m1 up n _ _ _ _ BLACK Hrep2)
      as (m2 & Hrun2 & Hrep3 & Hsz2 & Hfr2).
    destruct (set_color_rep m2 (F Rgt n BLACK dn (Br p cp s dp (Br x cx xl dx xr)) :: up)
                g RED nr dg u RED Hrep3)
      as (m3 & Hrun3 & Hrep4 & Hsz3 & Hfr3).
    exists m3. split; [|split_and!; [exact Hrep4 | cbn in *; congruence | cbn in *; congruence]].
    erewrite (bind_done _ _ _ _ _ Hrun1). erewrite (bind_done _ _ _ _ _ Hrun2).
    exact Hrun3.
Qed.

(** The left kid of a right kid. *)
Lemma rotateRight_RL m up g cg u dg p cp s dp n cn nl dn nr :
  let T := plug up (Br g cg u dg (Br p cp (Br n cn nl dn nr) dp s)) in
  rep m T -> StronglySorted lt (inorder T) -> left_present up = true ->
  exists m',
    rotateRight compFunc (Some n) m = Done tt m'
    /\ rep m' (plug up (Br n BLACK (Br g RED u dg nl) dn (Br p cp nr dp s)))
    /\ size (tree m') = size (tree m) /\ freed m' = freed m.
Proof.
  intros T Hrep Hsort Hlp. subst T.
  set (T1 := plug up (Br g cg u dg (Br n cn nl dn (Br p cp nr dp s)))).
  assert (Hsort1 : StronglySorted lt (inorder T1)).
  { revert Hsort. apply sorted_plug_congr. list_eq. }
  pose proof (sorted_keys_inj compFunc _ Hsort) as Hinj.
  pose proof (sorted_keys_inj compFunc _ Hsort1) as Hinj1.
  destruct m as [h tr fr]. pose proof Hrep as (Hs & Hroot & Hu0). cbn [nodes tree] in *.
  apply shape_plug in Hs. destruct Hs as (Hup & Hg). cbn [shape top ctx_top] in Hg.
  destruct Hg as (Hg & Hsu & Hp & (Hn & Hnl & Hnr) & Hss).
  pose proof Hu0 as HU. apply uniq_plug in HU.
  unfold rotateRight.
  destruct nr as [|x cx xl dx xr];
    [|cbn [shape top] in Hnr; destruct Hnr as (Hx & Hxl & Hxr)];
  cbn [uniq uniq_ctx addrs addrs_ctx] in HU; destruct_and ? HU.
  - distinct [g; p; n]. exec. repeat (tests; exec).
    match goal with
    | |- context [mkMem ?h1 tr fr] =>
      assert (Hrep1 : rep (mkMem h1 tr fr) T1) by (subst T1; rep_tac h [g; p; n])
    end.
    destruct (rotateLeft2_rep compFunc _ up g cg u dg n cn nl dn (Br p cp Leaf dp s) p Hrep1)
      as (m1 & Hrun1 & Hrep2 & Hsz1 & Hfr1); try done; [by right|].
    destruct (set_color_rep m1 up n _ _ _ _ BLACK Hrep2)
      as (m2 & Hrun2 & Hrep3 & Hsz2 & Hfr2).
    destruct (set_color_rep m2 (F Lft n BLACK dn (Br p cp Leaf dp s) :: up) g cg u dg nl RED Hrep3)
      as (m3 & Hrun3 & Hrep4 & Hsz3 & Hfr3).
    exists m3. split; [|split_and!; [exact Hrep4 | cbn in *; congruence | cbn in *; congruence]].
    erewrite (bind_done _ _ _ _ _ Hrun1). erewrite (bind_done _ _ _ _ _ Hrun2).
    exact Hrun3.
  - distinct [g; p; n; x]. exec. repeat (tests; exec).
    match goal with
    | |- context [mkMem ?h1 tr fr] =>
      assert (Hrep1 : rep (mkMem h1 tr fr) T1) by (subst T1; rep_tac h [g; p; n; x])
    end.
    destruct (rotateLeft2_rep compFunc _ up g cg u dg n cn nl dn (Br p cp (Br x cx xl dx xr) dp s)
                p Hrep1)
      as (m1 & Hrun1 & Hrep2 & Hsz1 & Hfr1); try done; [by right|].
    destruct (set_color_rep m1 up n _ _ _ _ BLACK Hrep2)
      as (m2 & Hrun2 & Hrep3 & Hsz2 & Hfr2).
    destruct (set_color_rep m2 (F Lft n BLACK dn (Br p cp (Br x cx xl dx xr) dp s) :: up)
                g cg u dg nl RED Hrep3)
      as (m3 & Hrun3 & Hrep4 & Hsz3 & Hfr3).
    exists m3. split; [|split_and!; [exact Hrep4 | cbn in *; congruence | cbn in *; congruence]].
    erewrite (bind_done _ _ _ _ _ Hrun1). erewrite (bind_done _ _ _ _ _ Hrun2).
    exact Hrun3.
Qed.

End InsertRotations.

(** ** The insertion fixup on a stored tree *)

Section Fixup.

Context {A : Type} (compFunc : A -> A -> Z) `{!Comparator compFunc}.
Implicit Types (t l r u s : btree A) (fs up acc : list (frame A)) (h : gmap positive (Node A)).

Local Abbreviation lt := (precedes compFunc).

Lemma cells_ctx_addrs fs a d : (a, d) ∈ cells_ctx fs -> a ∈ addrs_ctx fs.
Proof.
  induction fs as [|f up IH]; cbn [cells_ctx addrs_ctx].
  - intros H. by apply elem_of_nil in H.
  - intros [Hx|Hx]%elem_of_cons.
    + injection Hx as -> ->. set_solver.
    + apply elem_of_app in Hx as [Hx|Hx]; [apply cells_addrs in Hx|]; set_solver.
Qed.

(** The root of a tree with a non-empty context is stored, and it is a
    node of the context. *)
Lemma root_cell h f fs t :
  shape h None (plug (f :: fs) t) ->
  exists a nd, top (plug (f :: fs) t) = Some a /\ h !! a = Some nd
               /\ (a, data nd) ∈ cells_ctx (f :: fs).
Proof.
  revert f t. induction fs as [|f' up IH]; intros f t Hs.
  - destruct f as [[] a c d s]; cbn in Hs |- *; destruct Hs as (Ha & _);
      eexists _, _; (split_and!; [done | done | cbn; by left]).
  - cbn [plug] in Hs. destruct (IH f' (plug1 f t) Hs) as (a & nd & Ht & Ha & Hc).
    exists a, nd. split_and!; [done | done |].
    cbn [cells_ctx] in Hc |- *. set_solver.
Qed.

Lemma getUncle_eval h tr fr d p cp dp s up n cn nl dn nr :
  let T := plug (F d p cp dp s :: up) (Br n cn nl dn nr) in
  shape h None T -> uniq T -> keys_inj compFunc T ->
  getUncle compFunc (Some n) (mkMem h tr fr)
  = Done (match up with [] => None | f :: _ => top (fsib f) end) (mkMem h tr fr).
Proof.
  intros T Hs HU Hinj. subst T.
  apply shape_plug in Hs. destruct Hs as (Hup & Hn).
  cbn [shape shape_ctx top ctx_top faddr fsib] in Hup, Hn.
  destruct Hn as (Hn & _). destruct Hup as (Hp & Hss & Hup).
  apply uniq_plug in HU. unfold getUncle.
  destruct up as [|[d2 g cg dg u] up2].
  - destruct d; cbn [frame_node fdir fdata fcolor fsib ctx_top] in Hp; exec; reflexivity.
  - cbn [shape_ctx faddr fsib] in Hup. destruct Hup as (Hg & Hsu & Hup).
    destruct d2, u as [|x cx xl dx xr];
      cbn [frame_node fdir fdata fcolor fsib ctx_top top shape] in Hg, Hsu;
      try (destruct Hsu as (Hx & _);
           assert (Ht : (compFunc dx dp =? 0) = false)
             by (apply (keys_inj_test compFunc _ x p dx dp Hinj);
                 [incells | incells |
                  cbn [uniq uniq_ctx addrs addrs_ctx fdir faddr fcolor fdata fsib] in HU;
                  destruct_and ? HU; neq_by_addrs]));
      destruct d; cbn [frame_node fdir fdata fcolor fsib ctx_top] in Hp;
      exec; repeat (tests; exec); reflexivity.
Qed.

Lemma fixTreeInsert_rep fuel :
  forall fs m n cn nl dn nr T',
    rep m (plug fs (Br n cn nl dn nr)) ->
    StronglySorted lt (inorder (plug fs (Br n cn nl dn nr))) ->
    fix_ins fs (Br n cn nl dn nr) = Some T' ->
    (length fs < fuel)%nat ->
    exists m',
      fixTreeInsert compFunc fuel (Some n) m = Done tt m'
      /\ rep m' T'
      /\ size (tree m') = size (tree m) /\ freed m' = freed m.
Proof.
  induction fuel as [|fuel IH]; intros fs m n cn nl dn nr T' Hrep Hsort Hfix Hlen; [lia|].
  pose proof (sorted_keys_inj compFunc _ Hsort) as Hinj.
  destruct m as [h [rt sz] fr]. pose proof Hrep as (Hs & Hroot & Hu0).
  cbn [nodes tree root] in Hs, Hroot.
  cbn [fixTreeInsert].
  destruct fs as [|[d p cp dp s] up].
  - (* the new node is the root *)
    cbn [plug fix_ins blacken top] in *. injection Hfix as <-. subst rt.
    destruct Hs as (Hn & _). unfold getUncle. reads. tests. reads.
    apply (set_color_rep _ [] n cn nl dn nr BLACK Hrep).
  - destruct (root_cell _ _ _ _ Hs) as (a & nd & Htop & Ha & Hca).
    rewrite Htop in Hroot. subst rt.
    assert (Hta : (compFunc (data nd) dn =? 0) = false).
    { apply (keys_inj_test compFunc _ a n _ _ Hinj).
      - apply cells_plug. by left.
      - apply cells_plug. right. cbn [cells]. lmem.
      - apply cells_ctx_addrs in Hca. apply uniq_plug in Hu0 as (_ & _ & Hd).
        intros ->. apply (proj1 (elem_of_disjoint _ _) Hd n Hca). cbn [addrs]. mem. }
    erewrite (bind_done _ _ _ _ _ (getUncle_eval h _ fr d p cp dp s up n cn nl dn nr Hs Hu0 Hinj)).
    pose proof Hs as Hs0.
    apply shape_plug in Hs. destruct Hs as (Hup & Hn).
    cbn [shape shape_ctx top ctx_top faddr fsib] in Hup, Hn.
    destruct Hn as (Hn & _). destruct Hup as (Hp & Hss & Hup).
    destruct cp.
    + (* parent RED *)
      destruct up as [|[d2 g cg dg u] up2]; [discriminate|].
      cbn [shape_ctx faddr fsib] in Hup. destruct Hup as (Hg & Hsu & Hup).
      destruct u as [|x cx ul du ur];
        [|cbn [shape top] in Hsu; destruct Hsu as (Hx & _); destruct cx].
      * (* no uncle *)
        cbn [fix_ins] in Hfix.
        destruct (left_present up2) eqn:Hlp; [|discriminate].
        destruct d, d2; injection Hfix as <-;
          cbn [frame_node fdir fdata fcolor fsib ctx_top top] in Hp, Hg;
          try (destruct s as [|z cz zl dz zr];
               [|cbn [shape] in Hss; destruct Hss as (Hz & _);
                 assert (Ht : (compFunc dn dz =? 0) = false)
                   by (apply (keys_inj_test compFunc _ n z dn dz Hinj);
                       [incells | incells |
                        apply uniq_plug in Hu0;
                        cbn [uniq uniq_ctx addrs addrs_ctx fdir faddr fcolor fdata fsib plug1] in Hu0;
                        destruct_and ? Hu0; neq_by_addrs])]);
          reads; repeat (tests; reads).
        all: cbn [plug plug1 fdir faddr fcolor fdata fsib] in Hrep, Hsort.
        all: first [ eapply (rotateRight_LL compFunc); [exact Hrep | exact Hsort | exact Hlp]
                   | eapply (rotateRight_RL compFunc); [exact Hrep | exact Hsort | exact Hlp]
                   | eapply (rotateLeft_LR compFunc); [exact Hrep | exact Hsort | exact Hlp]
                   | eapply (rotateLeft_RR compFunc); [exact Hrep | exact Hsort | exact Hlp] ].
      * (* the uncle is RED: recolour and go on from the grandparent *)
        cbn [fix_ins] in Hfix. cbn [length] in Hlen.
        set (m := mkMem h (mkRBTree (Some a) sz) fr) in *.
        set (t := Br n cn nl dn nr) in *.
        set (pl := match d with Lft => t | Rgt => s end).
        set (pr := match d with Lft => s | Rgt => t end).
        destruct d2.
        -- destruct (set_color_rep m (F Lft g cg dg (Br x RED ul du ur) :: up2)
                       p RED pl dp pr BLACK)
             as (m1 & Hrun1 & Hrep1 & Hsz1 & Hfr1); [by destruct d|].
           destruct (set_color_rep m1 (F Rgt g cg dg (Br p BLACK pl dp pr) :: up2)
                       x RED ul du ur BLACK Hrep1)
             as (m2 & Hrun2 & Hrep2 & Hsz2 & Hfr2).
           destruct (set_color_rep m2 up2 g cg (Br p BLACK pl dp pr) dg
                       (Br x BLACK ul du ur) RED Hrep2)
             as (m3 & Hrun3 & Hrep3 & Hsz3 & Hfr3).
           destruct (IH up2 m3 g RED _ dg _ T' Hrep3) as (m4 & Hrun4 & Hrep4 & Hsz4 & Hfr4);
             [ revert Hsort; cbn [plug]; apply sorted_plug_congr; by destruct d
             | by destruct d | lia | ].
           exists m4. split; [|split_and!; [done | congruence | congruence]].
           destruct d; cbn [frame_node fdir fdata fcolor fsib ctx_top top] in Hp, Hg;
             subst m t; reads; repeat (tests; reads);
             erewrite (bind_done _ _ _ _ _ Hrun1); erewrite (bind_done _ _ _ _ _ Hrun2);
             erewrite (bind_done _ _ _ _ _ Hrun3); exact Hrun4.
        -- destruct (set_color_rep m (F Rgt g cg dg (Br x RED ul du ur) :: up2)
                       p RED pl dp pr BLACK)
             as (m1 & Hrun1 & Hrep1 & Hsz1 & Hfr1); [by destruct d|].
           destruct (set_color_rep m1 (F Lft g cg dg (Br p BLACK pl dp pr) :: up2)
                       x RED ul du ur BLACK Hrep1)
             as (m2 & Hrun2 & Hrep2 & Hsz2 & Hfr2).
           destruct (set_color_rep m2 up2 g cg (Br x BLACK ul du ur) dg
                       (Br p BLACK pl dp pr) RED Hrep2)
             as (m3 & Hrun3 & Hrep3 & Hsz3 & Hfr3).
           destruct (IH up2 m3 g RED _ dg _ T' Hrep3) as (m4 & Hrun4 & Hrep4 & Hsz4 & Hfr4);
             [ revert Hsort; cbn [plug]; apply sorted_plug_congr; by destruct d
             | by destruct d | lia | ].
           exists m4. split; [|split_and!; [done | congruence | congruence]].
           destruct d; cbn [frame_node fdir fdata fcolor fsib ctx_top top] in Hp, Hg;
             subst m t; reads; repeat (tests; reads);
             erewrite (bind_done _ _ _ _ _ Hrun1); erewrite (bind_done _ _ _ _ _ Hrun2);
             erewrite (bind_done _ _ _ _ _ Hrun3); exact Hrun4.
      * (* the uncle is BLACK *)
        cbn [fix_ins] in Hfix.
        destruct (left_present up2) eqn:Hlp; [|discriminate].
        destruct d, d2; injection Hfix as <-;
          cbn [frame_node fdir fdata fcolor fsib ctx_top top] in Hp, Hg;
          try (destruct s as [|z cz zl dz zr];
               [|cbn [shape] in Hss; destruct Hss as (Hz & _);
                 assert (Ht : (compFunc dn dz =? 0) = false)
                   by (apply (keys_inj_test compFunc _ n z dn dz Hinj);
                       [incells | incells |
                        apply uniq_plug in Hu0;
                        cbn [uniq uniq_ctx addrs addrs_ctx fdir faddr fcolor fdata fsib plug1] in Hu0;
                        destruct_and ? Hu0; neq_by_addrs])]);
          reads; repeat (tests; reads).
        all: cbn [plug plug1 fdir faddr fcolor fdata fsib] in Hrep, Hsort.
        all: first [ eapply (rotateRight_LL compFunc); [exact Hrep | exact Hsort | exact Hlp]
                   | eapply (rotateRight_RL compFunc); [exact Hrep | exact Hsort | exact Hlp]
                   | eapply (rotateLeft_LR compFunc); [exact Hrep | exact Hsort | exact Hlp]
                   | eapply (rotateLeft_RR compFunc); [exact Hrep | exact Hsort | exact Hlp] ].
    + (* parent BLACK: nothing to do *)
      cbn [fix_ins] in Hfix. injection Hfix as <-.
      destruct d; cbn [frame_node fdir fdata fcolor fsib ctx_top top] in Hp;
        reads; tests; reads; (eexists; split; [reflexivity|]; done).
Qed.

End Fixup.

(** ** The insertion fixup keeps the red-black invariants *)

Section FixupBalance.

Context {A : Type}.
Implicit Types (t l r u s : btree A) (fs up acc : list (frame A)).

Lemma rbt_leaf : rbt 0 (@Leaf A).
Proof. done. Qed.

Lemma rbt_black k a l d r :
  rbt k l -> rbt k r -> rbt (S k) (Br a BLACK l d r).
Proof.
  intros (Hl & Hnl) (Hr & Hnr). split; cbn.
  - rewrite Hl, Hr, decide_True by done. done.
  - by rewrite Hnl, Hnr.
Qed.

Lemma rbt_red k a l d r :
  rbt k l -> rbt k r -> root_color l = BLACK -> root_color r = BLACK ->
  rbt k (Br a RED l d r).
Proof.
  intros (Hl & Hnl) (Hr & Hnr) Hcl Hcr. split; cbn.
  - rewrite Hl, Hr, decide_True by done. done.
  - by rewrite Hnl, Hnr, Hcl, Hcr.
Qed.

Lemma rbt_inv k a c l d r :
  rbt k (Br a c l d r) ->
  match c with
  | BLACK => exists k', k = S k' /\ rbt k' l /\ rbt k' r
  | RED => rbt k l /\ rbt k r /\ root_color l = BLACK /\ root_color r = BLACK
  end.
Proof.
  unfold rbt. intros (Hh & Hn). cbn in Hh, Hn.
  destruct (black_height l) as [hl|] eqn:Hl; [|done].
  destruct (black_height r) as [hr|] eqn:Hr; [|done].
  destruct (decide (hl = hr)) as [->|]; [|done].
  apply andb_true_iff in Hn as [Hn Hnr]. apply andb_true_iff in Hn as [Hc Hnl].
  destruct c; cbn in Hh, Hc; injection Hh as <-.
  - apply andb_true_iff in Hc as [Hcl Hcr].
    destruct (root_color l), (root_color r); done.
  - exists hr. done.
Qed.

Lemma rbt_plug1 k f t :
  rbt k t -> rbt k (fsib f) ->
  (fcolor f = RED -> root_color t = BLACK /\ root_color (fsib f) = BLACK) ->
  rbt (match fcolor f with BLACK => S k | RED => k end) (plug1 f t).
Proof.
  destruct f as [[] a [] d s]; unfold plug1; cbn [fdir faddr fcolor fdata fsib];
    intros Ht Hs Hc.
  - destruct Hc as [? ?]; [done|]. by apply rbt_red.
  - by apply rbt_black.
  - destruct Hc as [? ?]; [done|]. by apply rbt_red.
  - by apply rbt_black.
Qed.

(** Filling the hole of a red-black context. *)
Lemma plug_red_black fs : forall k t,
  ctx_rb fs k -> rbt k t ->
  (~ head_black fs -> root_color t = BLACK) ->
  root_black (plug fs t) = true /\ no_red_red (plug fs t) = true
  /\ balanced (plug fs t) = true.
Proof.
  induction fs as [|f up IH]; intros k t Hctx Ht Hroot.
  - cbn [plug]. destruct Ht as (Hh & Hn). unfold root_black, balanced.
    rewrite Hroot, Hh by (by intros []). done.
  - cbn [plug]. cbn [ctx_rb] in Hctx. destruct Hctx as (Hs & Hc).
    destruct (fcolor f) eqn:Hcf.
    + destruct Hc as (Hcs & Hhb & Hup).
      apply (IH k).
      * done.
      * pose proof (rbt_plug1 k f t Ht Hs) as H. rewrite Hcf in H. apply H.
        intros _. split; [|done]. apply Hroot. cbn. by rewrite Hcf.
      * intros Hn. done.
    + apply (IH (S k)).
      * done.
      * pose proof (rbt_plug1 k f t Ht Hs) as H. rewrite Hcf in H. by apply H.
      * intros _. destruct f as [[] ? ? ? ?]; cbn in Hcf |- *; by subst.
Qed.

(** Taking a red-black tree apart around a subtree. *)
Lemma red_black_plug fs : forall t,
  root_black (plug fs t) = true -> no_red_red (plug fs t) = true ->
  balanced (plug fs t) = true ->
  exists k, rbt k t /\ ctx_rb fs k
            /\ (~ head_black fs -> root_color t = BLACK).
Proof.
  induction fs as [|f up IH]; intros t Hrb Hnrr Hbal.
  - cbn [plug] in *. unfold balanced in Hbal.
    destruct (black_height t) as [k|] eqn:Hk; [|done].
    exists k. split_and!; try done. intros _. unfold root_black in Hrb.
    by destruct (root_color t).
  - cbn [plug] in *. destruct (IH _ Hrb Hnrr Hbal) as (k' & Hk' & Hup & Hroot).
    assert (root_color (plug1 f t) = fcolor f) as Hrc by (by destruct f as [[] ? ? ? ?]).
    assert (exists hl hr, plug1 f t = Br (faddr f) (fcolor f) hl (fdata f) hr
                          /\ ((hl = t /\ hr = fsib f) \/ (hl = fsib f /\ hr = t)))
      as (hl & hr & Heq & Hlr).
    { destruct f as [[] ? ? ? ?]; unfold plug1; cbn; eauto 10. }
    rewrite Heq in Hk'. apply rbt_inv in Hk'.
    destruct (fcolor f) eqn:Hcf.
    + destruct Hk' as (Hl & Hr & Hcl & Hcr).
      exists k'. cbn [ctx_rb]. rewrite Hcf.
      assert (head_black up) as Hhb.
      { destruct up as [|f' up']; cbn.
        - assert (RED = BLACK) as Habs; [|done]. rewrite <- Hrc. apply Hroot. by intros [].
        - destruct (fcolor f') eqn:Hcf'; [|done].
          assert (RED = BLACK) as Habs; [|done]. rewrite <- Hrc. apply Hroot.
          cbn. by rewrite Hcf'. }
      destruct Hlr as [[-> ->]|[-> ->]]; split_and!; try done.
    + destruct Hk' as (k & -> & Hl & Hr).
      exists k. cbn [ctx_rb]. rewrite Hcf.
      destruct Hlr as [[-> ->]|[-> ->]]; split_and!; try done;
        intros Hn; exfalso; apply Hn; cbn; done.
Qed.

Lemma ctx_rb_left_present fs k : ctx_rb fs (S k) -> left_present fs = true.
Proof.
  destruct fs as [|[[] a c d [|? ? ? ? ?]] up]; cbn; try done.
  intros ((Hh & _) & _). done.
Qed.

Lemma fix_ins_red_black : forall n fs, (length fs <= n)%nat ->
  forall k a l d r,
    ctx_rb fs k -> rbt k l -> rbt k r ->
    root_color l = BLACK -> root_color r = BLACK ->
    exists T',
      fix_ins fs (Br a RED l d r) = Some T'
      /\ root_black T' = true /\ no_red_red T' = true /\ balanced T' = true
      /\ inorder T' = inorder (plug fs (Br a RED l d r)).
Proof.
  induction n as [|n IH]; intros fs Hlen k a l d r Hctx Hl Hr Hcl Hcr.
  { destruct fs; [|cbn in Hlen; lia]. cbn [fix_ins blacken plug].
    eexists. split; [reflexivity|].
    pose proof (rbt_black k a l d r Hl Hr) as (Hh & Hn).
    unfold balanced. rewrite Hh. done. }
  pose proof (rbt_red k a l d r Hl Hr Hcl Hcr) as Ht.
  destruct fs as [|[dp p [] xp s] up].
  - cbn [fix_ins blacken plug]. eexists. split; [reflexivity|].
    pose proof (rbt_black k a l d r Hl Hr) as (Hh & Hn).
    unfold balanced. rewrite Hh. done.
  - (* parent RED *)
    cbn [ctx_rb fcolor fsib] in Hctx. destruct Hctx as (Hs & Hcs & Hhb & Hup).
    destruct up as [|[dg g cg xg u] up2]; [done|].
    cbn [head_black fcolor] in Hhb. subst cg.
    cbn [ctx_rb fcolor fsib] in Hup. destruct Hup as (Hu & Hup2).
    cbn [fix_ins].
    destruct u as [|x [] ul xu ur].
    + (* no uncle *)
      rewrite (ctx_rb_left_present _ _ Hup2).
      eexists. split; [reflexivity|].
      destruct dp, dg;
        (split_and!;
         [ ..
         | cbn [plug plug1 fdir faddr fcolor fdata fsib]; apply inorder_plug_congr; list_eq ]);
        eapply (plug_red_black up2 (S k)); try done;
        repeat first [ apply rbt_black | apply rbt_red | done ].
    + (* RED uncle *)
      apply rbt_inv in Hu as (Hul & Hur & Hcul & Hcur).
      assert (Hx : rbt (S k) (Br x BLACK ul xu ur)) by (by apply rbt_black).
      assert (Hp : rbt (S k) (plug1 (F dp p BLACK xp s) (Br a RED l d r))).
      { destruct dp; unfold plug1; cbn [fdir faddr fcolor fdata fsib]; by apply rbt_black. }
      cbn [length] in Hlen.
      destruct dg; unfold plug1 at 1; cbn [fdir faddr fcolor fdata fsib].
      * destruct (IH up2 ltac:(lia) (S k) g _ xg _ Hup2 Hp Hx) as (T' & Hfix & H1 & H2 & H3 & H4);
          [by destruct dp | done |].
        exists T'. split_and!; try done. rewrite H4.
        cbn [plug]. apply inorder_plug_congr. by destruct dp.
      * destruct (IH up2 ltac:(lia) (S k) g _ xg _ Hup2 Hx Hp) as (T' & Hfix & H1 & H2 & H3 & H4);
          [done | by destruct dp |].
        exists T'. split_and!; try done. rewrite H4.
        cbn [plug]. apply inorder_plug_congr. by destruct dp.
    + (* BLACK uncle *)
      rewrite (ctx_rb_left_present _ _ Hup2).
      eexists. split; [reflexivity|].
      destruct dp, dg;
        (split_and!;
         [ ..
         | cbn [plug plug1 fdir faddr fcolor fdata fsib]; apply inorder_plug_congr; list_eq ]);
        eapply (plug_red_black up2 (S k)); try done;
        repeat first [ apply rbt_black | apply rbt_red | done ].
  - (* parent BLACK *)
    cbn [fix_ins]. eexists. split; [reflexivity|].
    split_and!; [.. | done]; eapply (plug_red_black _ k); try done.
    all: intros Hn; exfalso; apply Hn; done.
Qed.

End FixupBalance.

(** ** Insertion into a stored red-black tree *)

Section Insert.

Context {A : Type} (compFunc : A -> A -> Z) `{!Comparator compFunc}.
Variable alloc : gmap positive (Node A) -> option positive.
Hypothesis alloc_fresh : fresh_alloc alloc.
Implicit Types (t l r u s : btree A) (fs up acc : list (frame A)) (h : gmap positive (Node A)).

Local Abbreviation lt := (precedes compFunc).

Lemma contains_tree_01 t d :
  contains_tree compFunc t d = 0 \/ contains_tree compFunc t d = 1.
Proof.
  induction t as [|a c l IHl x r IHr]; cbn; [by left|].
  destruct (compFunc x d =? 0); [by right|]. by destruct (compFunc x d <? 0).
Qed.

(** On an ascending tree the descent finds [d] exactly when an equal
    element is stored. *)
Lemma contains_tree_spec t d :
  StronglySorted lt (inorder t) ->
  contains_tree compFunc t d = 1 <-> exists x, x ∈ inorder t /\ compFunc x d = 0.
Proof.
  induction t as [|a c l IHl x r IHr]; cbn [contains_tree inorder].
  - intros _. split; [done|]. intros (x & Hx & _). by apply elem_of_nil in Hx.
  - intros Hs. apply StronglySorted_app in Hs as (Hlr & Hl & Hr).
    apply StronglySorted_cons in Hr as (Hxr & Hr). rewrite Forall_forall in Hxr.
    specialize (IHl Hl). specialize (IHr Hr).
    destruct (compFunc x d =? 0) eqn:He.
    + apply Z.eqb_eq in He. split; [|done]. intros _. exists x. split; [|done].
      apply elem_of_app. right. by left.
    + apply Z.eqb_neq in He. destruct (compFunc x d <? 0) eqn:Hlt.
      * apply Z.ltb_lt in Hlt. rewrite IHr. split.
        -- intros (y & Hy & Hyd). exists y. split; [|done].
           apply elem_of_app. right. by right.
        -- intros (y & Hy & Hyd). exists y. split; [|done].
           apply elem_of_app in Hy as [Hy|Hy].
           ++ exfalso. assert (lt y x) as Hyx by (apply Hlr; [done | by left]).
              assert (lt y d) as Hyd' by (by eapply cmp_trans).
              unfold precedes in Hyd'. lia.
           ++ apply elem_of_cons in Hy as [->|Hy]; done.
      * apply Z.ltb_ge in Hlt.
        assert (lt d x) as Hdx by (apply cmp_antisym; lia).
        rewrite IHl. split.
        -- intros (y & Hy & Hyd). exists y. split; [|done].
           apply elem_of_app. by left.
        -- intros (y & Hy & Hyd). exists y. split; [|done].
           apply elem_of_app in Hy as [Hy|Hy]; [done|].
           apply elem_of_cons in Hy as [->|Hy]; [done|].
           exfalso. assert (lt d y) as Hdy by (eapply cmp_trans; [done | by apply Hxr]).
           apply precedes_ne in Hdy; [|done]. tauto.
Qed.

(** The place found by the descent keeps the sequence ascending. *)
Lemma path_between t d : forall acc fs,
  StronglySorted lt (inorder (plug acc t)) ->
  (forall x, x ∈ ctx_before acc -> lt x d) ->
  (forall y, y ∈ ctx_after acc -> lt d y) ->
  path compFunc t d acc = Some fs ->
  (forall x, x ∈ ctx_before fs -> lt x d) /\ (forall y, y ∈ ctx_after fs -> lt d y).
Proof.
  induction t as [|a c l IHl x r IHr]; intros acc fs Hs Hb Ha; cbn [path].
  - by intros [= <-].
  - pose proof Hs as Hs0.
    rewrite inorder_plug in Hs. cbn [inorder] in Hs.
    apply StronglySorted_app in Hs as (_ & _ & Hs).
    apply StronglySorted_app in Hs as (_ & Hs & _).
    apply StronglySorted_app in Hs as (Hlr & Hl & Hr).
    apply StronglySorted_cons in Hr as (Hxr & Hr). rewrite Forall_forall in Hxr.
    destruct (compFunc x d =? 0) eqn:He; [done|]. apply Z.eqb_neq in He.
    destruct (compFunc x d <? 0) eqn:Hlt; intros Hp.
    + apply Z.ltb_lt in Hlt.
      apply (IHr (F Rgt a c x l :: acc) fs); [exact Hs0 | | done | done].
      cbn [ctx_before fdir fsib fdata]. intros y Hy.
      apply elem_of_app in Hy as [Hy|Hy]; [by apply Hb|].
      apply elem_of_app in Hy as [Hy|Hy].
      * eapply cmp_trans; [|exact Hlt]. apply Hlr; [done | by left].
      * apply list_elem_of_singleton in Hy as ->. done.
    + apply Z.ltb_ge in Hlt.
      assert (lt d x) as Hdx by (apply cmp_antisym; lia).
      apply (IHl (F Lft a c x r :: acc) fs); [exact Hs0 | done | | done].
      cbn [ctx_after fdir fsib fdata]. intros y Hy.
      apply elem_of_cons in Hy as [->|Hy]; [done|].
      apply elem_of_app in Hy as [Hy|Hy]; [|by apply Ha].
      eapply cmp_trans; [exact Hdx|]. by apply Hxr.
Qed.

Lemma path_sorted t d fs n c :
  StronglySorted lt (inorder t) -> path compFunc t d [] = Some fs ->
  StronglySorted lt (inorder (plug fs (Br n c Leaf d Leaf))).
Proof.
  intros Hs Hp.
  destruct (path_between t d [] fs) as (Hb & Ha); try done.
  { intros x Hx. by apply elem_of_nil in Hx. }
  { intros x Hx. by apply elem_of_nil in Hx. }
  apply path_plug in Hp. cbn [plug] in Hp. rewrite <- Hp in Hs.
  rewrite inorder_plug in Hs |- *. cbn [inorder app] in Hs |- *.
  apply StronglySorted_app in Hs as (Hba & Hsb & Hsa).
  apply StronglySorted_app. split_and!; [|done|].
  - intros x y Hx [->|Hy]%elem_of_cons; [by apply Hb | by apply Hba].
  - apply StronglySorted_cons. split; [|done]. by apply Forall_forall.
Qed.

Lemma length_ctx_count fs t : (length fs + count t <= count (plug fs t))%nat.
Proof.
  revert t. induction fs as [|f up IH]; intros t; cbn [plug length]; [lia|].
  specialize (IH (plug1 f t)).
  assert (count (plug1 f t) = S (count t + count (fsib f)))
    by (destruct f as [[] ? ? ? ?]; unfold plug1; cbn; lia).
  lia.
Qed.

Lemma red_black_parts t :
  red_black compFunc t = true <->
  root_black t = true /\ no_red_red t = true /\ balanced t = true
  /\ StronglySorted lt (inorder t).
Proof.
  unfold red_black. rewrite !andb_true_iff, (ascending_sorted compFunc). tauto.
Qed.

Lemma new_node_eval d h tr fr :
  new_node alloc d (mkMem h tr fr)
  = match alloc h with
    | Some n => Done (Some n) (mkMem (<[n := mkNode d RED None None None]> h) tr fr)
    | None => Done None (mkMem h tr fr)
    end.
Proof. unfold new_node. cbn [nodes tree freed]. by destruct (alloc h). Qed.

(** [insertToRBTree] on a stored tree up to the fixup: nothing happens
    when an equal element is found or no node can be allocated; the new
    node becomes the root of an empty tree; otherwise it is linked in
    RED where the descent ends, and [fixTreeInsert] is still to run. *)
Lemma insertToRBTree_link m t d :
  rep m t ->
  (insertToRBTree compFunc alloc TREE (Some d) m = Done 0 m
   /\ (contains_tree compFunc t d = 1 \/ alloc (nodes m) = None))
  \/ (contains_tree compFunc t d = 0 /\ t = Leaf
      /\ exists n m1,
           insertToRBTree compFunc alloc TREE (Some d) m = Done 1 m1
           /\ rep m1 (Br n BLACK Leaf d Leaf)
           /\ size (tree m1) = size (tree m) + 1 /\ freed m1 = freed m)
  \/ (contains_tree compFunc t d = 0
      /\ exists fs n m2,
           path compFunc t d [] = Some fs /\ plug fs Leaf = t
           /\ rep m2 (plug fs (Br n RED Leaf d Leaf))
           /\ size (tree m2) = size (tree m) /\ freed m2 = freed m
           /\ insertToRBTree compFunc alloc TREE (Some d) m
              = (with_gas (fun g => fixTreeInsert compFunc g (Some n)) ;;;
                 add_size 1 ;;; ret 1) m2).
Proof.
  intros Hrep. pose proof Hrep as (Hsh & Hroot & Hu).
  destruct m as [h [rt sz] fr]. cbn [nodes tree root size freed] in *. subst rt.
  assert (count t <= base.size h)%nat as Hcount by (by eapply uniq_count).
  unfold insertToRBTree, RBTreeContains. exec.
  rewrite (bind_done (with_gas _) _ _ (contains_tree compFunc t d) (mkMem h (mkRBTree (top t) sz) fr)).
  2:{ rewrite with_gas_eval. apply (contains_eval compFunc h _ fr None t d); [done|].
      unfold gas. cbn [nodes]. lia. }
  destruct (contains_tree_01 t d) as [Hc|Hc]; rewrite Hc; cbn [Z.eqb Pos.eqb].
  2:{ left. split; [done | by left]. }
  pose proof (new_node_eval d h (mkRBTree (top t) sz) fr) as Hnew.
  destruct (alloc h) as [n|] eqn:Hal; rewrite (bind_done _ _ _ _ _ Hnew).
  2:{ left. split; [done | by right]. }
  right.
  pose proof (alloc_fresh _ _ Hal) as Hn.
  assert (n ∉ addrs t) as Hfresh.
  { intros Hin. destruct (shape_dom _ _ _ _ Hsh Hin) as (x & Hx). congruence. }
  set (h1 := <[n := mkNode d RED None None None]> h).
  assert (shape h1 None t) as Hsh1.
  { eapply shape_agree; [|exact Hsh]. intros a Ha. apply lookup_insert_ne. set_solver. }
  assert (h1 !! n = Some (mkNode d RED None None None)) as Hn1 by apply lookup_insert_eq.
  exec. destruct t as [|a c l x r] eqn:Ht; cbn [top].
  - (* the first node becomes the root *)
    left. split_and!; [done|done|]. exec. eexists n, _. split; [reflexivity|].
    split_and!; try done.
    unfold rep. cbn [shape nodes tree root top uniq addrs].
    split_and!; try done; first [apply lookup_insert_eq | set_solver].
  - right. split; [done|].
    rewrite <- Ht in *. assert (t <> Leaf) as Hne by (by rewrite Ht).
    change (Some a) with (top (Br a c l x r)). rewrite <- Ht. clear Ht a c l x r.
    destruct (path_some compFunc t d [] Hc) as (fs & Hp & Hplug). cbn [plug] in Hplug.
    destruct (treeRBinsert_shape compFunc h1 (mkRBTree (top t) sz) fr t [] fs n d
                (gas (mkMem h1 (mkRBTree (top t) sz) fr))) as (h2 & Hins & Hsh2);
      try done.
    { unfold gas. cbn [nodes]. unfold h1.
      rewrite map_size_insert_None by done. lia. }
    rewrite (bind_done (with_gas _) _ _ 1 (mkMem h2 (mkRBTree (top t) sz) fr))
      by (by rewrite with_gas_eval).
    cbn [Z.eqb].
    pose proof (path_nonempty compFunc _ _ _ _ Hp Hne) as Hfs.
    exists fs, n, (mkMem h2 (mkRBTree (top t) sz) fr). split_and!; try done.
    split_and!; [done | |].
    + cbn [tree root]. rewrite <- Hplug.
      destruct fs as [|f fs]; [done|]. apply top_plug_cons.
    + rewrite <- Hplug in Hu, Hfresh. rewrite uniq_plug in Hu |- *.
      rewrite addrs_plug in Hfresh. destruct Hu as (Hu1 & _ & _).
      split_and!; [done | cbn; set_solver | cbn [addrs]; set_solver].
Qed.

(** [insertToRBTree] on a stored red-black tree: it returns, the store
    again holds a red-black tree, and either nothing changed (an equal
    element is present, or no node could be allocated) or [d] joined
    the elements and the size field went up by one. *)
Lemma insertToRBTree_rep m t d :
  rep m t -> red_black compFunc t = true ->
  exists (res : Z) m' t',
    insertToRBTree compFunc alloc TREE (Some d) m = Done res m'
    /\ rep m' t' /\ red_black compFunc t' = true /\ freed m' = freed m
    /\ ((res = 0 /\ m' = m /\ t' = t
         /\ (contains_tree compFunc t d = 1 \/ alloc (nodes m) = None))
        \/ (res = 1 /\ contains_tree compFunc t d = 0
            /\ inorder t' ≡ₚ d :: inorder t
            /\ size (tree m') = size (tree m) + 1)).
Proof.
  intros Hrep Hrb.
  pose proof Hrb as (Hb & Hnrr & Hbal & Hsort)%red_black_parts.
  destruct (insertToRBTree_link m t d Hrep)
    as [(Hrun & Hwhy)|[(Hc & -> & n & m1 & Hrun & Hrep1 & Hsz1 & Hfr1)
                      |(Hc & fs & n & m2 & Hp & Hplug & Hrep2 & Hsz2 & Hfr2 & Hrun)]].
  - exists 0, m, t. split_and!; try done. by left.
  - exists 1, m1, (Br n BLACK Leaf d Leaf). split_and!; try done. right. by split_and!.
  - pose proof (path_sorted t d fs n RED Hsort Hp) as Hsort2.
    rewrite <- Hplug in Hb, Hnrr, Hbal.
    destruct (red_black_plug fs Leaf Hb Hnrr Hbal) as (k & (Hk & _) & Hctx & _).
    cbn [black_height] in Hk. injection Hk as <-.
    destruct (fix_ins_red_black (length fs) fs (le_n _) 0%nat n Leaf d Leaf)
      as (T' & Hfix & HbT & HnT & HbalT & HinT); try done.
    destruct (fixTreeInsert_rep compFunc (gas m2) fs _
                n RED Leaf d Leaf T' Hrep2 Hsort2 Hfix) as (m3 & Hrun3 & Hrep3 & Hsz3 & Hfr3).
    { assert (length fs < count (plug fs (Br n RED Leaf d Leaf)))%nat
        by (pose proof (length_ctx_count fs (Br n RED Leaf d Leaf)); cbn [count] in *; lia).
      destruct Hrep2 as (Hs2 & _ & Hu2).
      pose proof (uniq_count _ _ _ Hs2 Hu2). unfold gas. lia. }
    rewrite Hrun.
    rewrite (bind_done (with_gas _) _ _ tt m3) by (by rewrite with_gas_eval).
    destruct m3 as [h3 [rt3 sz3] fr3]. cbn [tree size freed] in Hsz3, Hfr3. subst sz3 fr3.
    exec. eexists 1, _, T'. split; [reflexivity|]. split_and!.
    + destruct Hrep3 as (? & ? & ?). by split_and!.
    + apply red_black_parts. split_and!; try done. by rewrite HinT.
    + done.
    + right. split_and!; try done; [|cbn [tree size]; lia].
      rewrite HinT, <- Hplug, !inorder_plug. cbn [inorder app].
      by rewrite <- Permutation_middle.
Qed.

(** A run of insertions from a stored red-black tree. *)
Lemma insert_run xs : forall m0 t0,
  rep m0 t0 -> red_black compFunc t0 = true ->
  exists rs m t,
    run (map (fun x => insertToRBTree compFunc alloc TREE (Some x)) xs) m0 = Done rs m
    /\ rep m t /\ red_black compFunc t = true
    /\ inorder t ≡ₚ accepted xs rs ++ inorder t0
    /\ size (tree m) = size (tree m0) + Z.of_nat (length (accepted xs rs))
    /\ freed m = freed m0.
Proof.
  induction xs as [|x xs IH]; intros m0 t0 Hrep Hrb.
  - exists [], m0, t0. cbn. split_and!; try done. lia.
  - destruct (insertToRBTree_rep m0 t0 x Hrep Hrb)
      as (res & m1 & t1 & Hrun & Hrep1 & Hrb1 & Hfr1 & Hres).
    destruct (IH m1 t1 Hrep1 Hrb1) as (rs & m & t & Hruns & Hrepm & Hrbm & Hperm & Hsz & Hfr).
    exists (res :: rs), m, t. cbn [map run]. rewrite Hrun, Hruns.
    split_and!; try done; [| |congruence].
    + destruct Hres as [(-> & -> & -> & _)|(-> & _ & Hp & _)]; cbn [accepted Z.eqb app].
      * done.
      * rewrite Hperm, Hp. by rewrite <- Permutation_middle.
    + destruct Hres as [(-> & -> & -> & _)|(-> & _ & _ & Hs)]; cbn [accepted Z.eqb length].
      * done.
      * lia.
Qed.

(** When the allocator never fails, insertions of elements that differ
    from the stored ones and from each other all succeed. *)
Lemma insert_run_distinct xs : forall m0 t0 rs m,
  (forall h, alloc h <> None) ->
  rep m0 t0 -> red_black compFunc t0 = true ->
  ForallOrdPairs (fun x y => compFunc x y <> 0) xs ->
  (forall x y, x ∈ inorder t0 -> y ∈ xs -> compFunc x y <> 0) ->
  run (map (fun x => insertToRBTree compFunc alloc TREE (Some x)) xs) m0 = Done rs m ->
  rs = repeat 1 (length xs).
Proof.
  induction xs as [|d xs IH]; intros m0 t0 rs m Hal Hrep Hrb Hpairs Hold Hrun.
  - cbn in Hrun. by injection Hrun as <- _.
  - inversion Hpairs as [|? ? Hd Hxs]; subst. rewrite Forall_forall in Hd.
    pose proof Hrb as (_ & _ & _ & Hsort)%red_black_parts.
    destruct (insertToRBTree_rep m0 t0 d Hrep Hrb)
      as (res & m1 & t1 & Hins & Hrep1 & Hrb1 & _ & Hres).
    cbn [map run] in Hrun. rewrite Hins in Hrun.
    destruct (run _ m1) as [rs' m'| |] eqn:Hrest; [|discriminate ..].
    injection Hrun as <- <-.
    destruct Hres as [(_ & _ & _ & [Hc|Hnone])|(-> & _ & Hperm & _)].
    + apply (contains_tree_spec t0 d Hsort) in Hc as (x & Hx & Hxd).
      exfalso. apply (Hold x d Hx); [set_solver | done].
    + by destruct (Hal (nodes m0)).
    + cbn [length repeat]. f_equal.
      apply (IH m1 t1 rs' m' Hal Hrep1 Hrb1 Hxs); [|done].
      intros x y Hx Hy. rewrite Hperm in Hx. apply elem_of_cons in Hx as [->|Hx].
      * by apply Hd.
      * apply Hold; [done | set_solver].
Qed.

End Insert.

Section Fresh.

Context {A : Type}.

Lemma newRBTree_rep : rep (@newRBTree A) Leaf.
Proof. by split_and!. Qed.

Lemma bump_fresh : fresh_alloc (@bump A).
Proof.
  intros h a [= <-]. apply not_elem_of_dom. apply is_fresh.
Qed.

End Fresh.

#[export] Instance intCompare_comparator : Comparator intCompare.
Proof.
  split; unfold intCompare.
  - intros a. by rewrite Z.compare_refl.
  - intros a b. rewrite (Z.compare_antisym a b).
    destruct (a ?= b); cbn; lia.
  - intros a b c. destruct (a ?= b) eqn:Hab; try lia.
    destruct (b ?= c) eqn:Hbc; try lia. intros _ _.
    rewrite Z.compare_lt_iff in Hab, Hbc.
    assert (a < c) as ->%Z.compare_lt_iff by lia. lia.
Qed.

(** ** What the functions leave alone *)

Section Respects.

Context {A : Type}.
Implicit Types (m : mem A) (R : mem A -> mem A -> Prop).

#[export] Instance stable_preorder : PreOrder (@stable A).
Proof.
  split.
  - intros m. split_and!; [done|done|]. intros a n Hn. by exists n.
  - intros m1 m2 m3 (Hs1 & Hf1 & Hd1) (Hs2 & Hf2 & Hd2). split_and!; [congruence|congruence|].
    intros a n3 Hn3. destruct (Hd2 a n3 Hn3) as (n2 & Hn2 & He2).
    destruct (Hd1 a n2 Hn2) as (n1 & Hn1 & He1). exists n1. split; [done | congruence].
Qed.

#[export] Instance quiet_preorder : PreOrder (@quiet A).
Proof. split; unfold quiet; [done | intros ? ? ?; congruence]. Qed.

Lemma stable_quiet m m' : stable m m' -> quiet m m'.
Proof. by intros (_ & ? & _). Qed.

Lemma respects_weaken {X} R R' (c : M A X) :
  (forall m m', R m m' -> R' m m') -> respects R c -> respects R' c.
Proof. intros HR Hc m x m' H. eapply HR, Hc, H. Qed.

Section Generic.

Context (R : mem A -> mem A -> Prop) `{!PreOrder R}.

Lemma respects_ret {X} (x : X) : respects R (ret x).
Proof. intros m y m' [= _ <-]. reflexivity. Qed.

Lemma respects_bind {X Y} (c : M A X) (k : X -> M A Y) :
  respects R c -> (forall x, respects R (k x)) -> respects R (bind c k).
Proof.
  intros Hc Hk m y m' (x & m1 & H1 & H2)%bind_inv.
  transitivity m1; [eapply Hc, H1 | eapply Hk, H2].
Qed.

Lemma respects_out_of_fuel {X} : respects R (@out_of_fuel A X).
Proof. intros m x m'. unfold out_of_fuel. discriminate. Qed.

Lemma respects_deref p : respects R (deref p).
Proof.
  intros m x m'. unfold deref. destruct p as [a|]; [|discriminate].
  destruct (nodes m !! a); [|discriminate]. intros [= _ <-]. reflexivity.
Qed.

Lemma respects_fld {X} (f : Node A -> X) p : respects R (fld f p).
Proof. apply respects_bind; [apply respects_deref | intros; apply respects_ret]. Qed.

Lemma respects_get_root : respects R get_root.
Proof. intros m x m' [= _ <-]. reflexivity. Qed.

Lemma respects_with_gas {X} (f : nat -> M A X) :
  (forall g, respects R (f g)) -> respects R (with_gas f).
Proof. intros Hf m x m' H. eapply Hf, H. Qed.

End Generic.

Lemma stable_assign (upd : Node A -> Node A) p :
  (forall n, data (upd n) = data n) -> respects stable (assign upd p).
Proof.
  intros Hupd m x m'. unfold assign. destruct p as [a|]; [|discriminate].
  destruct (nodes m !! a) as [n|] eqn:Hn; [|discriminate]. intros [= _ <-].
  split_and!; [done|done|]. cbn [nodes]. intros b n' Hb.
  destruct (decide (b = a)) as [->|Hne].
  - rewrite lookup_insert_eq in Hb. injection Hb as <-. exists n. by rewrite Hupd.
  - rewrite lookup_insert_ne in Hb by done. by exists n'.
Qed.

Lemma stable_set_color p c : respects stable (@set_color A p c).
Proof. by apply stable_assign. Qed.
Lemma stable_set_left p v : respects stable (@set_left A p v).
Proof. by apply stable_assign. Qed.
Lemma stable_set_right p v : respects stable (@set_right A p v).
Proof. by apply stable_assign. Qed.
Lemma stable_set_parent p v : respects stable (@set_parent A p v).
Proof. by apply stable_assign. Qed.

Lemma stable_set_root v : respects stable (@set_root A v).
Proof. intros m x m' [= _ <-]. split_and!; [done|done|]. intros a n Hn. by exists n. Qed.

Lemma stable_free p : respects stable (@free A p).
Proof.
  intros m x m'. unfold free. destruct p as [a|]; [|intros [= _ <-]; reflexivity].
  destruct (nodes m !! a) as [n|] eqn:Hn; [|discriminate]. intros [= _ <-].
  split_and!; [done|done|]. cbn [nodes]. intros b n' Hb.
  apply lookup_delete_Some in Hb as (_ & Hb). by exists n'.
Qed.

Lemma quiet_add_size k : respects quiet (@add_size A k).
Proof. by intros m x m' [= _ <-]. Qed.

End Respects.

Create HintDb resp.
#[export] Hint Resolve stable_set_color stable_set_left stable_set_right stable_set_parent
  stable_set_root stable_free quiet_add_size : resp.

(** [resp]: a program respects a relation when its parts do. *)
Ltac resp1 :=
  lazymatch goal with
  | |- respects _ (bind _ _) => apply respects_bind; [apply _| |intros ?]
  | |- respects _ (ret _) => apply respects_ret; apply _
  | |- respects _ out_of_fuel => apply respects_out_of_fuel
  | |- respects _ (fld _ _) => apply respects_fld; apply _
  | |- respects _ (deref _) => apply respects_deref; apply _
  | |- respects _ get_root => apply respects_get_root; apply _
  | |- respects _ (with_gas _) => apply respects_with_gas; intros ?
  | |- respects _ (match ?x with _ => _ end) => destruct x
  | |- respects quiet _ =>
    first [ solve [auto with resp typeclass_instances]
          | apply (respects_weaken stable quiet); [apply stable_quiet | solve [auto with resp typeclass_instances]] ]
  | |- respects _ _ => solve [auto with resp typeclass_instances]
  end.
Ltac resp := repeat resp1.

Section RespectsTree.

Context {A : Type} (compFunc : A -> A -> Z).
Implicit Types (p : option positive) (R : mem A -> mem A -> Prop).

Section Reads.

Context (R : mem A -> mem A -> Prop) `{!PreOrder R}.

Lemma respects_null_or_black p : respects R (@null_or_black A p).
Proof. unfold null_or_black. resp. Qed.
Lemma respects_nonnull_red p : respects R (@nonnull_red A p).
Proof. unfold nonnull_red. resp. Qed.
Lemma respects_nonnull_black p : respects R (@nonnull_black A p).
Proof. unfold nonnull_black. resp. Qed.
Lemma respects_nonnull_same d p : respects R (nonnull_same compFunc d p).
Proof. unfold nonnull_same. resp. Qed.
Lemma respects_getParent p : respects R (@getParent A p).
Proof. unfold getParent. resp. Qed.

#[local] Hint Resolve respects_null_or_black respects_nonnull_red respects_nonnull_black
  respects_nonnull_same respects_getParent : resp.

Lemma respects_getUncle p : respects R (getUncle compFunc p).
Proof. unfold getUncle. resp. Qed.

Lemma respects_contains fuel : forall p d, respects R (contains compFunc fuel p d).
Proof. induction fuel as [|fuel IH]; intros p d; cbn [contains]; resp. Qed.

Lemma respects_RBTreeContains t d : respects R (RBTreeContains compFunc t d).
Proof. pose proof respects_contains. unfold RBTreeContains. resp. Qed.

Lemma respects_minValue fuel : forall p, respects R (@minValue A fuel p).
Proof. induction fuel as [|fuel IH]; intros p; cbn [minValue]; resp. Qed.

Lemma respects_inOrderSuccessor p : respects R (@inOrderSuccessor A p).
Proof. pose proof respects_minValue. unfold inOrderSuccessor. resp. Qed.

Lemma respects_nodeFinder fuel : forall p d, respects R (nodeFinder compFunc fuel p d).
Proof. induction fuel as [|fuel IH]; intros p d; cbn [nodeFinder]; resp. Qed.

End Reads.

#[local] Hint Resolve respects_null_or_black respects_nonnull_red respects_nonnull_black
  respects_nonnull_same respects_getParent respects_getUncle : resp.

(** The rotations and the fixups rewrite links and colours only. *)
Lemma stable_rotateLeft2 p : respects stable (rotateLeft2 compFunc p).
Proof. unfold rotateLeft2. resp. Qed.
Lemma stable_rotateRight2 p : respects stable (rotateRight2 compFunc p).
Proof. unfold rotateRight2. resp. Qed.

#[local] Hint Resolve stable_rotateLeft2 stable_rotateRight2 : resp.

Lemma stable_rotateLeft p : respects stable (rotateLeft compFunc p).
Proof. unfold rotateLeft. resp. Qed.
Lemma stable_rotateRight p : respects stable (rotateRight compFunc p).
Proof. unfold rotateRight. resp. Qed.

#[local] Hint Resolve stable_rotateLeft stable_rotateRight : resp.

Lemma stable_treeRBinsert fuel : forall p q, respects stable (treeRBinsert compFunc fuel p q).
Proof. induction fuel as [|fuel IH]; intros p q; cbn [treeRBinsert]; resp. Qed.

Lemma stable_fixTreeInsert fuel : forall p, respects stable (fixTreeInsert compFunc fuel p).
Proof. induction fuel as [|fuel IH]; intros p; cbn [fixTreeInsert]; resp. Qed.

Lemma stable_rotateLeftDelete p : respects stable (rotateLeftDelete compFunc p).
Proof. unfold rotateLeftDelete. resp. Qed.
Lemma stable_rotateRightDelete p : respects stable (rotateRightDelete compFunc p).
Proof. unfold rotateRightDelete. resp. Qed.

#[local] Hint Resolve stable_rotateLeftDelete stable_rotateRightDelete : resp.

Lemma stable_deleteE p s : respects stable (deleteE compFunc p s).
Proof. unfold deleteE. resp. Qed.

#[local] Hint Resolve stable_deleteE : resp.

Lemma stable_deleteD p s : respects stable (deleteD compFunc p s).
Proof. unfold deleteD. resp. Qed.

#[local] Hint Resolve stable_deleteD : resp.

Lemma stable_deleteB_rec d3 p s :
  (forall q t, respects stable (d3 q t)) -> respects stable (deleteB_rec compFunc d3 p s).
Proof. intros Hd3. unfold deleteB_rec. resp. Qed.

Lemma stable_deleteC_rec d3 p s :
  (forall q t, respects stable (d3 q t)) -> respects stable (deleteC_rec compFunc d3 p s).
Proof. intros Hd3. unfold deleteC_rec. resp. Qed.

Lemma stable_delete3_sibling dB dC p s sib nf :
  (forall q t, respects stable (dB q t)) -> (forall q t, respects stable (dC q t)) ->
  respects stable (delete3_sibling compFunc dB dC p s sib nf).
Proof. intros HdB HdC. unfold delete3_sibling. resp. Qed.

Lemma stable_delete3 fuel : forall p s, respects stable (delete3 compFunc fuel p s).
Proof.
  induction fuel as [|fuel IH]; intros p s; cbn [delete3]; [resp|].
  pose proof (fun q t => stable_deleteB_rec _ q t IH) as HdB.
  pose proof (fun q t => stable_deleteC_rec _ q t IH) as HdC.
  pose proof (fun q t sib nf => stable_delete3_sibling _ _ q t sib nf HdB HdC) as Hsib.
  resp.
Qed.

End RespectsTree.

(** ** Deletion: what it returns, the size field and the destructor *)

Section Frees.

Context {A : Type}.
Implicit Types (m : mem A) (a : positive) (d : A).

Lemma stable_holds a d m m' : stable m m' -> holds a d m -> holds a d m'.
Proof.
  intros (_ & _ & Hd) Hh n' Hn'. destruct (Hd a n' Hn') as (n & Hn & <-). by apply Hh.
Qed.

Lemma stable_released d m1 m2 m3 : stable m1 m2 -> released d m2 m3 -> released d m1 m3.
Proof. intros (Hs & Hf & _) (Hs' & Hf'). split; congruence. Qed.

Lemma released_stable d m1 m2 m3 : released d m1 m2 -> stable m2 m3 -> released d m1 m3.
Proof. intros (Hs & Hf) (Hs' & Hf' & _). split; congruence. Qed.

Lemma frees_stable_bind {X Y} a d (c : M A X) (k : X -> M A Y) :
  respects stable c -> (forall x, frees a d (k x)) -> frees a d (bind c k).
Proof.
  intros Hc Hk m y m' Hh (x & m1 & H1 & H2)%bind_inv.
  pose proof (Hc _ _ _ H1) as Hst.
  eapply stable_released; [exact Hst|]. eapply Hk; [|exact H2]. by eapply stable_holds.
Qed.

Lemma frees_bind_stable {X Y} a d (c : M A X) (k : X -> M A Y) :
  frees a d c -> (forall x, respects stable (k x)) -> frees a d (bind c k).
Proof.
  intros Hc Hk m y m' Hh (x & m1 & H1 & H2)%bind_inv.
  eapply released_stable; [eapply Hc; [exact Hh | exact H1] | eapply Hk, H2].
Qed.

Lemma frees_read {Y} a d (k : A -> M A Y) :
  frees a d (k d) -> frees a d (bind (fld data (Some a)) k).
Proof.
  intros Hk m y m' Hh (x & m1 & H1 & H2)%bind_inv.
  unfold fld, bind, deref, ret in H1. destruct (nodes m !! a) as [n|] eqn:Hn; [|discriminate].
  injection H1 as <- <-. rewrite (Hh n Hn) in H2. by eapply Hk.
Qed.

Lemma frees_call {Y} a d (k : unit -> M A Y) :
  (forall x, respects stable (k x)) -> frees a d (bind (call_freeFunc d) k).
Proof.
  intros Hk m y m' _ (x & m1 & H1 & H2)%bind_inv.
  eapply released_stable; [|eapply Hk, H2]. injection H1 as _ <-. by split.
Qed.

End Frees.

(** [frees_tac]: the destructor call is found behind link updates. *)
Ltac frees1 :=
  lazymatch goal with
  | |- frees ?a _ (bind (fld data (Some ?a)) _) => apply frees_read
  | |- frees _ ?d (bind (call_freeFunc ?d) _) => apply frees_call; intros ?; solve [resp]
  | |- frees _ _ (bind _ _) =>
    first [ apply frees_stable_bind; [solve [resp] | intros ?]
          | apply frees_bind_stable; [solve [auto with resp] | intros ?; solve [resp]] ]
  | |- frees _ _ (match ?x with _ => _ end) => destruct x
  | |- frees _ _ _ => solve [auto with resp]
  end.
Ltac frees_tac := repeat frees1.

Section Delete.

Context {A : Type} (compFunc : A -> A -> Z).
Implicit Types (m : mem A) (a : positive) (d : A).

#[local] Hint Resolve respects_null_or_black respects_nonnull_red respects_nonnull_black
  respects_nonnull_same respects_getParent : resp.

Lemma frees_delete1 a d : frees a d (delete1 compFunc (Some a)).
Proof. unfold delete1. frees_tac. Qed.

Lemma frees_delete2 a d s : frees a d (delete2 compFunc (Some a) s).
Proof. unfold delete2. frees_tac. Qed.

Lemma frees_removeM a d : frees a d (removeM compFunc (Some a)).
Proof. unfold removeM. frees_tac. Qed.

#[local] Hint Resolve frees_delete1 frees_delete2 frees_removeM : resp.

Lemma frees_fixTreeDelete a d : frees a d (fixTreeDelete compFunc (Some a)).
Proof.
  pose proof (stable_delete3 compFunc) as Hd3.
  unfold fixTreeDelete. frees_tac.
Qed.

Lemma nodeFinder_found fuel : forall p d m q m',
  nodeFinder compFunc fuel p d m = Done q m' ->
  m' = m /\ exists a n, q = Some a /\ nodes m !! a = Some n /\ compFunc (data n) d = 0.
Proof.
  induction fuel as [|fuel IH]; intros p d m q m' H; [discriminate|].
  cbn [nodeFinder] in H. apply bind_inv in H as (nd & m1 & H1 & H).
  unfold fld, bind, deref, ret in H1. destruct p as [a|]; [|discriminate].
  destruct (nodes m !! a) as [n|] eqn:Hn; [|discriminate]. injection H1 as <- <-.
  destruct (compFunc (data n) d =? 0) eqn:He.
  - injection H as <- <-. split; [done|]. exists a, n. split_and!; [done|done|lia].
  - destruct (compFunc (data n) d <? 0);
      apply bind_inv in H as (r & m2 & H2 & H);
      apply (respects_fld eq) in H2; subst m2; by eapply IH.
Qed.

Lemma treeReplaceNode_holds a s m n m' :
  nodes m !! a = Some n ->
  treeReplaceNode (Some a) (Some s) m = Done tt m' ->
  holds s (data n) m' /\ size (tree m') = size (tree m) /\ freed m' = freed m.
Proof.
  intros Hn H. unfold treeReplaceNode in H.
  apply bind_inv in H as (temp & m1 & H1 & H).
  unfold fld, bind, deref, ret in H1. rewrite Hn in H1. injection H1 as <- <-.
  apply bind_inv in H as (cd & m1 & H1 & H).
  apply (respects_fld eq) in H1. subst m1.
  apply bind_inv in H as ([] & m1 & H1 & H).
  unfold set_data, assign in H1, H. rewrite Hn in H1. injection H1 as <-.
  cbn [nodes tree freed] in H.
  destruct (<[a:=with_data cd n]> (nodes m) !! s) as [ns|]; [|discriminate].
  injection H as <-. cbn [nodes tree freed]. split_and!; [|done|done].
  intros n' Hn'. cbn [nodes] in Hn'. rewrite lookup_insert_eq in Hn'. by injection Hn' as <-.
Qed.

(** What [deleteFromRBTree] can return, and what it has done then. *)
Lemma deleteFromRBTree_result t od m r m' :
  deleteFromRBTree compFunc t od m = Done r m' ->
  (r = 0 /\ m' = m)
  \/ (r = 1 /\ size (tree m') = size (tree m) - 1
      /\ exists d x, od = Some d /\ compFunc x d = 0 /\ freed m' = freed m ++ [x]).
Proof.
  intros H. unfold deleteFromRBTree in H.
  destruct t; [injection H as <- <-; by left|].
  destruct od as [d|]; [|injection H as <- <-; by left].
  apply bind_inv in H as (c & m1 & H1 & H).
  apply (respects_RBTreeContains compFunc eq) in H1. subst m1.
  destruct (c =? 0); [injection H as <- <-; by left|].
  apply bind_inv in H as (rt & m1 & H1 & H). injection H1 as <- <-.
  apply bind_inv in H as (q & m1 & H1 & H).
  rewrite with_gas_eval in H1.
  apply nodeFinder_found in H1 as (-> & a & n & -> & Hn & Hcmp).
  apply bind_inv in H as (suc & m1 & H1 & H).
  apply (respects_inOrderSuccessor eq) in H1. subst m1.
  apply bind_inv in H as ([] & m2 & H2 & H).
  apply bind_inv in H as ([] & m3 & H3 & H). injection H3 as <-. injection H as <- <-.
  right. split; [done|].
  assert (released (data n) m m2) as (Hsz & Hfr).
  { destruct suc as [s|].
    - apply bind_inv in H2 as ([] & m1 & H1 & H2).
      destruct (treeReplaceNode_holds _ _ _ _ _ Hn H1) as (Hh & Hsz1 & Hfr1).
      destruct (frees_fixTreeDelete s (data n) _ _ _ Hh H2) as (Hsz2 & Hfr2).
      split; congruence.
    - eapply frees_fixTreeDelete; [|exact H2]. intros n' Hn'. congruence. }
  cbn [tree size freed]. split; [lia|]. by exists d, (data n).
Qed.

End Delete.

(** ** Teardown, traversal of the empty tree, the last element *)

Section Teardown.

Context {A : Type}.
Implicit Types (t l r : btree A) (h : gmap positive (Node A)).

Lemma gas_succ (m : mem A) : exists g, gas m = S g.
Proof. unfold gas. exists (2 * base.size (nodes m) + 1)%nat. lia. Qed.

Lemma bind_with_gas {X Y} (f : nat -> M A X) (k : X -> M A Y) m :
  bind (with_gas f) k m = bind (f (gas m)) k m.
Proof. reflexivity. Qed.

(** [freeHelper] on a stored subtree: the destructor sees its elements
    once each, from the last to the first, and its nodes leave the
    store. *)
Lemma freeHelper_spec fuel : forall t h tr fr par,
  shape h par t -> uniq t -> (count t < fuel)%nat ->
  exists h',
    freeHelper fuel (top t) (mkMem h tr fr) = Done tt (mkMem h' tr (fr ++ rev (inorder t)))
    /\ (forall b, b ∈ addrs t -> h' !! b = None)
    /\ (forall b, b ∉ addrs t -> h' !! b = h !! b).
Proof.
  induction fuel as [|fuel IH]; intros t h tr fr par Hs Hu Hc; [lia|].
  destruct t as [|a c l x r]; cbn [freeHelper top].
  - exists h. cbn [inorder rev]. rewrite app_nil_r. split_and!; [done | set_solver | done].
  - cbn [shape uniq count addrs inorder] in *.
    destruct Hs as (Ha & Hl & Hr). destruct Hu as (Hal & Har & Hlr & Hul & Hur).
    destruct (IH r h tr fr (Some a) Hr Hur) as (h1 & Hrun1 & Hin1 & Hout1); [lia|].
    assert (h1 !! a = Some (mkNode x c (top l) (top r) par)) as Ha1 by (by rewrite Hout1).
    assert (shape h1 (Some a) l) as Hl1.
    { eapply shape_agree; [|exact Hl]. intros b Hb. apply Hout1. set_solver. }
    destruct (IH l h1 tr (fr ++ rev (inorder r) ++ [x]) (Some a) Hl1 Hul)
      as (h2 & Hrun2 & Hin2 & Hout2); [lia|].
    assert (h2 !! a = Some (mkNode x c (top l) (top r) par)) as Ha2 by (by rewrite Hout2).
    exists (delete a h2). split_and!.
    + exec. rewrite (bind_done _ _ _ _ _ Hrun1). exec. rewrite <- app_assoc.
      rewrite (bind_done _ _ _ _ _ Hrun2). exec.
      rewrite rev_app_distr. cbn [rev]. by rewrite <- !app_assoc.
    + intros b Hb. destruct (decide (b = a)) as [->|Hne]; [apply lookup_delete_eq|].
      rewrite lookup_delete_ne by done.
      destruct (decide (b ∈ addrs l)) as [Hbl|Hbl]; [by apply Hin2|].
      rewrite Hout2 by done. apply Hin1. set_solver.
    + intros b Hb. rewrite lookup_delete_ne by set_solver.
      rewrite Hout2 by set_solver. apply Hout1. set_solver.
Qed.

Lemma freeRBTree_spec (m : mem A) t :
  rep m t ->
  exists m', freeRBTree m = Done tt m'
    /\ freed m' = freed m ++ rev (inorder t)
    /\ (forall b, b ∈ addrs t -> nodes m' !! b = None)
    /\ (forall b, b ∉ addrs t -> nodes m' !! b = nodes m !! b).
Proof.
  intros (Hs & Hroot & Hu). destruct m as [h [rt sz] fr]. cbn [nodes tree root freed] in *.
  subst rt. unfold freeRBTree. exec. rewrite with_gas_eval.
  destruct (freeHelper_spec (gas (mkMem h (mkRBTree (top t) sz) fr)) t h
              (mkRBTree (top t) sz) fr None Hs Hu) as (h' & Hrun & Hin & Hout).
  { pose proof (uniq_count _ _ _ Hs Hu). unfold gas. cbn [nodes]. lia. }
  eexists. split; [exact Hrun|]. by split_and!.
Qed.

(** [forEachRBTree] on a tree without a root. *)
Lemma forEachRBTree_empty {C} (func : A -> C -> Z * C) (args : C) (m : mem A) :
  root (tree m) = None ->
  forEachRBTree TREE func args m = Done (1, args, []) m.
Proof.
  intros Hroot. unfold forEachRBTree.
  rewrite (bind_done get_root _ m None m) by (by rewrite <- Hroot).
  unfold with_gas. destruct (gas_succ m) as (g & ->). reflexivity.
Qed.

End Teardown.

Section LastElement.

Context {A : Type} (compFunc : A -> A -> Z).
Implicit Types (t l r : btree A) (h : gmap positive (Node A)).

Lemma RBTreeContains_empty (m : mem A) e :
  root (tree m) = None -> RBTreeContains compFunc TREE e m = Done 0 m.
Proof.
  intros Hroot. unfold RBTreeContains.
  rewrite (bind_done get_root _ m None m) by (by rewrite <- Hroot).
  unfold with_gas. destruct (gas_succ m) as (g & ->). reflexivity.
Qed.

(** [RBTreeContains] on a stored tree is the descent [contains_tree]. *)
Lemma RBTreeContains_eval (m : mem A) t d :
  rep m t -> RBTreeContains compFunc TREE d m = Done (contains_tree compFunc t d) m.
Proof.
  intros (Hs & Hroot & Hu). destruct m as [h [rt sz] fr]. cbn [nodes tree root] in *.
  subst rt. unfold RBTreeContains. exec. unfold with_gas.
  apply (contains_eval compFunc h _ fr None t d); [done|].
  pose proof (uniq_count _ _ _ Hs Hu). unfold gas. cbn [nodes]. lia.
Qed.

(** Deleting an element that the descent does not find. *)
Lemma deleteFromRBTree_absent (m : mem A) t d :
  rep m t -> contains_tree compFunc t d = 0 ->
  deleteFromRBTree compFunc TREE (Some d) m = Done 0 m.
Proof.
  intros Hrep Hc. unfold deleteFromRBTree.
  rewrite (bind_done _ _ _ _ _ (RBTreeContains_eval m t d Hrep)). by rewrite Hc.
Qed.

(** Deleting the only element. *)
Lemma deleteFromRBTree_last (m : mem A) a x d :
  rep m (Br a BLACK Leaf x Leaf) -> compFunc x d = 0 ->
  deleteFromRBTree compFunc TREE (Some d) m
  = Done 1 (mkMem (delete a (nodes m)) (mkRBTree None (size (tree m) - 1)) (freed m ++ [x])).
Proof.
  intros (Hs & Hroot & _) Hcmp. destruct m as [h [rt sz] fr].
  cbn [nodes tree root freed size shape top] in *. subst rt. destruct Hs as (Ha & _ & _).
  unfold deleteFromRBTree, RBTreeContains. exec.
  rewrite bind_with_gas. destruct (gas_succ (mkMem h (mkRBTree (Some a) sz) fr)) as (g & ->).
  cbn [contains]. exec. rewrite Hcmp. change (0 =? 0) with true. cbv iota. exec.
  change (1 =? 0) with false. cbv iota. exec.
  rewrite bind_with_gas. destruct (gas_succ (mkMem h (mkRBTree (Some a) sz) fr)) as (g' & ->).
  cbn [nodeFinder]. exec. rewrite Hcmp. change (0 =? 0) with true. cbv iota. exec.
  unfold inOrderSuccessor. exec. unfold fixTreeDelete. exec.
  unfold removeM. exec. reflexivity.
Qed.

End LastElement.

Section InsertQuiet.

Context {A : Type} (compFunc : A -> A -> Z).
Variable alloc : gmap positive (Node A) -> option positive.

Lemma quiet_new_node d : respects quiet (new_node alloc d).
Proof.
  intros m x m'. unfold new_node. by destruct (alloc (nodes m)); intros [= _ <-].
Qed.

(** No path of [insertToRBTree] calls the destructor. *)
Lemma quiet_insertToRBTree t d : respects quiet (insertToRBTree compFunc alloc t d).
Proof.
  pose proof (respects_RBTreeContains compFunc quiet) as Hc.
  pose proof (stable_treeRBinsert compFunc) as Hi.
  pose proof (stable_fixTreeInsert compFunc) as Hf.
  pose proof quiet_new_node as Hn.
  unfold insertToRBTree. resp.
Qed.

End InsertQuiet.

(** ** The vector comparator *)

Section Doubles.

Lemma SFcompare_swap x y :
  SFcompare y x = option_map CompOpp (SFcompare x y).
Proof.
  destruct x as [sx|sx| |sx mx ex], y as [sy|sy| |sy my ey];
    cbv beta iota delta [SFcompare option_map];
    try reflexivity; try (by destruct sx); try (by destruct sy);
    try (by destruct sx, sy).
  change (Pos.compare_cont Eq mx my) with (mx ?= my)%positive.
  change (Pos.compare_cont Eq my mx) with (my ?= mx)%positive.
  destruct sx, sy; try reflexivity.
  - rewrite (Z.compare_antisym ey ex), (Pos.compare_antisym my mx).
    by destruct (ey ?= ex), (my ?= mx)%positive.
  - rewrite (Z.compare_antisym ey ex), (Pos.compare_antisym my mx).
    by destruct (ey ?= ex), (my ?= mx)%positive.
Qed.

Lemma SFcompare_some x y :
  SFcompare x x <> None -> SFcompare y y <> None -> SFcompare x y <> None.
Proof. by destruct x as [sx|sx| |sx mx ex], y as [sy|sy| |sy my ey]. Qed.

Lemma is_nan_compare x : is_nan x = false -> SFcompare (Prim2SF x) (Prim2SF x) <> None.
Proof.
  unfold is_nan. rewrite FloatAxioms.eqb_spec. unfold SFeqb. intros H Hn. by rewrite Hn in H.
Qed.

(** Two numbers are ordered one way, or the other, or are equal. *)
Lemma double_trichotomy x y :
  is_nan x = false -> is_nan y = false ->
  (x =? y)%float = negb (x <? y)%float && negb (y <? x)%float.
Proof.
  intros Hx%is_nan_compare Hy%is_nan_compare.
  pose proof (SFcompare_some _ _ Hx Hy) as Hxy.
  rewrite FloatAxioms.eqb_spec, !FloatAxioms.ltb_spec. unfold SFeqb, SFltb.
  rewrite (SFcompare_swap (Prim2SF x) (Prim2SF y)).
  by destruct (SFcompare (Prim2SF x) (Prim2SF y)) as [[]|].
Qed.

Lemma double_lt_ne x y : (x <? y)%float = true -> (x =? y)%float = false.
Proof.
  rewrite FloatAxioms.eqb_spec, FloatAxioms.ltb_spec. unfold SFeqb, SFltb.
  by destruct (SFcompare (Prim2SF x) (Prim2SF y)) as [[]|].
Qed.

Lemma double_gt_ne x y : (y <? x)%float = true -> (x =? y)%float = false.
Proof.
  rewrite FloatAxioms.eqb_spec, FloatAxioms.ltb_spec. unfold SFeqb, SFltb.
  rewrite (SFcompare_swap (Prim2SF x) (Prim2SF y)).
  by destruct (SFcompare (Prim2SF x) (Prim2SF y)) as [[]|].
Qed.

End Doubles.

Section VectorCompare.

Implicit Types (av bv : list float) (a b : Vector).

Lemma compare_from_cons todo : forall i x y av bv,
  compare_from todo (S i) (x :: av) (y :: bv) = compare_from todo i av bv.
Proof.
  induction todo as [|todo IH]; intros i x y av bv; cbn [compare_from]; [done|].
  change ((x :: av) !! S i) with (av !! i). change ((y :: bv) !! S i) with (bv !! i).
  destruct (av !! i) as [u|]; [|done]. destruct (bv !! i) as [v|]; [|done].
  by rewrite IH.
Qed.

(** What the loop does on two arrays without NaN: it ends when the
    components agree up to the shorter length, and returns at the first
    index where they differ. *)
Lemma compare_from_spec av : forall bv,
  forallb (fun x => negb (is_nan x)) av = true ->
  forallb (fun x => negb (is_nan x)) bv = true ->
  (compare_from (Nat.min (length av) (length bv)) 0 av bv = Some None
   /\ forall j x y, av !! j = Some x -> bv !! j = Some y -> (x =? y)%float = true)
  \/ exists i x y r,
       compare_from (Nat.min (length av) (length bv)) 0 av bv = Some (Some r)
       /\ av !! i = Some x /\ bv !! i = Some y /\ (x =? y)%float = false
       /\ (forall j x' y', (j < i)%nat -> av !! j = Some x' -> bv !! j = Some y' ->
                           (x' =? y')%float = true)
       /\ (((x <? y)%float = true /\ r = -1) \/ ((y <? x)%float = true /\ r = 1)).
Proof.
  induction av as [|x av IH]; intros bv Ha Hb.
  { left. split; [done|]. intros j u v Hu. done. }
  destruct bv as [|y bv].
  { left. split; [done|]. intros j u v _ Hv. done. }
  cbn [forallb] in Ha, Hb. apply andb_true_iff in Ha as (Hx & Ha), Hb as (Hy & Hb).
  apply negb_true_iff in Hx, Hy.
  pose proof (double_trichotomy x y Hx Hy) as Htri.
  cbn [length Nat.min compare_from]. change ((x :: av) !! 0%nat) with (Some x).
  change ((y :: bv) !! 0%nat) with (Some y). cbv iota.
  destruct (x <? y)%float eqn:Hlt.
  { right. exists 0%nat, x, y, (-1). split_and!; try done;
      first [by apply double_lt_ne | intros; lia | by left]. }
  destruct (y <? x)%float eqn:Hgt.
  { right. exists 0%nat, x, y, 1. split_and!; try done;
      first [by apply double_gt_ne | intros; lia | by right]. }
  cbn in Htri. rewrite compare_from_cons.
  destruct (IH bv Ha Hb) as [(Hrun & Hsame)|(i & u & v & r & Hrun & Hu & Hv & Hne & Hlow & Hr)].
  - left. split; [done|]. intros [|j] u v Hu Hv.
    + by injection Hu as <-; injection Hv as <-.
    + by apply (Hsame j).
  - right. exists (S i), u, v, r. split_and!; try done.
    intros [|j] u' v' Hj Hu' Hv'.
    + by injection Hu' as <-; injection Hv' as <-.
    + apply (Hlow j); [lia|done|done].
Qed.

Lemma min_nat (n k : nat) : Z.to_nat (min (Z.of_nat n) (Z.of_nat k)) = Nat.min n k.
Proof. unfold min. destruct (Z.gtb_spec (Z.of_nat n) (Z.of_nat k)); lia. Qed.

End VectorCompare.

(** ** The rotations rewrite links *)

Section Relinked.

Context {A : Type}.
Implicit Types (m : mem A) (b : bool).

#[export] Instance relinked_preorder b : PreOrder (@relinked A b).
Proof.
  split.
  - intros m. split_and!; [done|done|]. intros a. by destruct (nodes m !! a).
  - intros m1 m2 m3 (Hs1 & Hf1 & Hn1) (Hs2 & Hf2 & Hn2).
    split_and!; [congruence|congruence|]. intros a.
    specialize (Hn1 a). specialize (Hn2 a).
    destruct (nodes m1 !! a), (nodes m2 !! a), (nodes m3 !! a); try done.
    destruct Hn1 as (Hd1 & Hc1), Hn2 as (Hd2 & Hc2). split; [congruence|].
    intros Hb. rewrite Hc2, Hc1 by done. done.
Qed.

Lemma relinked_assign b (upd : Node A -> Node A) p :
  (forall n, data (upd n) = data n) ->
  (b = false -> forall n, color (upd n) = color n) ->
  respects (relinked b) (assign upd p).
Proof.
  intros Hdata Hcol m x m'. unfold assign. destruct p as [a|]; [|discriminate].
  destruct (nodes m !! a) as [n|] eqn:Hn; [|discriminate]. intros [= _ <-].
  split_and!; [done|done|]. cbn [nodes]. intros a'.
  destruct (decide (a' = a)) as [->|Hne].
  - rewrite Hn, lookup_insert_eq. split; [apply Hdata | intros Hb; by apply Hcol].
  - rewrite lookup_insert_ne by done. by destruct (nodes m !! a').
Qed.

Lemma relinked_set_left b p v : respects (relinked b) (@set_left A p v).
Proof. by apply relinked_assign. Qed.
Lemma relinked_set_right b p v : respects (relinked b) (@set_right A p v).
Proof. by apply relinked_assign. Qed.
Lemma relinked_set_parent b p v : respects (relinked b) (@set_parent A p v).
Proof. by apply relinked_assign. Qed.
Lemma relinked_set_color p c : respects (relinked true) (@set_color A p c).
Proof. by apply relinked_assign. Qed.

Lemma relinked_set_root b v : respects (relinked b) (@set_root A v).
Proof.
  intros m x m' [= _ <-]. split_and!; [done|done|]. cbn [nodes]. intros a.
  by destruct (nodes m !! a).
Qed.

End Relinked.

Section RelinkedRotations.

Context {A : Type} (compFunc : A -> A -> Z).

#[local] Hint Resolve relinked_set_left relinked_set_right relinked_set_parent
  relinked_set_color relinked_set_root respects_getParent respects_nonnull_same : resp.

(** The rotations of the deletion write links only. *)
Lemma relinked_rotateLeftDelete p :
  respects (relinked false) (rotateLeftDelete compFunc p).
Proof. unfold rotateLeftDelete. resp. Qed.

Lemma relinked_rotateRightDelete p :
  respects (relinked false) (rotateRightDelete compFunc p).
Proof. unfold rotateRightDelete. resp. Qed.

(** The rotations of the insertion write links and colours. *)
Lemma relinked_rotateLeft2 p : respects (relinked true) (rotateLeft2 compFunc p).
Proof. unfold rotateLeft2. resp. Qed.

Lemma relinked_rotateRight2 p : respects (relinked true) (rotateRight2 compFunc p).
Proof. unfold rotateRight2. resp. Qed.

End RelinkedRotations.

Section InRedBlack.

Context {A : Type}.
Implicit Types (l r u : btree A) (up : list (frame A)).

(** A node of a red-black tree that has a child has a BLACK node in its
    subtree. *)
Lemma rbt_with_child k a c l x r b cb bl xb br :
  l = Br b cb bl xb br \/ r = Br b cb bl xb br ->
  rbt k (Br a c l x r) -> exists k', k = S k'.
Proof.
  intros Hkid Hrbt. apply rbt_inv in Hrbt.
  destruct c; [|destruct Hrbt as (k' & -> & _); by eexists].
  destruct Hrbt as (Hl & Hr & Hcl & Hcr).
  destruct Hkid as [-> | ->]; cbn in Hcl, Hcr; subst cb.
  - apply rbt_inv in Hl as (k' & -> & _). by eexists.
  - apply rbt_inv in Hr as (k' & -> & _). by eexists.
Qed.

(** In a red-black tree the parent of a node that has a child has a
    left child. *)
Lemma red_black_left_present d up g cg u dg p cp lp dp rp :
  let T := plug (F d g cg dg u :: up) (Br p cp lp dp rp) in
  root_black T = true -> no_red_red T = true -> balanced T = true ->
  left_present up = true.
Proof.
  intros T Hrb Hnrr Hbal. unfold T in Hrb, Hnrr, Hbal. cbn [plug] in Hrb, Hnrr, Hbal.
  destruct (red_black_plug up _ Hrb Hnrr Hbal) as (k & Hk & Hctx & _).
  assert (exists k', k = S k') as (k' & ->); [|by eapply ctx_rb_left_present].
  destruct d; unfold plug1 in Hk; cbn [fdir faddr fcolor fdata fsib] in Hk.
  - eapply rbt_with_child; [by left | exact Hk].
  - eapply rbt_with_child; [by right | exact Hk].
Qed.

End InRedBlack.

(** * The properties of the specification *)

(** C1.  Insertions into a new tree keep the red-black invariants: for
    every list of elements, under a comparator that is a strict total
    order and an allocator that returns unused addresses, every
    [insertToRBTree] returns, and the store then holds a tree whose root
    is BLACK, in which no RED node has a RED child, whose paths from the
    root to an absent child all have the same number of BLACK nodes, and
    whose in-order traversal is strictly ascending; its elements are
    those whose insertion reported success, and the size field counts
    them.  When the elements are pairwise different for the comparator
    and the allocator does not fail, every insertion reports success.
    As the list is arbitrary, this holds after each insertion. *)
Theorem insert_keeps_red_black {A : Type} (compFunc : A -> A -> Z)
    (alloc : gmap positive (Node A) -> option positive) :
  Comparator compFunc -> fresh_alloc alloc ->
  forall xs, exists rs m t,
    run (map (fun x => insertToRBTree compFunc alloc TREE (Some x)) xs) newRBTree
    = Done rs m
    /\ tree_of m = Some t
    /\ root_black t = true /\ no_red_red t = true /\ balanced t = true
    /\ ascending compFunc (inorder t) = true
    /\ inorder t ≡ₚ accepted xs rs
    /\ size (tree m) = Z.of_nat (length (inorder t))
    /\ ((forall h, alloc h <> None) ->
        ForallOrdPairs (fun x y => compFunc x y <> 0) xs ->
        rs = repeat 1 (length xs)).
Proof.
  intros Hcmp Hfresh xs.
  destruct (insert_run compFunc alloc Hfresh xs newRBTree Leaf newRBTree_rep eq_refl)
    as (rs & m & t & Hrun & Hrep & Hrb & Hperm & Hsz & _).
  exists rs, m, t. cbn [inorder] in Hperm. rewrite app_nil_r in Hperm.
  unfold red_black in Hrb. rewrite !andb_true_iff in Hrb.
  destruct Hrb as (((Hb & Hn) & Hbal) & Hasc).
  split_and!; try done; [by apply rep_tree_of | |].
  - rewrite Hsz, Hperm. cbn. lia.
  - intros Hal Hpairs.
    apply (insert_run_distinct compFunc alloc Hfresh xs newRBTree Leaf rs m Hal
             newRBTree_rep eq_refl Hpairs); [|done].
    intros x y Hx. by apply elem_of_nil in Hx.
Qed.

Lemma insert_keeps_red_black_witness :
  Comparator intCompare /\ fresh_alloc (@bump Z)
  /\ exists rs m t,
       run (map (fun x => insertToRBTree intCompare bump TREE (Some x)) [5; 3; 8; 1; 4; 3])
           newRBTree = Done rs m
       /\ tree_of m = Some t
       /\ root_black t = true /\ no_red_red t = true /\ balanced t = true
       /\ ascending intCompare (inorder t) = true
       /\ inorder t ≡ₚ accepted [5; 3; 8; 1; 4; 3] rs
       /\ size (tree m) = Z.of_nat (length (inorder t))
       /\ ((forall h, @bump Z h <> None) ->
           ForallOrdPairs (fun x y => intCompare x y <> 0) [5; 3; 8; 1; 4; 3] ->
           rs = repeat 1 (length [5; 3; 8; 1; 4; 3])).
Proof.
  split; [exact intCompare_comparator|]. split; [exact bump_fresh|].
  exact (insert_keeps_red_black intCompare bump intCompare_comparator bump_fresh
           [5; 3; 8; 1; 4; 3]).
Defined.

(** C2.  Deletion does not keep the invariants.  Inserting 1, 2, 3, 9,
    10, 7, 8, 4, 5, 6 and deleting 7 leaves paths with different numbers
    of BLACK nodes; deleting 8, 9 and 10 as well, each reported as a
    success, leaves the in-order sequence 1, 2, 3, 4 under a size field
    of 6: the elements 5 and 6 were never deleted and are gone. *)
Theorem delete_breaks_red_black :
  after (map insertZ [1; 2; 3; 9; 10; 7; 8; 4; 5; 6] ++ [deleteZ 7]) inspect
  = Some (repeat 1 11,
          (Some ([1; 2; 3; 4; 5; 6; 8; 9; 10], (true, true, false, true)), 9, [7]))
  /\ after (map insertZ [1; 2; 3; 9; 10; 7; 8; 4; 5; 6] ++ map deleteZ [7; 8; 9; 10])
           inspect
     = Some (repeat 1 14,
             (Some ([1; 2; 3; 4], (true, true, false, true)), 6, [7; 8; 9; 10])).
Proof. split; vm_compute; reflexivity. Qed.

(** C3.  [forEachRBTree] on the tree built from 1, 2, 3, 4, 5 with a
    visitor that fails on 3: the call reports failure, but the visitor
    has been called on 1, 2, 3 and then on 4, the parent of 3, because
    [forEachHelper] calls the visitor on a node before it looks at the
    result of the left subtree.  With a visitor that always succeeds the
    five elements are visited in ascending order and the call reports
    success. *)
Theorem forEach_visits_after_failure :
  after (map insertZ [1; 2; 3; 4; 5]) (forEachRBTree TREE stop_at_3 0)
  = Some (repeat 1 5, (0, 4, [1; 2; 3; 4]))
  /\ after (map insertZ [1; 2; 3; 4; 5]) (forEachRBTree TREE visit_all 0)
     = Some (repeat 1 5, (1, 5, [1; 2; 3; 4; 5])).
Proof. split; vm_compute; reflexivity. Qed.

(** C5.  After inserting 1, 2, 3, 9, 10, 7, 8, 4, 5, 6 and deleting 7,
    8, 9, 10, [RBTreeContains] does not find 5 or 6, which were inserted
    and never deleted; it finds 4 and no longer finds 7. *)
Theorem contains_misses_lost_elements :
  let ops := map insertZ [1; 2; 3; 9; 10; 7; 8; 4; 5; 6] ++ map deleteZ [7; 8; 9; 10] in
  after ops (RBTreeContains intCompare TREE 5) = Some (repeat 1 14, 0)
  /\ after ops (RBTreeContains intCompare TREE 6) = Some (repeat 1 14, 0)
  /\ after ops (RBTreeContains intCompare TREE 4) = Some (repeat 1 14, 1)
  /\ after ops (RBTreeContains intCompare TREE 7) = Some (repeat 1 14, 0).
Proof. split_and!; vm_compute; reflexivity. Qed.

(** C9.  [forEachRBTree] on a tree without a root returns 1, has not
    called the visitor, and leaves the context and the store as they
    were, whatever the visitor and the context are. *)
Theorem forEach_empty_tree {A C : Type} (func : A -> C -> Z * C) (args : C) (m : mem A) :
  root (tree m) = None ->
  forEachRBTree TREE func args m = Done (1, args, []) m.
Proof. apply forEachRBTree_empty. Qed.

Lemma forEach_empty_tree_witness :
  root (tree (@newRBTree Z)) = None
  /\ forEachRBTree TREE stop_at_3 7 (@newRBTree Z) = Done (1, 7, []) newRBTree.
Proof.
  split; [reflexivity|]. apply (forEach_empty_tree stop_at_3 7 newRBTree). reflexivity.
Defined.

(** C10.  Deleting the element of a red-black tree that holds exactly
    one: [deleteFromRBTree] returns 1, the root pointer is NULL, the
    size field is 0, the store holds the empty tree, the element went to
    the destructor, and [RBTreeContains] returns 0 for every element. *)
Theorem delete_only_element {A : Type} (compFunc : A -> A -> Z) (m : mem A) a c x d :
  tree_of m = Some (Br a c Leaf x Leaf) ->
  red_black compFunc (Br a c Leaf x Leaf) = true ->
  size (tree m) = 1 ->
  compFunc x d = 0 ->
  exists m',
    deleteFromRBTree compFunc TREE (Some d) m = Done 1 m'
    /\ root (tree m') = None /\ size (tree m') = 0
    /\ tree_of m' = Some Leaf
    /\ freed m' = freed m ++ [x]
    /\ forall e, RBTreeContains compFunc TREE e m' = Done 0 m'.
Proof.
  intros Ht Hrb Hsz Hcmp. apply rep_tree_of in Ht.
  assert (c = BLACK) as ->.
  { unfold red_black, root_black in Hrb. cbn in Hrb. by destruct c. }
  eexists. split; [by apply deleteFromRBTree_last|].
  cbn [tree root size freed]. split_and!; try done; try lia.
  intros e. by apply RBTreeContains_empty.
Qed.

Lemma delete_only_element_witness :
  exists m m',
    final (run [insertZ 7] newRBTree) = Some m
    /\ deleteFromRBTree intCompare TREE (Some 7) m = Done 1 m'
    /\ root (tree m') = None /\ size (tree m') = 0
    /\ tree_of m' = Some Leaf
    /\ freed m' = freed m ++ [7]
    /\ forall e, RBTreeContains intCompare TREE e m' = Done 0 m'.
Proof.
  eexists. 
  destruct (delete_only_element intCompare
              (mkMem {[1%positive := mkNode 7 BLACK None None None]}
                     (mkRBTree (Some 1%positive) 1) [])
              1%positive BLACK 7 7) as (m' & H); try reflexivity.
  exists m'. split; [reflexivity | exact H].
Defined.

(** C4.  Calls that fail change nothing, calls that succeed move the
    size field by one.  On a store [m] holding an ascending tree [t]:
    [insertToRBTree] and [deleteFromRBTree] with a NULL tree or a NULL
    element return 0 in the store [m]; so does an insertion of [d] when
    an element comparing equal to [d] is in the tree, and a deletion of
    [d] when there is none.  An insertion that returns gives 0 in the
    store [m] or 1 with the size field one higher; a deletion that
    returns gives 0 in the store [m] or 1 with the size field one
    lower. *)
Theorem failure_changes_nothing {A : Type} (compFunc : A -> A -> Z)
    (alloc : gmap positive (Node A) -> option positive) (m : mem A) (t : btree A) (d : A) :
  Comparator compFunc -> fresh_alloc alloc ->
  tree_of m = Some t -> ascending compFunc (inorder t) = true ->
  (forall od, insertToRBTree compFunc alloc TNULL od m = Done 0 m)
  /\ insertToRBTree compFunc alloc TREE None m = Done 0 m
  /\ (forall od, deleteFromRBTree compFunc TNULL od m = Done 0 m)
  /\ deleteFromRBTree compFunc TREE None m = Done 0 m
  /\ ((exists x, x ∈ inorder t /\ compFunc x d = 0) ->
      insertToRBTree compFunc alloc TREE (Some d) m = Done 0 m)
  /\ ((forall x, x ∈ inorder t -> compFunc x d <> 0) ->
      deleteFromRBTree compFunc TREE (Some d) m = Done 0 m)
  /\ (forall r m',
        insertToRBTree compFunc alloc TREE (Some d) m = Done r m' ->
        (r = 0 /\ m' = m) \/ (r = 1 /\ size (tree m') = size (tree m) + 1))
  /\ (forall r m',
        deleteFromRBTree compFunc TREE (Some d) m = Done r m' ->
        (r = 0 /\ m' = m) \/ (r = 1 /\ size (tree m') = size (tree m) - 1)).
Proof.
  intros Hcmp Hfresh Ht%rep_tree_of Hsort%(ascending_sorted compFunc).
  pose proof (contains_tree_spec compFunc t d Hsort) as Hspec.
  pose proof (insertToRBTree_link compFunc alloc Hfresh m t d Ht) as Hlink.
  split_and!; try done.
  - intros Hdup%Hspec.
    destruct Hlink as [(Hrun & _)|[(Hc & _)|(Hc & _)]]; [done | congruence ..].
  - intros Habs. apply (deleteFromRBTree_absent compFunc m t d Ht).
    destruct (contains_tree_01 compFunc t d) as [Hc|Hc]; [done|].
    apply Hspec in Hc as (x & Hx & Hxd). by destruct (Habs x Hx).
  - intros r m' Hins.
    destruct Hlink as [(Hrun & _)|[(_ & _ & n & m1 & Hrun & _ & Hsz & _)
                                  |(_ & fs & n & m2 & _ & _ & _ & Hsz & _ & Hrun)]].
    + rewrite Hrun in Hins. injection Hins as <- <-. by left.
    + rewrite Hrun in Hins. injection Hins as <- <-. by right.
    + rewrite Hrun in Hins. apply bind_inv in Hins as ([] & m3 & Hfix & Hins).
      apply (stable_fixTreeInsert compFunc) in Hfix as (Hsz3 & _).
      injection Hins as <- <-. right. split; [done|]. cbn [tree size]. lia.
  - intros r0 m0 Hdel. apply deleteFromRBTree_result in Hdel.
    destruct Hdel as [?|(-> & Hsz & _)]; [by left | by right].
Qed.

Lemma failure_changes_nothing_witness :
  exists m t,
    final (run (map insertZ [2; 1; 3]) newRBTree) = Some m
    /\ tree_of m = Some t /\ ascending intCompare (inorder t) = true
    /\ insertToRBTree intCompare bump TREE (Some 3) m = Done 0 m
    /\ deleteFromRBTree intCompare TREE (Some 5) m = Done 0 m
    /\ (forall r m',
          insertToRBTree intCompare bump TREE (Some 5) m = Done r m' ->
          (r = 0 /\ m' = m) \/ (r = 1 /\ size (tree m') = size (tree m) + 1))
    /\ (forall r m',
          deleteFromRBTree intCompare TREE (Some 3) m = Done r m' ->
          (r = 0 /\ m' = m) \/ (r = 1 /\ size (tree m') = size (tree m) - 1)).
Proof.
  destruct (run (map insertZ [2; 1; 3]) newRBTree) as [rs m| |] eqn:Hrun;
    [|vm_compute in Hrun; discriminate Hrun ..].
  vm_compute in Hrun. injection Hrun as _ Hm.
  exists m, (Br 1 BLACK (Br 2 RED Leaf 1 Leaf) 2 (Br 3 RED Leaf 3 Leaf)).
  assert (tree_of m = Some (Br 1 BLACK (Br 2 RED Leaf 1 Leaf) 2 (Br 3 RED Leaf 3 Leaf)))
    as Ht by (rewrite <- Hm; vm_compute; reflexivity).
  destruct (failure_changes_nothing intCompare bump m _ 3
              intCompare_comparator bump_fresh Ht eq_refl)
    as (_ & _ & _ & _ & Hdup & _).
  destruct (failure_changes_nothing intCompare bump m _ 5
              intCompare_comparator bump_fresh Ht eq_refl)
    as (_ & _ & _ & _ & _ & Habs & Hins & _).
  destruct (failure_changes_nothing intCompare bump m _ 3
              intCompare_comparator bump_fresh Ht eq_refl)
    as (_ & _ & _ & _ & _ & _ & _ & Hdel).
  split_and!; [reflexivity | exact Ht | reflexivity | | | exact Hins | exact Hdel].
  - apply Hdup. exists 3. split; [|reflexivity]. cbn. set_solver.
  - apply Habs. cbn. intros x Hx. 
    repeat (apply elem_of_cons in Hx as [->|Hx]; [discriminate|]).
    by apply elem_of_nil in Hx.
Defined.

(** C7.  The destructor misses elements.  After inserting 1, 2, 3, 9,
    10, 7, 8, 4, 5, 6 and deleting 7, 8, 9, 10, every call reporting
    success, the size field is 6 and [freeRBTree] hands 4, 3, 2, 1 to
    the destructor: 5 and 6, which were inserted and never deleted, are
    never handed to it, and their two nodes are still allocated after
    the teardown. *)
Theorem destructor_misses_lost_elements :
  let ops := map insertZ [1; 2; 3; 9; 10; 7; 8; 4; 5; 6] ++ map deleteZ [7; 8; 9; 10] in
  after ops inspect
  = Some (repeat 1 14,
          (Some ([1; 2; 3; 4], (true, true, false, true)), 6, [7; 8; 9; 10]))
  /\ after ops (freeRBTree ;;; i <- inspect ;; left <- allocated ;; ret (i.2, left))
     = Some (repeat 1 14,
             ([7; 8; 9; 10; 4; 3; 2; 1], [(9%positive, 5); (10%positive, 6)])).
Proof. split; vm_compute; reflexivity. Qed.

(** C6, as the code has it.  A rotation keeps the elements and rewrites
    links when it lifts a child over its parent.  Let the store hold a
    tree with ascending elements in which [g] has the child [p] on side
    [d].  [rotateRightDelete] called on [g] (for a left child [p])
    returns, and so do [rotateLeftDelete] called on [g] (for a right
    child [p]) and [rotateLeft2] and [rotateRight2] called on a child of
    [p], when the parent of [g], if there is one, has a left child, as
    it has in every red-black tree.  The store then holds the tree in
    which [p] is at the place of [g] and [g] is its child on the other
    side, with the same in-order sequence and number of nodes; the root
    pointer is [p] when [g] was the root and is unchanged otherwise.  No
    node was allocated or released and every node has the element it
    had; the colours are the same too after [rotateLeftDelete] and
    [rotateRightDelete], while [rotateLeft2] and [rotateRight2] make
    [p] BLACK when [g] was the root, and [rotateRight2] makes [g]
    RED. *)
Theorem rotation_keeps_elements {A : Type} (compFunc : A -> A -> Z) (m : mem A)
    (d : dir) up g cg u dg p cp lp dp rp :
  let T := plug (F d g cg dg u :: up) (Br p cp lp dp rp) in
  let r := match up with [] => Some p | _ :: _ => root (tree m) end in
  let cp' := match up with [] => BLACK | _ :: _ => cp end in
  let cg' := match d with Lft => RED | Rgt => cg end in
  Comparator compFunc ->
  tree_of m = Some T -> ascending compFunc (inorder T) = true ->
  (root_black T = true -> no_red_red T = true -> balanced T = true ->
   left_present up = true)
  /\ ((d = Rgt -> left_present up = true) ->
      rotates false m T (lifted d up g cg u dg p cp lp dp rp) r
        match d with
        | Rgt => rotateLeftDelete compFunc (Some g)
        | Lft => rotateRightDelete compFunc (Some g)
        end)
  /\ (left_present up = true ->
      forall n, top lp = Some n \/ top rp = Some n ->
        rotates true m T (lifted d up g cg' u dg p cp' lp dp rp) r
          match d with
          | Rgt => rotateLeft2 compFunc (Some n)
          | Lft => rotateRight2 compFunc (Some n)
          end).
Proof.
  intros T r cp' cg' Hcmp Ht%rep_tree_of Hasc%(ascending_sorted compFunc).
  pose proof (sorted_keys_inj compFunc _ Hasc) as Hinj.
  assert (forall T', top (plug up T') = match up with [] => top T' | _ => top T end)
    as Htop.
  { intros T'. destruct up as [|f up']; [done|].
    unfold T. cbn [plug]. apply top_plug_cons. }
  assert (forall b c T',
            (exists m', c m = Done tt m' /\ rep m' (plug up T')
                        /\ size (tree m') = size (tree m) /\ freed m' = freed m) ->
            respects (relinked b) c ->
            inorder T' = inorder (plug1 (F d g cg dg u) (Br p cp lp dp rp)) ->
            count T' = count (plug1 (F d g cg dg u) (Br p cp lp dp rp)) ->
            top T' = Some p ->
            rotates b m T (plug up T') r c) as Hfin.
  { intros b c T' (m' & Hrun & Hrep & Hsz & _) Hlinks Hin Hcount Hp.
    exists m'. split_and!; try done.
    - by apply rep_tree_of.
    - unfold T. cbn [plug]. by rewrite !inorder_plug, Hin.
    - unfold T. cbn [plug]. rewrite !count_inorder, !inorder_plug, Hin. done.
    - destruct Hrep as (_ & -> & _). destruct Ht as (_ & Hroot & _).
      rewrite (Htop T'). unfold r.
      destruct up; [done | by rewrite Hroot].
    - by eapply Hlinks. }
  split_and!.
  - apply red_black_left_present.
  - intros Hlp. unfold T in Ht, Hinj. cbn [plug plug1 fdir faddr fcolor fdata fsib] in Ht, Hinj.
    unfold lifted. destruct d.
    + eapply (Hfin false _ (Br p cp lp dp (Br g cg rp dg u))).
      * by apply (rotateRightDelete_rep compFunc).
      * apply relinked_rotateRightDelete.
      * cbn. by rewrite <- !app_assoc.
      * cbn. lia.
      * done.
    + eapply (Hfin false _ (Br p cp (Br g cg u dg lp) dp rp)).
      * apply (rotateLeftDelete_rep compFunc); [done | done | by apply Hlp].
      * apply relinked_rotateLeftDelete.
      * cbn. by rewrite <- !app_assoc.
      * cbn. lia.
      * done.
  - intros Hlp n Hn. unfold T in Ht, Hinj.
    cbn [plug plug1 fdir faddr fcolor fdata fsib] in Ht, Hinj.
    unfold lifted, cp', cg'. destruct d.
    + eapply (Hfin true _ (Br p (match up with [] => BLACK | _ => cp end) lp dp
                              (Br g RED rp dg u))).
      * eapply (rotateRight2_rep compFunc); [exact Ht | exact Hinj | exact Hn | exact Hlp].
      * apply relinked_rotateRight2.
      * cbn. by rewrite <- !app_assoc.
      * cbn. lia.
      * done.
    + eapply (Hfin true _ (Br p (match up with [] => BLACK | _ => cp end)
                              (Br g cg u dg lp) dp rp)).
      * eapply (rotateLeft2_rep compFunc); [exact Ht | exact Hinj | exact Hn | exact Hlp].
      * apply relinked_rotateLeft2.
      * cbn. by rewrite <- !app_assoc.
      * cbn. lia.
      * done.
Qed.

Lemma rotation_keeps_elements_witness :
  exists m T,
    final (run (map insertZ [2; 1; 3; 4]) newRBTree) = Some m
    /\ tree_of m = Some T /\ red_black intCompare T = true
    /\ rotates false m T
         (Br 3 BLACK (Br 1 BLACK (Br 2 BLACK Leaf 1 Leaf) 2 Leaf) 3 (Br 4 RED Leaf 4 Leaf))
         (Some 3%positive) (rotateLeftDelete intCompare (Some 1%positive))
    /\ rotates true m T
         (Br 3 BLACK (Br 1 BLACK (Br 2 BLACK Leaf 1 Leaf) 2 Leaf) 3 (Br 4 RED Leaf 4 Leaf))
         (Some 3%positive) (rotateLeft2 intCompare (Some 4%positive)).
Proof.
  destruct (run (map insertZ [2; 1; 3; 4]) newRBTree) as [rs m| |] eqn:Hrun;
    [|vm_compute in Hrun; discriminate Hrun ..].
  vm_compute in Hrun. injection Hrun as _ Hm.
  exists m, (plug [F Rgt 1%positive BLACK 2 (Br 2 BLACK Leaf 1 Leaf)]
                  (Br 3 BLACK Leaf 3 (Br 4 RED Leaf 4 Leaf))).
  assert (tree_of m = Some (plug [F Rgt 1%positive BLACK 2 (Br 2 BLACK Leaf 1 Leaf)]
                                 (Br 3 BLACK Leaf 3 (Br 4 RED Leaf 4 Leaf))))
    as Ht by (rewrite <- Hm; vm_compute; reflexivity).
  destruct (rotation_keeps_elements intCompare m Rgt [] 1%positive BLACK
              (Br 2 BLACK Leaf 1 Leaf) 2 3%positive BLACK Leaf 3 (Br 4 RED Leaf 4 Leaf)
              intCompare_comparator Ht eq_refl) as (Hrb & Hdel & Hins).
  split_and!; [reflexivity | exact Ht | reflexivity | |].
  - apply Hdel. intros _. by apply Hrb.
  - apply Hins; [by apply Hrb | by right].
Defined.

(** C6, as stated, fails.  In the red-black tree built from 2, 1, 3, 0
    the node holding 0 is at address 4 and is a left child.
    [rotateLeft2] called on it returns, and the links then no longer
    form a tree: a rotation cannot be applied to any node.
    [rotateRight2] called on it lifts its parent over the root and
    keeps the elements, but the node at address 1, the former root, is
    RED afterwards and was BLACK: it does not rewrite links only. *)
Lemma rotation_any_node_counterexample :
  exists m t,
    final (run (map insertZ [2; 1; 3; 0]) newRBTree) = Some m
    /\ tree_of m = Some t /\ red_black intCompare t = true
    /\ 4%positive ∈ addr_list t
    /\ (exists m', rotateLeft2 intCompare (Some 4%positive) m = Done tt m'
                   /\ tree_of m' = None)
    /\ (forall r, ~ same_elements m t r (rotateLeft2 intCompare (Some 4%positive)))
    /\ (exists m' n n',
          rotateRight2 intCompare (Some 4%positive) m = Done tt m'
          /\ nodes m !! 1%positive = Some n /\ nodes m' !! 1%positive = Some n'
          /\ color n = BLACK /\ color n' = RED).
Proof.
  destruct (run (map insertZ [2; 1; 3; 0]) newRBTree) as [rs m| |] eqn:Hrun;
    [|vm_compute in Hrun; discriminate Hrun ..].
  vm_compute in Hrun. injection Hrun as _ Hm.
  destruct (rotateLeft2 intCompare (Some 4%positive) m) as [[] m'| |] eqn:Hrot;
    [|rewrite <- Hm in Hrot; vm_compute in Hrot; discriminate Hrot ..].
  assert (tree_of m' = None) as Hnone.
  { rewrite <- Hm in Hrot. vm_compute in Hrot. injection Hrot as <-.
    vm_compute. reflexivity. }
  destruct (rotateRight2 intCompare (Some 4%positive) m) as [[] m2| |] eqn:Hrot2;
    [|rewrite <- Hm in Hrot2; vm_compute in Hrot2; discriminate Hrot2 ..].
  exists m, (Br 1 BLACK (Br 2 BLACK (Br 4 RED Leaf 0 Leaf) 1 Leaf) 2 (Br 3 BLACK Leaf 3 Leaf)).
  split_and!.
  - reflexivity.
  - rewrite <- Hm. vm_compute. reflexivity.
  - reflexivity.
  - cbn. set_solver.
  - by exists m'.
  - intros r (m'' & t' & Hrun' & Ht' & _). congruence.
  - rewrite <- Hm in Hrot2. vm_compute in Hrot2. injection Hrot2 as Hm2.
    exists m2. rewrite <- Hm, <- Hm2. eexists _, _.
    split_and!; [reflexivity | vm_compute; reflexivity | vm_compute; reflexivity
                | reflexivity | reflexivity].
Qed.

(** C8, as the code has it.  On two vectors whose [len] is their number
    of components and whose components are numbers (no NaN),
    [vectorCompare1By1] returns a result [r]: at the first index where
    the components differ, [r] is -1 when the component of [a] is the
    smaller one and 1 when it is the larger one; when the components
    agree up to the shorter length, [r] is -1 for a shorter [a] and 1
    for a shorter [b]; and [r] is 0 exactly when the lengths are equal
    and the components agree at every index. *)
Theorem vectorCompare1By1_lexicographic (a b : Vector) :
  sized a -> sized b -> numbers a = true -> numbers b = true ->
  exists r,
    vectorCompare1By1 a b = Some r
    /\ (forall i x y,
          vector a !! i = Some x -> vector b !! i = Some y ->
          same_below i a b -> (x =? y)%float = false ->
          ((x <? y)%float = true /\ r = -1) \/ ((y <? x)%float = true /\ r = 1))
    /\ (same_below (Z.to_nat (min (len a) (len b))) a b ->
        (len a < len b -> r = -1) /\ (len b < len a -> r = 1))
    /\ (r = 0 <-> len a = len b /\ same_below (Z.to_nat (len a)) a b).
Proof.
  destruct a as [alen av], b as [blen bv]. unfold sized, numbers, same_below.
  cbn [len vector]. intros -> -> Ha Hb. unfold vectorCompare1By1. cbn [len vector].
  rewrite min_nat.
  destruct (compare_from_spec av bv Ha Hb)
    as [(Hrun & Hsame)|(i & x & y & r & Hrun & Hx & Hy & Hne & Hlow & Hr)];
    rewrite Hrun.
  - eexists. split; [reflexivity|]. split_and!.
    + intros i x y Hx Hy _ Hne. rewrite (Hsame i x y Hx Hy) in Hne. discriminate.
    + intros _. destruct (Z.eqb_spec (Z.of_nat (length av)) (Z.of_nat (length bv)));
        [lia|]. destruct (Z.ltb_spec (Z.of_nat (length av)) (Z.of_nat (length bv))); lia.
    + destruct (Z.eqb_spec (Z.of_nat (length av)) (Z.of_nat (length bv))) as [He|He].
      * split; [|done]. intros _. split; [done|]. intros j u v _. apply Hsame.
      * destruct (Z.ltb_spec (Z.of_nat (length av)) (Z.of_nat (length bv)));
          (split; [discriminate | intros (? & _); done]).
  - exists r. split; [reflexivity|].
    pose proof (lookup_lt_Some _ _ _ Hx) as Hia. pose proof (lookup_lt_Some _ _ _ Hy) as Hib.
    split_and!.
    + intros i' x' y' Hx' Hy' Hlow' Hne'.
      destruct (Nat.lt_trichotomy i' i) as [Hlt|[->|Hgt]].
      * rewrite (Hlow i' x' y' Hlt Hx' Hy') in Hne'. discriminate.
      * rewrite Hx in Hx'. rewrite Hy in Hy'. injection Hx' as <-. injection Hy' as <-. done.
      * rewrite (Hlow' i x y Hgt Hx Hy) in Hne. discriminate.
    + intros Hall. rewrite (Hall i x y) in Hne; [discriminate | | done | done].
      lia.
    + split.
      * intros ->. destruct Hr as [(_ & ?)|(_ & ?)]; discriminate.
      * intros (_ & Hall). rewrite (Hall i x y) in Hne; [discriminate | | done | done].
        lia.
Qed.

Lemma vectorCompare1By1_lexicographic_witness :
  let a := mkVector 2 [1.5%float; 2%float] in
  let b := mkVector 3 [1.5%float; 2%float; 0%float] in
  sized a /\ sized b /\ numbers a = true /\ numbers b = true
  /\ exists r,
       vectorCompare1By1 a b = Some r
       /\ (forall i x y,
             vector a !! i = Some x -> vector b !! i = Some y ->
             same_below i a b -> (x =? y)%float = false ->
             ((x <? y)%float = true /\ r = -1) \/ ((y <? x)%float = true /\ r = 1))
       /\ (same_below (Z.to_nat (min (len a) (len b))) a b ->
           (len a < len b -> r = -1) /\ (len b < len a -> r = 1))
       /\ (r = 0 <-> len a = len b /\ same_below (Z.to_nat (len a)) a b).
Proof.
  intros a b. split; [reflexivity|]. split; [reflexivity|].
  split; [reflexivity|]. split; [reflexivity|].
  apply (vectorCompare1By1_lexicographic a b); reflexivity.
Defined.

(** C8, as stated, fails on a NaN: the vectors (NaN) and (1) have the
    same length and different components, and [vectorCompare1By1]
    returns 0. *)
Lemma vectorCompare1By1_nan_counterexample :
  let a := mkVector 1 [nan] in
  let b := mkVector 1 [one] in
  vectorCompare1By1 a b = Some 0
  /\ vector a !! 0%nat = Some nan /\ vector b !! 0%nat = Some one
  /\ (nan =? one)%float = false /\ (nan <? one)%float = false /\ (one <? nan)%float = false
  /\ ~ (vectorCompare1By1 a b = Some 0
        <-> len a = len b /\ same_below (Z.to_nat (len a)) a b).
Proof.
  intros a b. split_and!; try reflexivity.
  intros [Hto _]. destruct (Hto eq_refl) as (_ & Hsame).
  specialize (Hsame 0%nat nan one). cbn in Hsame.
  assert ((nan =? one)%float = true) as H by (apply Hsame; [lia|done|done]).
  vm_compute in H. discriminate H.
Qed.

(** * Further properties of the code *)

(** ** Lookup *)

(** X1.  [RBTreeContains] on a store holding an ascending tree returns
    1 when an element comparing equal to [d] is in the tree and 0 when
    there is none, and the store is as before. *)
Theorem contains_finds_stored_elements {A : Type} (compFunc : A -> A -> Z)
    (m : mem A) (t : btree A) (d : A) :
  Comparator compFunc ->
  tree_of m = Some t -> ascending compFunc (inorder t) = true ->
  exists r,
    RBTreeContains compFunc TREE d m = Done r m
    /\ (r = 1 <-> exists x, x ∈ inorder t /\ compFunc x d = 0)
    /\ (r = 0 <-> forall x, x ∈ inorder t -> compFunc x d <> 0).
Proof.
  intros Hcmp Ht%rep_tree_of Hsort%(ascending_sorted compFunc).
  exists (contains_tree compFunc t d).
  pose proof (contains_tree_spec compFunc t d Hsort) as Hspec.
  split; [by apply RBTreeContains_eval|]. split; [done|].
  destruct (contains_tree_01 compFunc t d) as [Hc|Hc]; rewrite Hc.
  - split; [|done]. intros _ x Hx Hxd.
    assert (contains_tree compFunc t d = 1) by (apply Hspec; eauto). congruence.
  - split; [done|]. intros Hno. apply Hspec in Hc as (x & Hx & Hxd).
    by destruct (Hno x Hx).
Qed.

Lemma contains_finds_stored_elements_witness :
  exists m t,
    final (run (map insertZ [2; 1; 3]) newRBTree) = Some m
    /\ tree_of m = Some t /\ ascending intCompare (inorder t) = true
    /\ exists r,
         RBTreeContains intCompare TREE 3 m = Done r m
         /\ (r = 1 <-> exists x, x ∈ inorder t /\ intCompare x 3 = 0)
         /\ (r = 0 <-> forall x, x ∈ inorder t -> intCompare x 3 <> 0).
Proof.
  destruct (run (map insertZ [2; 1; 3]) newRBTree) as [rs m| |] eqn:Hrun;
    [|vm_compute in Hrun; discriminate Hrun ..].
  vm_compute in Hrun. injection Hrun as _ Hm.
  assert (tree_of m = Some (Br 1 BLACK (Br 2 RED Leaf 1 Leaf) 2 (Br 3 RED Leaf 3 Leaf)))
    as Ht by (rewrite <- Hm; vm_compute; reflexivity).
  exists m, (Br 1 BLACK (Br 2 RED Leaf 1 Leaf) 2 (Br 3 RED Leaf 3 Leaf)).
  split_and!; [reflexivity | exact Ht | reflexivity |].
  exact (contains_finds_stored_elements intCompare m _ 3 intCompare_comparator Ht eq_refl).
Defined.

(** X2.  Insert, then look up.  After an [insertToRBTree] of [d] into a
    stored red-black tree that returned 1, [RBTreeContains] returns 1
    for [d], and for an element [e] that does not compare equal to [d]
    it returns what it returned before the insertion. *)
Theorem insert_then_contains {A : Type} (compFunc : A -> A -> Z)
    (alloc : gmap positive (Node A) -> option positive) (m m' : mem A) (t : btree A) (d : A) :
  Comparator compFunc -> fresh_alloc alloc ->
  tree_of m = Some t -> red_black compFunc t = true ->
  insertToRBTree compFunc alloc TREE (Some d) m = Done 1 m' ->
  RBTreeContains compFunc TREE d m' = Done 1 m'
  /\ forall e, compFunc d e <> 0 ->
       exists r, RBTreeContains compFunc TREE e m = Done r m
                 /\ RBTreeContains compFunc TREE e m' = Done r m'.
Proof.
  intros Hcmp Hfresh Ht%rep_tree_of Hrb Hins.
  destruct (insertToRBTree_rep compFunc alloc Hfresh m t d Ht Hrb)
    as (r & m1 & t' & Hrun & Hrep' & Hrb' & _ & Hres).
  rewrite Hrun in Hins. injection Hins as -> ->.
  destruct Hres as [(? & _)|(_ & Hc & Hperm & _)]; [done|].
  pose proof Hrb as (_ & _ & _ & Hsort)%(red_black_parts compFunc).
  pose proof Hrb' as (_ & _ & _ & Hsort')%(red_black_parts compFunc).
  rewrite (RBTreeContains_eval compFunc m' t' d Hrep'). split.
  - f_equal. apply (contains_tree_spec compFunc t' d Hsort'). exists d.
    split; [rewrite Hperm; by left | apply cmp_refl].
  - intros e Hde. exists (contains_tree compFunc t e).
    rewrite (RBTreeContains_eval compFunc m t e Ht).
    rewrite (RBTreeContains_eval compFunc m' t' e Hrep'). split; [done|]. f_equal.
    pose proof (contains_tree_spec compFunc t e Hsort) as Hs.
    pose proof (contains_tree_spec compFunc t' e Hsort') as Hs'.
    destruct (contains_tree_01 compFunc t e) as [He|He],
             (contains_tree_01 compFunc t' e) as [He'|He']; try congruence.
    + apply Hs' in He' as (x & Hx & Hxe). rewrite Hperm in Hx.
      apply elem_of_cons in Hx as [->|Hx]; [done|].
      assert (contains_tree compFunc t e = 1) by (apply Hs; eauto). congruence.
    + apply Hs in He as (x & Hx & Hxe).
      assert (contains_tree compFunc t' e = 1); [|congruence].
      apply Hs'. exists x. split; [|done]. rewrite Hperm. by right.
Qed.

Lemma insert_then_contains_witness :
  exists m m',
    final (run (map insertZ [2; 1; 3]) newRBTree) = Some m
    /\ insertToRBTree intCompare bump TREE (Some 5) m = Done 1 m'
    /\ RBTreeContains intCompare TREE 5 m' = Done 1 m'
    /\ exists r, RBTreeContains intCompare TREE 4 m = Done r m
                 /\ RBTreeContains intCompare TREE 4 m' = Done r m'.
Proof.
  destruct (run (map insertZ [2; 1; 3]) newRBTree) as [rs m| |] eqn:Hrun;
    [|vm_compute in Hrun; discriminate Hrun ..].
  vm_compute in Hrun. injection Hrun as _ Hm.
  assert (tree_of m = Some (Br 1 BLACK (Br 2 RED Leaf 1 Leaf) 2 (Br 3 RED Leaf 3 Leaf)))
    as Ht by (rewrite <- Hm; vm_compute; reflexivity).
  destruct (insertToRBTree intCompare bump TREE (Some 5) m) as [r m'| |] eqn:Hins;
    [|rewrite <- Hm in Hins; vm_compute in Hins; discriminate Hins ..].
  assert (r = 1) as ->
    by (rewrite <- Hm in Hins; vm_compute in Hins; by injection Hins as <- _).
  destruct (insert_then_contains intCompare bump m m' _ 5
              intCompare_comparator bump_fresh Ht eq_refl Hins) as (Hd & He).
  exists m, m'. split_and!; [reflexivity | exact Hins | exact Hd | by apply He].
Defined.

(** ** Traversal *)

Section ForEach.

Context {A C : Type}.
Implicit Types (t l r : btree A) (h : gmap positive (Node A)) (func : A -> C -> Z * C).

(** A visitor that never fails on the elements of the subtree is called
    on each of them, in order, and the context is threaded through. *)
Lemma forEachHelper_all func fuel : forall t h tr fr par args seen,
  shape h par t -> (count t < fuel)%nat ->
  (forall x c, x ∈ inorder t -> (func x c).1 <> 0) ->
  forEachHelper fuel (top t) func args seen (mkMem h tr fr)
  = Done (1, fold_left (fun c x => (func x c).2) (inorder t) args, seen ++ inorder t)
         (mkMem h tr fr).
Proof.
  induction fuel as [|fuel IH]; intros t h tr fr par args seen Hs Hc Hok; [lia|].
  destruct t as [|a c l x r]; cbn [forEachHelper top inorder].
  { cbn. by rewrite app_nil_r. }
  cbn [shape count] in Hs, Hc. destruct Hs as (Ha & Hl & Hr).
  exec. rewrite (bind_done _ _ _ _ _ (IH l h tr fr (Some a) args seen Hl ltac:(lia)
                   (fun y c Hy => Hok y c ltac:(cbn [inorder]; set_solver)))).
  exec.
  pose proof (Hok x (fold_left (fun c x => (func x c).2) (inorder l) args)
                ltac:(cbn [inorder]; set_solver)) as Hx.
  destruct (func x _) as [try c'] eqn:Hf. cbn [fst] in Hx.
  destruct (Z.eqb_spec try 0) as [|_]; [done|]. cbn [orb Z.eqb]. exec.
  rewrite (bind_done _ _ _ _ _ (IH r h tr fr (Some a) c' ((seen ++ inorder l) ++ [x]) Hr
                   ltac:(lia) (fun y c Hy => Hok y c ltac:(cbn [inorder]; set_solver)))).
  cbn [Z.eqb]. rewrite fold_left_app. cbn [fold_left]. rewrite Hf. cbn [snd].
  by rewrite <- !app_assoc.
Qed.




End ForEach.

(** X3.  [forEachRBTree] with a visitor that does not fail on the
    elements of a stored tree returns 1 after calling the visitor on
    every element, once each and in in-order; the context handed to each
    call is the one the call before left, and the store is as before. *)
Theorem forEach_visits_all_in_order {A C : Type} (func : A -> C -> Z * C) (args : C)
    (m : mem A) (t : btree A) :
  tree_of m = Some t ->
  (forall x c, x ∈ inorder t -> (func x c).1 <> 0) ->
  forEachRBTree TREE func args m
  = Done (1, fold_left (fun c x => (func x c).2) (inorder t) args, inorder t) m.
Proof.
  intros (Hs & Hroot & Hu)%rep_tree_of Hok. destruct m as [h [rt sz] fr].
  cbn [nodes tree root] in *. subst rt. unfold forEachRBTree. exec. unfold with_gas.
  apply (forEachHelper_all func _ t h _ fr None args [] Hs); [|done].
  pose proof (uniq_count _ _ _ Hs Hu). unfold gas. cbn [nodes]. lia.
Qed.

Lemma forEach_visits_all_in_order_witness :
  exists m t,
    final (run (map insertZ [3; 1; 2]) newRBTree) = Some m
    /\ tree_of m = Some t /\ inorder t = [1; 2; 3]
    /\ forEachRBTree TREE visit_all 0 m = Done (1, 3, [1; 2; 3]) m.
Proof.
  destruct (run (map insertZ [3; 1; 2]) newRBTree) as [rs m| |] eqn:Hrun;
    [|vm_compute in Hrun; discriminate Hrun ..].
  vm_compute in Hrun. injection Hrun as _ Hm.
  assert (tree_of m = Some (Br 3 BLACK (Br 2 RED Leaf 1 Leaf) 2 (Br 1 RED Leaf 3 Leaf)))
    as Ht by (rewrite <- Hm; vm_compute; reflexivity).
  exists m, (Br 3 BLACK (Br 2 RED Leaf 1 Leaf) 2 (Br 1 RED Leaf 3 Leaf)).
  split_and!; [reflexivity | exact Ht | reflexivity |].
  apply (forEach_visits_all_in_order visit_all 0 m _ Ht). intros x c _. discriminate.
Defined.



(** X5.  Lookup and traversal only read: when [RBTreeContains] or
    [forEachRBTree] returns, whatever the store, the tree argument, the
    visitor and the context, the store is the one it started in. *)
Theorem lookup_and_traversal_only_read {A C : Type} (compFunc : A -> A -> Z)
    (tp : treeptr) (m : mem A) :
  (forall d r m', RBTreeContains compFunc tp d m = Done r m' -> m' = m)
  /\ (forall (func : A -> C -> Z * C) args r m',
        forEachRBTree tp func args m = Done r m' -> m' = m).
Proof.
  split.
  - intros d r m' H. by apply (respects_RBTreeContains compFunc eq) in H.
  - intros func args r m'.
    assert (forall fuel p c s, respects eq (forEachHelper (A:=A) fuel p func c s)) as Hh.
    { induction fuel as [|fuel IH]; intros p c s; cbn [forEachHelper]; resp. }
    assert (respects eq (forEachRBTree (A:=A) tp func args)) as Hf
      by (unfold forEachRBTree; resp).
    intros H. by apply Hf in H.
Qed.

(** ** Allocation and release *)

Section NodeSets.

Context {A : Type}.
Implicit Types (t : btree A) (m : mem A).

#[export] Instance no_new_nodes_preorder : PreOrder (@no_new_nodes A).
Proof.
  split; [intros m; unfold no_new_nodes; done|].
  intros m1 m2 m3; unfold no_new_nodes; set_solver.
Qed.

Lemma stable_no_new_nodes m m' : stable m m' -> no_new_nodes m m'.
Proof.
  intros (_ & _ & Hd) a [n' Hn']%elem_of_dom.
  destruct (Hd a n' Hn') as (n & Hn & _). apply elem_of_dom. eauto.
Qed.

Lemma size_addrs t : uniq t -> base.size (addrs t) = count t.
Proof.
  induction t as [|a c l IHl x r IHr]; cbn [uniq addrs count]; [done|].
  intros (Hal & Har & Hlr & Hul & Hur).
  rewrite !size_union, size_singleton, IHl, IHr by set_solver. lia.
Qed.

End NodeSets.

Section Nodes.

Context {A : Type} (compFunc : A -> A -> Z).
Variable alloc : gmap positive (Node A) -> option positive.
Implicit Types (t : btree A) (m : mem A).

(** After linking the new node, [insertToRBTree] allocates nothing. *)
Lemma insertToRBTree_nodes (tp : treeptr) od m r m' :
  insertToRBTree compFunc alloc tp od m = Done r m' ->
  m' = m \/ exists n, alloc (nodes m) = Some n
                      /\ dom (nodes m') ⊆ {[n]} ∪ dom (nodes m).
Proof.
  unfold insertToRBTree. intros H.
  destruct tp; [injection H as _ <-; by left|].
  destruct od as [d|]; [|injection H as _ <-; by left].
  apply bind_inv in H as (c & m1 & H1 & H).
  apply (respects_RBTreeContains compFunc eq) in H1. subst m1.
  destruct (c =? 1); [injection H as _ <-; by left|].
  apply bind_inv in H as (p & m1 & H1 & H). unfold new_node in H1.
  destruct (alloc (nodes m)) as [n|] eqn:Hal; injection H1 as <- <-;
    [|injection H as _ <-; by left].
  right. exists n. split; [done|].
  assert (no_new_nodes
            (mkMem (<[n := mkNode d RED None None None]> (nodes m)) (tree m) (freed m)) m')
    as Hsub; [|unfold no_new_nodes in Hsub; cbn [nodes] in Hsub;
               by rewrite dom_insert_L in Hsub].
  pose proof (fun X (c : M A X) => respects_weaken stable no_new_nodes c stable_no_new_nodes)
    as Hw.
  assert (forall k, respects no_new_nodes (@add_size A k)) as Hadd
    by (intros k m0 x m0' [= _ <-]; unfold no_new_nodes; done).
  revert H. generalize (mkMem (<[n := mkNode d RED None None None]> (nodes m)) (tree m) (freed m)).
  intros m0 H.
  assert (respects no_new_nodes
    (r <- get_root ;;
     match r with
     | Some _ =>
       ok <- with_gas (fun g => treeRBinsert compFunc g r (Some n)) ;;
       (if ok =? 0 then ret 0
        else with_gas (fun g => fixTreeInsert compFunc g (Some n)) ;;; add_size 1 ;;; ret 1)
     | None => set_color (Some n) BLACK ;;; set_root (Some n) ;;; add_size 1 ;;; ret 1
     end)) as Hrest; [|by apply Hrest in H].
  apply respects_bind; [apply _ | apply respects_get_root; apply _ |]. intros [q|].
  - apply respects_bind; [apply _ | |].
    + apply Hw, respects_with_gas. intros g. apply stable_treeRBinsert.
    + intros ok. destruct (ok =? 0); [apply respects_ret; apply _|].
      apply respects_bind; [apply _ | |].
      * apply Hw, respects_with_gas. intros g. apply stable_fixTreeInsert.
      * intros _. apply respects_bind; [apply _ | apply Hadd |].
        intros _. apply respects_ret. apply _.
  - apply respects_bind; [apply _ | apply Hw, stable_set_color |]. intros _.
    apply respects_bind; [apply _ | apply Hw, stable_set_root |]. intros _.
    apply respects_bind; [apply _ | apply Hadd |]. intros _. apply respects_ret. apply _.
Qed.

End Nodes.

Section NoLeak.

Context {A : Type} (compFunc : A -> A -> Z) `{!Comparator compFunc}.
Variable alloc : gmap positive (Node A) -> option positive.
Hypothesis alloc_fresh : fresh_alloc alloc.
Implicit Types (t : btree A) (m : mem A).

(** The nodes in the store are the nodes of the tree: an insertion keeps
    it so. *)
Lemma insertToRBTree_no_junk m t d r m' t' :
  rep m t -> red_black compFunc t = true -> dom (nodes m) = addrs t ->
  insertToRBTree compFunc alloc TREE (Some d) m = Done r m' -> rep m' t' ->
  dom (nodes m') = addrs t'.
Proof.
  intros Hrep Hrb Hdom Hins Hrep'.
  destruct (insertToRBTree_rep compFunc alloc alloc_fresh m t d Hrep Hrb)
    as (r0 & m0 & t0 & Hrun & Hrep0 & _ & _ & Hres).
  rewrite Hrun in Hins. injection Hins as -> ->.
  assert (t0 = t') as -> by (apply rep_tree_of in Hrep0, Hrep'; congruence).
  destruct Hres as [(_ & -> & -> & _)|(_ & _ & Hperm & _)]; [done|].
  destruct (insertToRBTree_nodes compFunc alloc _ _ _ _ _ Hrun) as [->|(n & Hal & Hsub)].
  { assert (t' = t) as -> by (apply rep_tree_of in Hrep, Hrep'; congruence).
    apply Permutation_length in Hperm. cbn in Hperm. lia. }
  symmetry. apply set_subseteq_size_eq.
  - intros a Ha. destruct Hrep' as (Hs' & _ & _).
    apply elem_of_dom. by eapply shape_dom.
  - apply subseteq_size in Hsub. rewrite size_union_alt, size_singleton in Hsub.
    assert (base.size (dom (nodes m) ∖ {[n]}) <= base.size (dom (nodes m)))%nat
      by (apply subseteq_size; set_solver).
    destruct Hrep as (_ & _ & Hu). destruct Hrep' as (_ & _ & Hu').
    rewrite (size_addrs t' Hu'). rewrite Hdom, (size_addrs t Hu) in *.
    rewrite !count_inorder in *. apply Permutation_length in Hperm. cbn in Hperm. lia.
Qed.

Lemma insert_run_no_junk xs : forall m0 t0 rs m t,
  rep m0 t0 -> red_black compFunc t0 = true -> dom (nodes m0) = addrs t0 ->
  run (map (fun x => insertToRBTree compFunc alloc TREE (Some x)) xs) m0 = Done rs m ->
  rep m t -> dom (nodes m) = addrs t.
Proof.
  induction xs as [|x xs IH]; intros m0 t0 rs m t Hrep0 Hrb0 Hdom0 Hrun Hrep.
  - cbn in Hrun. injection Hrun as _ <-.
    assert (t = t0) as -> by (apply rep_tree_of in Hrep0, Hrep; congruence). done.
  - destruct (insertToRBTree_rep compFunc alloc alloc_fresh m0 t0 x Hrep0 Hrb0)
      as (r1 & m1 & t1 & Hins & Hrep1 & Hrb1 & _).
    cbn [map run] in Hrun. rewrite Hins in Hrun.
    destruct (run _ m1) as [rs' m2| |] eqn:Hrest; [|discriminate ..].
    injection Hrun as _ <-.
    apply (IH m1 t1 rs' m2 t Hrep1 Hrb1); [|done|done].
    by apply (insertToRBTree_no_junk m0 t0 x r1 m1 t1).
Qed.

End NoLeak.

(** X6.  [freeRBTree] on a stored tree returns after releasing every
    node of the tree and nothing else: no address of the tree is
    allocated afterwards, and every other node of the store is as it
    was. *)
Theorem freeRBTree_releases_the_nodes {A : Type} (m : mem A) (t : btree A) :
  tree_of m = Some t ->
  exists m',
    freeRBTree m = Done tt m'
    /\ (forall a, a ∈ addrs t -> nodes m' !! a = None)
    /\ (forall a, a ∉ addrs t -> nodes m' !! a = nodes m !! a)
    /\ dom (nodes m') = dom (nodes m) ∖ addrs t.
Proof.
  intros Ht%rep_tree_of.
  destruct (freeRBTree_spec m t Ht) as (m' & Hrun & _ & Hin & Hout).
  exists m'. split_and!; try done. apply set_eq. intros a.
  rewrite elem_of_difference, !elem_of_dom.
  destruct (decide (a ∈ addrs t)) as [Ha|Ha].
  - rewrite (Hin a Ha). split; [by intros [? ?] | tauto].
  - rewrite (Hout a Ha). tauto.
Qed.

Lemma freeRBTree_releases_the_nodes_witness :
  exists m m',
    final (run (map insertZ [2; 1; 3]) newRBTree) = Some m
    /\ freeRBTree m = Done tt m'
    /\ nodes m' !! 1%positive = None /\ nodes m' !! 2%positive = None
    /\ nodes m' !! 3%positive = None.
Proof.
  destruct (run (map insertZ [2; 1; 3]) newRBTree) as [rs m| |] eqn:Hrun;
    [|vm_compute in Hrun; discriminate Hrun ..].
  vm_compute in Hrun. injection Hrun as _ Hm.
  assert (tree_of m = Some (Br 1 BLACK (Br 2 RED Leaf 1 Leaf) 2 (Br 3 RED Leaf 3 Leaf)))
    as Ht by (rewrite <- Hm; vm_compute; reflexivity).
  destruct (freeRBTree_releases_the_nodes m _ Ht) as (m' & Hfree & Hin & _).
  exists m, m'. split_and!; [reflexivity | exact Hfree | ..]; apply Hin; cbn; set_solver.
Defined.

(** X7.  Building and tearing down leaves nothing behind.  After any
    list of insertions into a new tree the nodes in the store are
    exactly the nodes of the tree, and [freeRBTree] then returns with an
    empty store, having handed each element of the tree to the
    destructor once. *)
Theorem build_then_free_leaves_nothing {A : Type} (compFunc : A -> A -> Z)
    (alloc : gmap positive (Node A) -> option positive) :
  Comparator compFunc -> fresh_alloc alloc ->
  forall xs, exists rs m t m',
    run (map (fun x => insertToRBTree compFunc alloc TREE (Some x)) xs) newRBTree
    = Done rs m
    /\ tree_of m = Some t /\ dom (nodes m) = addrs t
    /\ freeRBTree m = Done tt m'
    /\ nodes m' = ∅ /\ freed m' = rev (inorder t)
    /\ inorder t ≡ₚ accepted xs rs.
Proof.
  intros Hcmp Hfresh xs.
  destruct (insert_run compFunc alloc Hfresh xs newRBTree Leaf newRBTree_rep eq_refl)
    as (rs & m & t & Hrun & Hrep & Hrb & Hperm & _ & Hfr).
  pose proof (insert_run_no_junk compFunc alloc Hfresh xs newRBTree Leaf rs m t
                newRBTree_rep eq_refl (dom_empty_L (D:=gset positive)) Hrun Hrep) as Hdom.
  destruct (freeRBTree_spec m t Hrep) as (m' & Hfree & Hlog & Hin & _).
  exists rs, m, t, m'. cbn [inorder] in Hperm. rewrite app_nil_r in Hperm.
  split_and!; try done; [by apply rep_tree_of | |].
  - apply map_eq. intros a. rewrite lookup_empty.
    destruct (decide (a ∈ addrs t)) as [Ha|Ha]; [by apply Hin|].
    destruct (nodes m' !! a) as [n|] eqn:Hn; [|done].
    destruct (freeRBTree_spec m t Hrep) as (m'' & Hfree' & _ & _ & Hout).
    rewrite Hfree in Hfree'. injection Hfree' as <-.
    rewrite (Hout a Ha) in Hn. destruct Ha. rewrite <- Hdom. apply elem_of_dom. eauto.
  - by rewrite Hlog, Hfr.
Qed.

Lemma build_then_free_leaves_nothing_witness :
  Comparator intCompare /\ fresh_alloc (@bump Z)
  /\ exists rs m t m',
       run (map (fun x => insertToRBTree intCompare bump TREE (Some x)) [4; 2; 6; 2])
           newRBTree = Done rs m
       /\ tree_of m = Some t /\ dom (nodes m) = addrs t
       /\ freeRBTree m = Done tt m'
       /\ nodes m' = ∅ /\ freed m' = rev (inorder t)
       /\ inorder t ≡ₚ accepted [4; 2; 6; 2] rs.
Proof.
  split; [exact intCompare_comparator|]. split; [exact bump_fresh|].
  exact (build_then_free_leaves_nothing intCompare bump intCompare_comparator bump_fresh
           [4; 2; 6; 2]).
Defined.

(** ** Finding the node to delete and its successor *)

Section Descend.

Context {A : Type} (compFunc : A -> A -> Z).
Implicit Types (t l r s : btree A) (fs acc sp : list (frame A))
  (h : gmap positive (Node A)).

Lemma locate_plug t d : forall acc fs s,
  locate compFunc t d acc = Some (fs, s) ->
  plug fs s = plug acc t
  /\ exists a c l x r, s = Br a c l x r /\ compFunc x d = 0.
Proof.
  induction t as [|a c l IHl x r IHr]; intros acc fs s; cbn [locate]; [done|].
  destruct (Z.eqb_spec (compFunc x d) 0) as [He|He].
  - intros [= <- <-]. split; [done|]. by exists a, c, l, x, r.
  - destruct (compFunc x d <? 0); intros H.
    + destruct (IHr _ _ _ H) as (Hp & ?). by rewrite Hp.
    + destruct (IHl _ _ _ H) as (Hp & ?). by rewrite Hp.
Qed.

Lemma locate_contains t d acc :
  contains_tree compFunc t d = 1 <-> is_Some (locate compFunc t d acc).
Proof.
  revert acc. induction t as [|a c l IHl x r IHr]; intros acc; cbn [locate contains_tree].
  - split; [done | by intros [? ?]].
  - destruct (compFunc x d =? 0); [by split|].
    destruct (compFunc x d <? 0); [apply IHr | apply IHl].
Qed.

(** [nodeFinder] on a stored subtree follows [locate]; when [locate]
    finds nothing it reads through NULL. *)
Lemma nodeFinder_eval h tr fr d fuel : forall t par acc,
  shape h par t -> (count t < fuel)%nat ->
  nodeFinder compFunc fuel (top t) d (mkMem h tr fr)
  = match locate compFunc t d acc with
    | Some (_, s) => Done (top s) (mkMem h tr fr)
    | None => Fault
    end.
Proof.
  induction fuel as [|fuel IH]; intros t par acc Hs Hc; [lia|].
  destruct t as [|a c l x r]; [reflexivity|].
  cbn [shape count] in Hs, Hc. destruct Hs as (Ha & Hl & Hr).
  cbn [nodeFinder locate top]. exec.
  destruct (compFunc x d =? 0); [reflexivity|].
  destruct (compFunc x d <? 0); exec.
  - apply (IH r (Some a)); [done | lia].
  - apply (IH l (Some a)); [done | lia].
Qed.

Lemma ctx_after_app (fs1 fs2 : list (frame A)) : ctx_after (fs1 ++ fs2) = ctx_after fs1 ++ ctx_after fs2.
Proof.
  induction fs1 as [|[[] a c d sib] up IH]; cbn [app ctx_after fdir fdata fsib]; [done| |done].
  by rewrite IH, <- app_assoc.
Qed.

Lemma ctx_before_app (fs1 fs2 : list (frame A)) : ctx_before (fs1 ++ fs2) = ctx_before fs2 ++ ctx_before fs1.
Proof.
  induction fs1 as [|[[] a c d sib] up IH]; cbn [app ctx_before fdir fdata fsib].
  - by rewrite app_nil_r.
  - done.
  - by rewrite IH, <- app_assoc.
Qed.

Lemma ctx_before_lefts sp : Forall (fun f => fdir f = Lft) sp -> ctx_before sp = [].
Proof.
  induction 1 as [|[[] a c d sib] up Hf _ IH]; cbn [ctx_before fdir]; done.
Qed.

Lemma plug_app (fs1 fs2 : list (frame A)) t : plug (fs1 ++ fs2) t = plug fs2 (plug fs1 t).
Proof. revert t. induction fs1 as [|f up IH]; intros t; cbn [app plug]; [done | apply IH]. Qed.

Lemma shape_plug_sub h fs : forall t par,
  shape h par (plug fs t) -> exists par', shape h par' t.
Proof.
  induction fs as [|[[] a c d sib] up IH]; intros t par Hs; cbn [plug] in Hs.
  - by exists par.
  - destruct (IH _ _ Hs) as (par' & Hs'). cbn in Hs'. exists (Some a). by destruct_and!.
  - destruct (IH _ _ Hs) as (par' & Hs'). cbn in Hs'. exists (Some a). by destruct_and!.
Qed.

Lemma leftmost_plug t : forall acc fs s,
  leftmost t acc = (fs, s) ->
  (t <> Leaf -> exists b cb y sr, s = Br b cb Leaf y sr)
  /\ exists sp, fs = sp ++ acc /\ Forall (fun f => fdir f = Lft) sp
                /\ plug sp s = t /\ inorder t = inorder s ++ ctx_after sp.
Proof.
  induction t as [|a c l IHl x r _]; intros acc fs s; cbn [leftmost].
  - intros [= <- <-]. split; [done|]. exists []. by rewrite app_nil_r.
  - destruct l as [|b cb bl y br].
    + intros [= <- <-]. split; [by exists a, c, x, r|]. exists []. by rewrite app_nil_r.
    + intros H. destruct (IHl _ _ _ H) as (Hs & sp & -> & Hsp & Hp & Hin).
      split; [intros _; by apply Hs|].
      exists (sp ++ [F Lft a c x r]). rewrite <- app_assoc. split_and!; [done | | |].
      * apply Forall_app. split; [done|]. by constructor.
      * rewrite plug_app, Hp. reflexivity.
      * rewrite ctx_after_app. cbn [ctx_after fdir fdata fsib inorder] in *.
        rewrite Hin, <- !app_assoc, app_nil_r. reflexivity.
Qed.

Lemma minValue_eval h tr fr fuel : forall t par acc,
  shape h par t -> t <> Leaf -> (count t < fuel)%nat ->
  minValue fuel (top t) (mkMem h tr fr) = Done (top (leftmost t acc).2) (mkMem h tr fr).
Proof.
  induction fuel as [|fuel IH]; intros t par acc Hs Hne Hc; [lia|].
  destruct t as [|a c l x r]; [done|].
  cbn [shape count] in Hs, Hc. destruct Hs as (Ha & Hl & Hr).
  cbn [minValue leftmost top]. exec.
  destruct l as [|b cb bl y br]; [reflexivity|]. cbn [top].
  apply (IH (Br b cb bl y br) (Some a)); [done | done | lia].
Qed.

Lemma inOrderSuccessor_eval (m : mem A) fs a c l x r :
  rep m (plug fs (Br a c l x r)) ->
  inOrderSuccessor (Some a) m
  = Done (top (leftmost r (F Rgt a c x l :: fs)).2) m.
Proof.
  intros (Hs & Hroot & Hu). destruct m as [h tr fr]. cbn [nodes] in *.
  pose proof (uniq_count _ _ _ Hs Hu) as Hcount.
  apply shape_plug in Hs as (_ & Ha). cbn [shape] in Ha. destruct Ha as (Ha & _ & Hr).
  unfold inOrderSuccessor. exec. destruct r as [|b cb bl y br]; [reflexivity|].
  cbn [top]. rewrite with_gas_eval.
  apply (minValue_eval h tr fr _ (Br b cb bl y br) (Some a)); [done | done |].
  assert (count (Br b cb bl y br) <= count (plug fs (Br a c l x (Br b cb bl y br))))%nat.
  { pose proof (length_ctx_count fs (Br a c l x (Br b cb bl y br))).
    cbn [count] in *. lia. }
  unfold gas. cbn [nodes]. lia.
Qed.

End Descend.

(** X8.  [inOrderSuccessor] returns NULL for NULL and for a node without
    a right child, also when a larger element is stored above the node.
    For a node [a] of a stored tree that has a right child it returns
    the node that holds the element coming right after the element of
    [a] in in-order; that node has no left child. *)
Theorem inOrderSuccessor_is_next {A : Type} (m : mem A) fs a c l x r :
  tree_of m = Some (plug fs (Br a c l x r)) ->
  inOrderSuccessor None m = Done None m
  /\ match inorder r with
     | [] => inOrderSuccessor (Some a) m = Done None m
     | y :: _ =>
       exists b n,
         inOrderSuccessor (Some a) m = Done (Some b) m
         /\ nodes m !! b = Some n /\ data n = y /\ left n = None /\ b ∈ addrs r
     end.
Proof.
  intros Hrep%rep_tree_of. split; [reflexivity|].
  rewrite (inOrderSuccessor_eval m fs a c l x r Hrep).
  destruct (leftmost r (F Rgt a c x l :: fs)) as [fs1 s] eqn:Hlm.
  destruct (leftmost_plug r _ _ _ Hlm) as (Hs & sp & -> & Hsp & Hp & Hin).
  assert (shape (nodes m) (Some a) r) as Hr.
  { destruct Hrep as (Hsh & _ & _). apply shape_plug in Hsh as (_ & Hsh).
    cbn [shape] in Hsh. by destruct_and!. }
  assert (r = Leaf \/ r <> Leaf) as [->|Hne] by (destruct r; [by left | by right]).
  { cbn in Hlm. by injection Hlm as _ <-. }
  destruct Hs as (b & cb & y & sr & ->); [done|]. rewrite Hin. cbn [inorder app snd top].
  rewrite <- Hp in Hr |- *.
  destruct (shape_plug_sub _ _ _ _ Hr) as (par & Hb). cbn [shape top] in Hb.
  destruct Hb as (Hb & _). eexists b, _. split_and!; [done | exact Hb | done | done |].
  rewrite addrs_plug. cbn [addrs]. set_solver.
Qed.

Lemma inOrderSuccessor_is_next_witness :
  exists m b n,
    final (run (map insertZ [1; 2; 3; 4; 5]) newRBTree) = Some m
    /\ inOrderSuccessor (Some 2%positive) m = Done (Some b) m
    /\ nodes m !! b = Some n /\ data n = 3 /\ left n = None.
Proof.
  destruct (run (map insertZ [1; 2; 3; 4; 5]) newRBTree) as [rs m| |] eqn:Hrun;
    [|vm_compute in Hrun; discriminate Hrun ..].
  vm_compute in Hrun. injection Hrun as _ Hm.
  assert (tree_of m
          = Some (plug [] (Br 2 BLACK (Br 1 BLACK Leaf 1 Leaf) 2
                              (Br 4 BLACK (Br 3 RED Leaf 3 Leaf) 4 (Br 5 RED Leaf 5 Leaf)))))
    as Ht by (rewrite <- Hm; vm_compute; reflexivity).
  destruct (inOrderSuccessor_is_next m _ _ _ _ _ _ Ht) as (_ & b & n & Hs & Hn & Hd & Hl & _).
  exists m, b, n. split_and!; [reflexivity | exact Hs | exact Hn | exact Hd | exact Hl].
Defined.

(** X9.  [nodeFinder] on a store holding an ascending tree, started at
    the root: when an element comparing equal to [d] is in the tree it
    returns a node of the tree whose element compares equal to [d], and
    the store is as before; when there is none it does not return NULL
    but reads through NULL, because it compares [node->data] before it
    tests [node == NULL]. *)
Theorem nodeFinder_finds_or_faults {A : Type} (compFunc : A -> A -> Z)
    (m : mem A) (t : btree A) (d : A) :
  Comparator compFunc ->
  tree_of m = Some t -> ascending compFunc (inorder t) = true ->
  ((exists x, x ∈ inorder t /\ compFunc x d = 0) ->
   exists a n,
     nodeFinder compFunc (gas m) (root (tree m)) d m = Done (Some a) m
     /\ nodes m !! a = Some n /\ compFunc (data n) d = 0 /\ a ∈ addrs t)
  /\ ((forall x, x ∈ inorder t -> compFunc x d <> 0) ->
      nodeFinder compFunc (gas m) (root (tree m)) d m = Fault).
Proof.
  intros Hcmp Hrep%rep_tree_of Hsort%(ascending_sorted compFunc).
  pose proof (contains_tree_spec compFunc t d Hsort) as Hspec.
  pose proof Hrep as (Hs & Hroot & Hu). destruct m as [h [rt sz] fr].
  cbn [nodes tree root] in *. subst rt.
  assert (count t < gas (mkMem h (mkRBTree (top t) sz) fr))%nat as Hfuel.
  { pose proof (uniq_count _ _ _ Hs Hu). unfold gas. cbn [nodes]. lia. }
  rewrite (nodeFinder_eval compFunc h _ fr d _ t None [] Hs Hfuel).
  split.
  - intros Hx%Hspec%(locate_contains compFunc t d []).
    destruct Hx as ([fs s] & Hloc). rewrite Hloc.
    destruct (locate_plug compFunc t d _ _ _ Hloc) as (Hp & a & c & l & x & r & -> & Hxd).
    cbn [plug] in Hp. subst t. apply shape_plug in Hs as (_ & Ha). cbn [shape] in Ha.
    destruct Ha as (Ha & _). eexists a, _. split_and!; [done | exact Ha | done |].
    rewrite addrs_plug. cbn [addrs]. set_solver.
  - intros Hno. destruct (locate compFunc t d []) as [[fs s]|] eqn:Hloc; [|done].
    assert (contains_tree compFunc t d = 1) as Hc
      by (apply (locate_contains compFunc t d []); eauto).
    apply Hspec in Hc as (x & Hx & Hxd). by destruct (Hno x Hx).
Qed.

Lemma nodeFinder_finds_or_faults_witness :
  exists m t,
    final (run (map insertZ [2; 1; 3]) newRBTree) = Some m
    /\ tree_of m = Some t /\ ascending intCompare (inorder t) = true
    /\ (exists a n,
          nodeFinder intCompare (gas m) (root (tree m)) 3 m = Done (Some a) m
          /\ nodes m !! a = Some n /\ intCompare (data n) 3 = 0 /\ a ∈ addrs t)
    /\ nodeFinder intCompare (gas m) (root (tree m)) 5 m = Fault.
Proof.
  destruct (run (map insertZ [2; 1; 3]) newRBTree) as [rs m| |] eqn:Hrun;
    [|vm_compute in Hrun; discriminate Hrun ..].
  vm_compute in Hrun. injection Hrun as _ Hm.
  assert (tree_of m = Some (Br 1 BLACK (Br 2 RED Leaf 1 Leaf) 2 (Br 3 RED Leaf 3 Leaf)))
    as Ht by (rewrite <- Hm; vm_compute; reflexivity).
  destruct (nodeFinder_finds_or_faults intCompare m _ 3 intCompare_comparator Ht eq_refl)
    as (Hfound & _).
  destruct (nodeFinder_finds_or_faults intCompare m _ 5 intCompare_comparator Ht eq_refl)
    as (_ & Hfault).
  exists m, (Br 1 BLACK (Br 2 RED Leaf 1 Leaf) 2 (Br 3 RED Leaf 3 Leaf)).
  split_and!; [reflexivity | exact Ht | reflexivity | |].
  - apply Hfound. exists 3. split; [|reflexivity]. cbn. set_solver.
  - apply Hfault. cbn. intros x Hx.
    repeat (apply elem_of_cons in Hx as [->|Hx]; [discriminate|]).
    by apply elem_of_nil in Hx.
Defined.

(** ** Exchanging the elements of two nodes *)

Section WithElement.

Context {A : Type}.
Implicit Types (t l r : btree A) (fs sp up : list (frame A)) (f : frame A)
  (h : gmap positive (Node A)).

Lemma shape_with_element h par t a d n :
  shape h par t -> h !! a = Some n ->
  shape (<[a := with_data d n]> h) par (with_element a d t).
Proof.
  revert par. induction t as [|b c l IHl x r IHr]; intros par; cbn [shape with_element]; [done|].
  intros (Hb & Hl & Hr) Ha. split_and!; [|by apply IHl|by apply IHr].
  assert (forall u, top (with_element a d u) = top u) as Htop by (by intros []).
  rewrite !Htop. destruct (decide (b = a)) as [->|Hne].
  - rewrite lookup_insert_eq. rewrite Hb in Ha. by injection Ha as <-.
  - by rewrite lookup_insert_ne.
Qed.

Lemma with_element_notin a d t : a ∉ addrs t -> with_element a d t = t.
Proof.
  induction t as [|b c l IHl x r IHr]; cbn [addrs with_element]; [done|]. intros Ha.
  rewrite IHl, IHr by set_solver. destruct (decide (b = a)) as [->|]; [set_solver | done].
Qed.

Lemma with_element_plug a d fs : forall t,
  with_element a d (plug fs t)
  = plug (map (frame_with_element a d) fs) (with_element a d t).
Proof.
  induction fs as [|[[] b c x sib] up IH]; intros t; cbn [plug map]; [done| |];
    rewrite IH; reflexivity.
Qed.

Lemma frames_with_element_notin a d fs :
  a ∉ addrs_ctx fs -> map (frame_with_element a d) fs = fs.
Proof.
  induction fs as [|[dir b c x sib] up IH]; cbn [addrs_ctx map faddr fsib]; [done|].
  intros Ha. rewrite IH by set_solver. f_equal. unfold frame_with_element.
  cbn [fdir faddr fcolor fdata fsib]. rewrite with_element_notin by set_solver.
  destruct (decide (b = a)) as [->|]; [set_solver | done].
Qed.

Lemma addrs_ctx_app (fs1 fs2 : list (frame A)) :
  addrs_ctx (fs1 ++ fs2) = addrs_ctx fs1 ∪ addrs_ctx fs2.
Proof. induction fs1 as [|f up IH]; cbn [app addrs_ctx]; [|rewrite IH]; set_solver. Qed.

Lemma uniq_ctx_app (fs1 fs2 : list (frame A)) :
  uniq_ctx (fs1 ++ fs2)
  <-> uniq_ctx fs1 /\ uniq_ctx fs2 /\ addrs_ctx fs1 ## addrs_ctx fs2.
Proof.
  induction fs1 as [|f up IH]; cbn [app uniq_ctx addrs_ctx].
  - split; [intros; split_and!; [done | done | set_solver] | by intros (_ & ? & _)].
  - rewrite IH, addrs_ctx_app. set_solver.
Qed.

(** The tree after [treeReplaceNode] on an ancestor and the node in the
    hole. *)
Lemma swap_plug sp dir a c x sib up s cs sl y sr :
  uniq (plug (sp ++ F dir a c x sib :: up) (Br s cs sl y sr)) ->
  with_element s x (with_element a y (plug (sp ++ F dir a c x sib :: up) (Br s cs sl y sr)))
  = plug (sp ++ F dir a c y sib :: up) (Br s cs sl x sr).
Proof.
  intros (Hctx & Hhole & Hdisj)%uniq_plug.
  apply uniq_ctx_app in Hctx as (Hsp & Hfup & Hd1).
  rewrite addrs_ctx_app in Hdisj.
  cbn [uniq_ctx uniq addrs_ctx addrs faddr fsib] in *.
  destruct Hfup as (Ha1 & Ha2 & Ha3 & Ha4 & Ha5).
  destruct Hhole as (Hs1 & Hs2 & Hs3 & Hs4 & Hs5).
  rewrite !with_element_plug, !map_app. cbn [map].
  rewrite !(frames_with_element_notin a) by set_solver.
  rewrite (with_element_notin a y (Br s cs sl y sr)) by (cbn [addrs]; set_solver).
  assert (frame_with_element a y (F dir a c x sib) = F dir a c y sib) as ->.
  { unfold frame_with_element. cbn [fdir faddr fcolor fdata fsib].
    rewrite with_element_notin by done. by rewrite decide_True. }
  rewrite !(frames_with_element_notin s) by set_solver.
  assert (frame_with_element s x (F dir a c y sib) = F dir a c y sib) as ->.
  { unfold frame_with_element. cbn [fdir faddr fcolor fdata fsib].
    rewrite with_element_notin by set_solver. rewrite decide_False by set_solver. done. }
  cbn [with_element]. rewrite !with_element_notin by done. by rewrite decide_True.
Qed.

Lemma with_element_addr_list a d t : addr_list (with_element a d t) = addr_list t.
Proof. induction t as [|b c l IHl x r IHr]; cbn; [done | by rewrite IHl, IHr]. Qed.

Lemma with_element_top a d t : top (with_element a d t) = top t.
Proof. by destruct t. Qed.

Lemma with_element_colours a d t :
  root_color (with_element a d t) = root_color t
  /\ no_red_red (with_element a d t) = no_red_red t
  /\ black_height (with_element a d t) = black_height t.
Proof.
  induction t as [|b c l (IHl1 & IHl2 & IHl3) x r (IHr1 & IHr2 & IHr3)]; [done|].
  cbn [with_element root_color no_red_red black_height].
  by rewrite IHl1, IHl2, IHl3, IHr1, IHr2, IHr3.
Qed.

(** [treeReplaceNode] on two nodes of a stored tree. *)
Lemma treeReplaceNode_rep (m : mem A) t a s na ns :
  rep m t -> nodes m !! a = Some na -> nodes m !! s = Some ns -> a <> s ->
  exists m',
    treeReplaceNode (Some a) (Some s) m = Done tt m'
    /\ rep m' (with_element s (data na) (with_element a (data ns) t))
    /\ size (tree m') = size (tree m) /\ freed m' = freed m.
Proof.
  destruct m as [h tr fr]. cbn [nodes tree freed]. intros (Hs & Hroot & Hu) Ha Hn Hne.
  unfold treeReplaceNode. exec. eexists. split; [reflexivity|].
  cbn [nodes tree freed]. split_and!; try done. unfold rep. cbn [nodes tree].
  split_and!.
  - apply shape_with_element; [by apply shape_with_element|]. by rewrite lookup_insert_ne.
  - by rewrite !with_element_top.
  - apply (uniq_congr _ _ Hu). by rewrite !with_element_addr_list.
Qed.

End WithElement.

(** ** Unlinking a node *)

Section Unlink.

Context {A : Type}.
Implicit Types (t l r : btree A) (fs up : list (frame A)) (h : gmap positive (Node A)).

Lemma uniq_plug_sub fs t t' :
  uniq (plug fs t) -> uniq t' -> addrs t' ⊆ addrs t -> uniq (plug fs t').
Proof. rewrite !uniq_plug. set_solver. Qed.

(** Releasing a node that the tree does not use. *)
Lemma rep_free h tr fr t s :
  shape h None t -> root tr = top t -> uniq t -> s ∉ addrs t ->
  rep (mkMem (delete s h) tr fr) t.
Proof.
  unfold rep. cbn [nodes tree]. intros Hs Hroot Hu Hnot. split_and!; [|done|done].
  eapply shape_agree; [|exact Hs]. intros a Ha. apply lookup_delete_ne. set_solver.
Qed.

End Unlink.

Ltac unlink_fin h l :=
  eexists; split; [reflexivity|]; cbn [nodes tree freed root size];
  split_and!; [|done|done];
  match goal with
  | |- rep (mkMem (delete ?s ?h') _ _) _ =>
    let HS := fresh "HS" in
    assert (HS : same_except l h h') by same_tac;
    apply rep_free;
      [ apply shape_plug;
        cbn [shape shape_ctx top ctx_top frame_node fdir faddr fcolor fdata fsib plug1];
        split_and!; first [lk | untouched HS]
      | first [ eassumption | reflexivity
              | match goal with
                | Hr : _ = top (plug (_ :: _) _) |- _ => rewrite Hr; apply top_plug_cons
                end ]
      | match goal with
        | Hu : uniq (plug _ _) |- _ =>
          apply (uniq_plug_sub _ _ _ Hu);
          [ cbn [uniq addrs]; first [exact I | split_and!; assumption]
          | cbn [addrs]; set_solver ]
        end
    | rewrite addrs_plug;
      cbn [addrs addrs_ctx fdir faddr fcolor fdata fsib]; set_solver ]
  end.

Section Delete12.

Context {A : Type} (compFunc : A -> A -> Z) `{!Comparator compFunc}.
Implicit Types (t l r : btree A) (fs up : list (frame A)) (h : gmap positive (Node A)).

Lemma delete1_rep m f up s cs x :
  rep m (plug (f :: up) (Br s cs Leaf x Leaf)) ->
  sib_differs compFunc f x ->
  exists m',
    delete1 compFunc (Some s) m = Done tt m'
    /\ rep m' (plug (f :: up) Leaf)
    /\ size (tree m') = size (tree m) /\ freed m' = freed m ++ [x].
Proof.
  destruct m as [h tr fr]. intros (Hs & Hroot & Hu0) Hdiff.
  cbn [nodes tree freed] in *.
  apply shape_plug in Hs. destruct Hs as (Hup & Hn). cbn [shape top ctx_top] in Hn.
  destruct Hn as (Hn & _ & _).
  pose proof Hu0 as HU. apply uniq_plug in HU.
  unfold delete1.
  destruct f as [[] p cp dp [|y cy yl dy yr]];
    cbn [shape_ctx frame_node fdir faddr fcolor fdata fsib top ctx_top shape] in Hup, Hn;
    unfold sib_differs in Hdiff; cbn [fdir fsib] in Hdiff;
    cbn [uniq uniq_ctx addrs addrs_ctx fdir faddr fcolor fdata fsib] in HU;
    destruct_and ? HU; destruct_and ? Hup.
  - distinct [s; p]. exec. unlink_fin h [p].
  - apply Z.eqb_neq in Hdiff. distinct [s; p; y]. exec. rewrite Hdiff. exec.
    unlink_fin h [p].
  - distinct [s; p]. exec. rewrite (cmp_same_test compFunc). exec. unlink_fin h [p].
  - distinct [s; p; y]. exec. rewrite (cmp_same_test compFunc). exec. unlink_fin h [p].
Qed.

Lemma delete2_R_rep m f up s cs x b cb bl z br :
  rep m (plug (f :: up) (Br s cs Leaf x (Br b cb bl z br))) ->
  right_present f -> sib_differs compFunc f x ->
  exists m',
    delete2 compFunc (Some s) SideR m = Done tt m'
    /\ rep m' (plug (f :: up) (Br b BLACK bl z br))
    /\ size (tree m') = size (tree m) /\ freed m' = freed m ++ [x].
Proof.
  destruct m as [h tr fr]. intros (Hs & Hroot & Hu0) Hpres Hdiff.
  cbn [nodes tree freed] in *.
  apply shape_plug in Hs. destruct Hs as (Hup & Hn). cbn [shape top ctx_top] in Hn.
  destruct Hn as (Hn & _ & Hb & Hbl & Hbr).
  pose proof Hu0 as HU. apply uniq_plug in HU.
  unfold delete2.
  destruct f as [[] p cp dp [|y cy yl dy yr]];
    cbn [shape_ctx frame_node fdir faddr fcolor fdata fsib top ctx_top shape] in Hup, Hn, Hb;
    unfold sib_differs in Hdiff; cbn [fdir fsib] in Hdiff;
    unfold right_present in Hpres; cbn [fdir fsib] in Hpres; try done;
    cbn [uniq uniq_ctx addrs addrs_ctx fdir faddr fcolor fdata fsib] in HU;
    destruct_and ? HU; destruct_and ? Hup.
  - apply Z.eqb_neq in Hdiff. distinct [s; p; y; b]. exec. rewrite Hdiff. exec.
    unlink_fin h [p; b].
  - distinct [s; p; b]. exec. rewrite (cmp_same_test compFunc). exec. unlink_fin h [p; b].
  - distinct [s; p; y; b]. exec. rewrite (cmp_same_test compFunc). exec. unlink_fin h [p; b].
Qed.

Lemma delete2_L_root m s cs x b cb bl z br :
  rep m (Br s cs (Br b cb bl z br) x Leaf) ->
  exists m',
    delete2 compFunc (Some s) SideL m = Done tt m'
    /\ rep m' (Br b BLACK bl z br)
    /\ size (tree m') = size (tree m) /\ freed m' = freed m ++ [x].
Proof.
  destruct m as [h [rt sz] fr]. intros (Hs & Hroot & Hu0).
  cbn [nodes tree freed] in *.
  cbn [shape top ctx_top] in Hs.
  destruct Hs as (Hn & (Hb & Hbl & Hbr) & _).
  pose proof Hu0 as HU. cbn [uniq addrs] in HU. destruct_and ? HU.
  unfold delete2.
  distinct [s; b]. exec.
  eexists; split; [reflexivity|]; cbn [nodes tree freed root size].
  split_and!; [|done|done].
  match goal with
  | |- rep (mkMem (delete _ ?h') _ _) _ =>
    assert (HS : same_except [b] h h') by same_tac
  end.
  apply rep_free.
  - cbn [shape top]. split_and!; first [lk | untouched HS].
  - reflexivity.
  - cbn [uniq]. by split_and!.
  - cbn [addrs]. set_solver.
Qed.

Lemma delete2_L_rep m f up s cs x b cb bl z br :
  rep m (plug (f :: up) (Br s cs (Br b cb bl z br) x Leaf)) ->
  right_present f -> sib_differs compFunc f x ->
  exists m',
    delete2 compFunc (Some s) SideL m = Done tt m'
    /\ rep m' (plug (f :: up) (Br b BLACK bl z br))
    /\ size (tree m') = size (tree m) /\ freed m' = freed m ++ [x].
Proof.
  destruct m as [h tr fr]. intros (Hs & Hroot & Hu0) Hpres Hdiff.
  cbn [nodes tree freed] in *.
  apply shape_plug in Hs. destruct Hs as (Hup & Hn). cbn [shape top ctx_top] in Hn.
  destruct Hn as (Hn & (Hb & Hbl & Hbr) & _).
  pose proof Hu0 as HU. apply uniq_plug in HU.
  unfold delete2.
  destruct f as [[] p cp dp [|y cy yl dy yr]];
    cbn [shape_ctx frame_node fdir faddr fcolor fdata fsib top ctx_top shape] in Hup, Hn, Hb;
    unfold sib_differs in Hdiff; cbn [fdir fsib] in Hdiff;
    unfold right_present in Hpres; cbn [fdir fsib] in Hpres; try done;
    cbn [uniq uniq_ctx addrs addrs_ctx fdir faddr fcolor fdata fsib] in HU;
    destruct_and ? HU; destruct_and ? Hup.
  - apply Z.eqb_neq in Hdiff. distinct [s; p; y; b]. exec. rewrite Hdiff. exec.
    unlink_fin h [p; b].
  - distinct [s; p; b]. exec. rewrite (cmp_same_test compFunc). exec. unlink_fin h [p; b].
  - distinct [s; p; y; b]. exec. rewrite (cmp_same_test compFunc). exec. unlink_fin h [p; b].
Qed.

End Delete12.

(** ** Deleting where the unlinked node is RED or has a RED child *)

Section Spliced.

Context {A : Type}.
Implicit Types (t l r s : btree A) (fs up sp : list (frame A)).

Lemma spliced_defined k a c l x r :
  rbt k (Br a c l x r) -> l = Leaf \/ r = Leaf ->
  red_at_hand (Br a c l x r) = true ->
  exists t', spliced (Br a c l x r) = Some t'.
Proof.
  intros Hk Hleaf Hred. apply rbt_inv in Hk. cbn [red_at_hand] in Hred.
  destruct c.
  - destruct Hk as ((Hl & _) & (Hr & _) & Hcl & Hcr).
    destruct Hleaf as [-> | ->]; cbn in Hl, Hr.
    + injection Hl as <-. destruct r as [|b [] bl z br]; [by eexists | done |].
      cbn in Hr. destruct (black_height bl), (black_height br); try done.
      by destruct (decide _).
    + injection Hr as <-. destruct l as [|b [] bl z br]; [by eexists | done |].
      cbn in Hl. destruct (black_height bl), (black_height br); try done.
      by destruct (decide _).
  - destruct Hk as (k' & -> & (Hl & _) & (Hr & _)).
    destruct Hleaf as [-> | ->]; cbn in Hl, Hr, Hred.
    + destruct r as [|b [] bl z br]; [done | by eexists | done].
    + destruct l as [|b [] bl z br]; [done | by eexists | done].
Qed.

Lemma spliced_rbt k s t' :
  rbt k s -> spliced s = Some t' -> rbt k t' /\ root_color t' = BLACK.
Proof.
  intros Hk Hsp.
  destruct s as [|a [] [|b [] bl z br] x [|b' [] bl' z' br']]; try done;
    cbn [spliced] in Hsp; injection Hsp as <-; apply rbt_inv in Hk.
  - split; [|done]. by destruct Hk as (? & _).
  - destruct Hk as (k' & -> & _ & Hr). apply rbt_inv in Hr as (Hl' & Hr' & _).
    split; [|done]. by apply rbt_black.
  - destruct Hk as (k' & -> & Hl & _). apply rbt_inv in Hl as (Hl' & Hr' & _).
    split; [|done]. by apply rbt_black.
Qed.

Lemma spliced_inorder a c l x r t' :
  spliced (Br a c l x r) = Some t' -> inorder t' = inorder l ++ inorder r.
Proof.
  intros Hsp.
  destruct c, l as [|b [] bl z br], r as [|b' [] bl' z' br']; try done;
    cbn [spliced] in Hsp; injection Hsp as <-; cbn [inorder app];
    first [done | by rewrite app_nil_r].
Qed.

Lemma spliced_element a c l x y r :
  spliced (Br a c l x r) = spliced (Br a c l y r).
Proof. done. Qed.

Lemma ctx_rb_right_present (f : frame A) up k : ctx_rb (f :: up) (S k) -> right_present f.
Proof.
  destruct f as [[] a c d [|? ? ? ? ?]]; cbn; try done.
  intros ((Hh & _) & _). done.
Qed.

End Spliced.

Section EasyCases.

Context {A : Type} (compFunc : A -> A -> Z) `{!Comparator compFunc}.
Implicit Types (t l r : btree A) (fs up sp : list (frame A)).

Local Abbreviation lt := (precedes compFunc).

(** [fixTreeDelete] on a RED node, or a BLACK node with a RED child. *)
Lemma fixTreeDelete_spliced (m : mem A) fs s cs sl x sr t' :
  rep m (plug fs (Br s cs sl x sr)) ->
  spliced (Br s cs sl x sr) = Some t' ->
  match fs with
  | [] => cs = BLACK /\ sr = Leaf
  | f :: _ => (cs = BLACK -> right_present f) /\ sib_differs compFunc f x
  end ->
  exists m',
    fixTreeDelete compFunc (Some s) m = Done tt m'
    /\ rep m' (plug fs t')
    /\ size (tree m') = size (tree m) /\ freed m' = freed m ++ [x].
Proof.
  intros Hrep Hsp Hside. pose proof Hrep as (Hs & _ & _).
  destruct (shape_plug_sub _ _ _ _ Hs) as (par & Hn).
  destruct m as [h tr fr]. cbn [nodes] in *.
  unfold fixTreeDelete.
  destruct cs, sl as [|b [] bl z br], sr as [|b' [] bl' z' br']; try done;
    cbn [spliced] in Hsp; injection Hsp as <-;
    cbn [shape top] in Hn; destruct_and ? Hn.
  - exec. destruct fs as [|f up]; [by destruct Hside|]. destruct Hside as (_ & Hd).
    by eapply delete1_rep.
  - exec. destruct fs as [|f up]; [by destruct Hside|]. destruct Hside as (Hp & Hd).
    eapply delete2_R_rep; eauto.
  - exec. destruct fs as [|f up].
    + by eapply delete2_L_root.
    + destruct Hside as (Hp & Hd). eapply delete2_L_rep; eauto.
Qed.

End EasyCases.

Section DeleteEasy.

Context {A : Type} (compFunc : A -> A -> Z) `{!Comparator compFunc}.
Implicit Types (t l r : btree A) (fs up sp : list (frame A)).

Local Abbreviation lt := (precedes compFunc).

Lemma sorted_without (pre post : list A) x :
  StronglySorted lt (pre ++ x :: post) ->
  StronglySorted lt (pre ++ post) /\ Forall (lt x) post.
Proof.
  rewrite !StronglySorted_app, StronglySorted_cons.
  intros (Hcross & Hpre & Hx & Hpost). split_and!; try done.
  intros x1 x2 H1 H2. apply Hcross; [done|]. by apply list_elem_of_further.
Qed.

Lemma sib_differs_after (f : frame A) up x :
  Forall (lt x) (ctx_after (f :: up)) -> sib_differs compFunc f x.
Proof.
  destruct f as [[] p cp dp [|w cw wl dw wr]]; unfold sib_differs;
    cbn [ctx_after fdir fsib fdata inorder]; try done.
  rewrite Forall_forall. intros Hall.
  apply (precedes_ne compFunc), Hall. set_solver.
Qed.

(** The colour invariants survive the splice. *)
Lemma spliced_colours fs s t' :
  root_black (plug fs s) = true -> no_red_red (plug fs s) = true ->
  balanced (plug fs s) = true -> spliced s = Some t' ->
  root_black (plug fs t') = true /\ no_red_red (plug fs t') = true
  /\ balanced (plug fs t') = true.
Proof.
  intros Hrb Hnrr Hbal Hsp.
  destruct (red_black_plug fs s Hrb Hnrr Hbal) as (k & Hk & Hctx & _).
  destruct (spliced_rbt k s t' Hk Hsp) as (Hk' & Hc).
  by apply (plug_red_black fs k).
Qed.

(** What [fixTreeDelete] needs of the surroundings of the node. *)
Lemma side_conditions fs s cs sl x sr :
  root_black (plug fs (Br s cs sl x sr)) = true ->
  no_red_red (plug fs (Br s cs sl x sr)) = true ->
  balanced (plug fs (Br s cs sl x sr)) = true ->
  Forall (lt x) (ctx_after fs) ->
  match fs with
  | [] => cs = BLACK
  | f :: _ => (cs = BLACK -> right_present f) /\ sib_differs compFunc f x
  end.
Proof.
  intros Hrb Hnrr Hbal Hafter.
  destruct (red_black_plug fs _ Hrb Hnrr Hbal) as (k & Hk & Hctx & Hroot).
  destruct fs as [|f up].
  - apply Hroot. by intros [].
  - split; [|by eapply sib_differs_after]. intros ->.
    apply rbt_inv in Hk as (k' & -> & _). by eapply ctx_rb_right_present.
Qed.

Lemma deleteFromRBTree_found (m : mem A) t d fs a c l x r :
  rep m t -> locate compFunc t d [] = Some (fs, Br a c l x r) ->
  forall res m',
    (suc <- inOrderSuccessor (Some a) ;;
     (match suc with
      | Some _ => treeReplaceNode (Some a) suc ;;; fixTreeDelete compFunc suc
      | None => fixTreeDelete compFunc (Some a)
      end) ;;;
     add_size (-1) ;;; ret 1) m = Done res m' ->
    deleteFromRBTree compFunc TREE (Some d) m = Done res m'.
Proof.
  intros Hrep Hloc res m' Hrest. unfold deleteFromRBTree.
  rewrite (bind_done _ _ _ _ _ (RBTreeContains_eval compFunc m t d Hrep)).
  assert (contains_tree compFunc t d = 1) as ->
    by (apply (locate_contains compFunc t d []); by rewrite Hloc).
  change (1 =? 0) with false. cbv iota.
  destruct Hrep as (Hs & Hroot & Hu). destruct m as [h [rt sz] fr].
  cbn [nodes tree root] in *. subst rt.
  rewrite (bind_done _ _ _ _ _ (get_root_eval _ _ _)). cbn [root].
  rewrite bind_with_gas.
  rewrite (bind_done _ _ _ (Some a)
             (mkMem h (mkRBTree (top t) sz) fr)); [exact Hrest|].
  rewrite (nodeFinder_eval compFunc h _ fr d _ t None [] Hs), Hloc; [done|].
  pose proof (uniq_count _ _ _ Hs Hu). unfold gas. cbn [nodes]. lia.
Qed.

Lemma finish_delete (m m1 : mem A) a suc :
  (match suc with
   | Some _ => treeReplaceNode (Some a) suc ;;; fixTreeDelete compFunc suc
   | None => fixTreeDelete compFunc (Some a)
   end) m = Done tt m1 ->
  inOrderSuccessor (Some a) m = Done suc m ->
  (suc <- inOrderSuccessor (Some a) ;;
   (match suc with
    | Some _ => treeReplaceNode (Some a) suc ;;; fixTreeDelete compFunc suc
    | None => fixTreeDelete compFunc (Some a)
    end) ;;;
   add_size (-1) ;;; ret 1) m
  = Done 1 (mkMem (nodes m1) (mkRBTree (root (tree m1)) (size (tree m1) - 1)) (freed m1)).
Proof.
  intros Hfix Hsuc. rewrite (bind_done _ _ _ _ _ Hsuc), (bind_done _ _ _ _ _ Hfix).
  destruct m1 as [h1 [rt1 sz1] fr1]. reflexivity.
Qed.

Lemma deleteFromRBTree_spliced (m : mem A) t d fs s :
  rep m t -> root_black t = true -> no_red_red t = true -> balanced t = true ->
  StronglySorted lt (inorder t) ->
  unlinked compFunc t d = Some (fs, s) -> red_at_hand s = true ->
  exists m' t' pre x post,
    deleteFromRBTree compFunc TREE (Some d) m = Done 1 m'
    /\ rep m' t'
    /\ root_black t' = true /\ no_red_red t' = true /\ balanced t' = true
    /\ compFunc x d = 0
    /\ inorder t = pre ++ x :: post /\ inorder t' = pre ++ post
    /\ size (tree m') = size (tree m) - 1 /\ freed m' = freed m ++ [x].
Proof.
  intros Hrep Hrb Hnrr Hbal Hsorted Hun Hred. unfold unlinked in Hun.
  destruct (locate compFunc t d []) as [[fs0 [|a c l x r]]|] eqn:Hloc; try done.
  destruct (locate_plug compFunc t d [] _ _ Hloc) as (Hplug & _ & _ & _ & _ & _ & [= <- <- <- <- <-] & Hxd).
  cbn [plug] in Hplug.
  pose proof (deleteFromRBTree_found m t d fs0 a c l x r Hrep Hloc) as Hfound.
  destruct r as [|ra rc rl rx rr].
  - (* the node found has no right child and is unlinked itself *)
    injection Hun as <- <-. subst t.
    pose proof (inOrderSuccessor_eval m fs0 a c l x Leaf Hrep) as Hsuc.
    cbn [leftmost snd top] in Hsuc.
    destruct (red_black_plug fs0 _ Hrb Hnrr Hbal) as (k & Hk & Hctx & Hroot).
    destruct (spliced_defined k a c l x Leaf Hk (or_intror eq_refl) Hred) as (t' & Hsp).
    assert (inorder (plug fs0 (Br a c l x Leaf))
            = (ctx_before fs0 ++ inorder l) ++ x :: ctx_after fs0) as Hin.
    { rewrite inorder_plug. cbn [inorder]. list_eq. }
    rewrite Hin in Hsorted. apply sorted_without in Hsorted as (Hsorted' & Hafter).
    pose proof (side_conditions fs0 a c l x Leaf Hrb Hnrr Hbal Hafter) as Hside.
    destruct (fixTreeDelete_spliced compFunc m fs0 a c l x Leaf t' Hrep Hsp)
      as (m1 & Hfix & Hrep1 & Hsz & Hfr).
    { destruct fs0; [by split | done]. }
    exists (mkMem (nodes m1) (mkRBTree (root (tree m1)) (size (tree m1) - 1)) (freed m1)),
      (plug fs0 t'), (ctx_before fs0 ++ inorder l), x, (ctx_after fs0).
    split_and!.
    + apply Hfound. by apply (finish_delete m m1 a None).
    + destruct Hrep1 as (? & ? & ?). by split_and!.
    + by eapply spliced_colours.
    + by eapply spliced_colours.
    + by eapply spliced_colours.
    + done.
    + done.
    + rewrite inorder_plug, (spliced_inorder _ _ _ _ _ _ Hsp). cbn [inorder]. list_eq.
    + cbn [tree size]. by rewrite Hsz.
    + done.
  - (* the first node of the right subtree is unlinked, after the exchange *)
    remember (Br ra rc rl rx rr) as r eqn:Hr.
    assert (r <> Leaf) as Hne by (by subst r).
    assert (leftmost r (F Rgt a c x l :: fs0) = (fs, s)) as Hlm
      by (subst r; by injection Hun).
    clear Hun Hr ra rc rl rx rr.
    destruct (leftmost_plug r _ _ _ Hlm) as (Hshape & sp & -> & Hlefts & Hsp & Hinr).
    destruct (Hshape Hne) as (b & cb & y & sr & ->). clear Hshape.
    assert (t = plug (sp ++ F Rgt a c x l :: fs0) (Br b cb Leaf y sr)) as Ht.
    { rewrite plug_app. cbn [plug]. unfold plug1. cbn [fdir faddr fcolor fdata fsib].
      by rewrite Hsp. }
    pose proof (inOrderSuccessor_eval m fs0 a c l x r ltac:(by rewrite Hplug)) as Hsuc.
    rewrite Hlm in Hsuc. cbn [snd top] in Hsuc.
    (* the two nodes in the store *)
    pose proof Hrep as (Hs & _ & Hu).
    assert (exists na, nodes m !! a = Some na /\ data na = x) as (na & Hna & Hdx).
    { rewrite <- Hplug in Hs. apply shape_plug in Hs as (_ & Hs).
      cbn [shape] in Hs. destruct Hs as (Hs & _). by eexists. }
    assert (exists ns, nodes m !! b = Some ns /\ data ns = y) as (ns & Hns & Hdy).
    { rewrite Ht in Hs. apply shape_plug in Hs as (_ & Hs).
      cbn [shape] in Hs. destruct Hs as (Hs & _). by eexists. }
    assert (a <> b) as Hab.
    { rewrite Ht in Hu. apply uniq_plug in Hu as (_ & _ & Hd).
      rewrite addrs_ctx_app in Hd. cbn [addrs_ctx addrs faddr] in Hd. set_solver. }
    destruct (treeReplaceNode_rep m t a b na ns Hrep Hna Hns Hab)
      as (m2 & Hswap & Hrep2 & Hsz2 & Hfr2).
    rewrite Hdx, Hdy in Hrep2.
    destruct (with_element_colours b x (with_element a y t)) as (Hc1 & Hc2 & Hc3).
    destruct (with_element_colours a y t) as (Hc4 & Hc5 & Hc6).
    assert (with_element b x (with_element a y t)
            = plug (sp ++ F Rgt a c y l :: fs0) (Br b cb Leaf x sr)) as Hswapped.
    { rewrite Ht. apply swap_plug. by rewrite <- Ht. }
    rewrite Hswapped in Hrep2, Hc1, Hc2, Hc3.
    assert (root_black (plug (sp ++ F Rgt a c y l :: fs0) (Br b cb Leaf x sr)) = true)
      as Hrb2 by (unfold root_black in *; by rewrite Hc1, Hc4).
    assert (no_red_red (plug (sp ++ F Rgt a c y l :: fs0) (Br b cb Leaf x sr)) = true)
      as Hnrr2 by (by rewrite Hc2, Hc5).
    assert (balanced (plug (sp ++ F Rgt a c y l :: fs0) (Br b cb Leaf x sr)) = true)
      as Hbal2 by (unfold balanced in *; by rewrite Hc3, Hc6).
    destruct (red_black_plug _ _ Hrb2 Hnrr2 Hbal2) as (k & Hk & _ & _).
    destruct (spliced_defined k b cb Leaf x sr Hk (or_introl eq_refl) Hred) as (t' & Hspl).
    (* the order *)
    assert (inorder t = (ctx_before fs0 ++ inorder l) ++ x :: (inorder r ++ ctx_after fs0))
      as Hin.
    { rewrite <- Hplug, inorder_plug. cbn [inorder]. list_eq. }
    rewrite Hin in Hsorted. apply sorted_without in Hsorted as (Hsorted' & Hafter).
    assert (Forall (lt x) (ctx_after (sp ++ F Rgt a c y l :: fs0))) as Hafter2.
    { rewrite ctx_after_app. cbn [ctx_after fdir]. rewrite Hinr in Hafter.
      cbn [inorder app] in Hafter.
      repeat (rewrite Forall_app in Hafter || rewrite Forall_cons in Hafter).
      rewrite Forall_app. by destruct_and!. }
    pose proof (side_conditions _ b cb Leaf x sr Hrb2 Hnrr2 Hbal2 Hafter2) as Hside.
    destruct (fixTreeDelete_spliced compFunc m2 _ b cb Leaf x sr t' Hrep2 Hspl)
      as (m1 & Hfix & Hrep1 & Hsz & Hfr).
    { destruct sp; exact Hside. }
    exists (mkMem (nodes m1) (mkRBTree (root (tree m1)) (size (tree m1) - 1)) (freed m1)),
      (plug (sp ++ F Rgt a c y l :: fs0) t'), (ctx_before fs0 ++ inorder l), x,
      (inorder r ++ ctx_after fs0).
    split_and!.
    + apply Hfound. apply (finish_delete m m1 a (Some b)); [|done].
      by rewrite (bind_done _ _ _ _ _ Hswap).
    + destruct Hrep1 as (? & ? & ?). by split_and!.
    + by eapply spliced_colours.
    + by eapply spliced_colours.
    + by eapply spliced_colours.
    + done.
    + done.
    + rewrite inorder_plug, (spliced_inorder _ _ _ _ _ _ Hspl), Hinr.
      rewrite ctx_before_app, ctx_after_app, (ctx_before_lefts sp Hlefts).
      cbn [inorder ctx_before ctx_after fdir fdata fsib]. list_eq.
    + cbn [tree size]. by rewrite Hsz, Hsz2.
    + cbn [freed]. by rewrite Hfr, Hfr2.
Qed.

End DeleteEasy.

(** X10.  Deleting where a RED node is at hand.  [deleteFromRBTree]
    hands to [fixTreeDelete] the node found for [d], or the first node
    in-order of its right subtree after exchanging the two elements.
    When that node is RED, or BLACK with a RED child, the deletion of
    [d] from a stored red-black tree returns 1, leaves a stored
    red-black tree whose in-order sequence is the old one without the
    one element [x] that compares equal to [d], lowers [size] by one
    and calls [freeFunc] on [x] and on nothing else. *)
Theorem delete_with_red_at_hand {A : Type} (compFunc : A -> A -> Z)
    (m : mem A) (t : btree A) (d : A) (fs : list (frame A)) (s : btree A) :
  Comparator compFunc ->
  tree_of m = Some t -> red_black compFunc t = true ->
  unlinked compFunc t d = Some (fs, s) -> red_at_hand s = true ->
  exists m' t' pre x post,
    deleteFromRBTree compFunc TREE (Some d) m = Done 1 m'
    /\ tree_of m' = Some t' /\ red_black compFunc t' = true
    /\ compFunc x d = 0
    /\ inorder t = pre ++ x :: post /\ inorder t' = pre ++ post
    /\ size (tree m') = size (tree m) - 1 /\ freed m' = freed m ++ [x].
Proof.
  intros Hcmp Ht Hrbt Hun Hred. apply rep_tree_of in Ht.
  apply (red_black_parts compFunc) in Hrbt as (Hrb & Hnrr & Hbal & Hsorted).
  destruct (deleteFromRBTree_spliced compFunc m t d fs s Ht Hrb Hnrr Hbal Hsorted Hun Hred)
    as (m' & t' & pre & x & post & Hdel & Hrep' & Hrb' & Hnrr' & Hbal' & Hxd & Hin & Hin'
        & Hsz & Hfr).
  exists m', t', pre, x, post. split_and!; try done.
  - by apply rep_tree_of.
  - apply (red_black_parts compFunc). split_and!; try done.
    rewrite Hin'. rewrite Hin in Hsorted.
    by apply (sorted_without compFunc) in Hsorted as (? & _).
Qed.

Lemma delete_with_red_at_hand_witness :
  exists m t fs s,
    final (run (map insertZ [1; 2; 3; 4; 5]) newRBTree) = Some m
    /\ tree_of m = Some t /\ red_black intCompare t = true
    /\ unlinked intCompare t 4 = Some (fs, s) /\ red_at_hand s = true
    /\ exists m' t' pre x post,
         deleteFromRBTree intCompare TREE (Some 4) m = Done 1 m'
         /\ tree_of m' = Some t' /\ red_black intCompare t' = true
         /\ intCompare x 4 = 0
         /\ inorder t = pre ++ x :: post /\ inorder t' = pre ++ post
         /\ size (tree m') = size (tree m) - 1 /\ freed m' = freed m ++ [x].
Proof.
  destruct (run (map insertZ [1; 2; 3; 4; 5]) newRBTree) as [rs m| |] eqn:Hrun;
    [|vm_compute in Hrun; discriminate Hrun ..].
  vm_compute in Hrun. injection Hrun as _ Hm.
  destruct (tree_of m) as [t|] eqn:Ht; [|rewrite <- Hm in Ht; vm_compute in Ht; discriminate Ht].
  pose proof Ht as Ht'. rewrite <- Hm in Ht'. vm_compute in Ht'. injection Ht' as Ht'.
  destruct (unlinked intCompare t 4) as [[fs s]|] eqn:Hun;
    [|rewrite <- Ht' in Hun; vm_compute in Hun; discriminate Hun].
  pose proof Hun as Hun'. rewrite <- Ht' in Hun'. vm_compute in Hun'.
  injection Hun' as Hfs Hs.
  assert (red_black intCompare t = true) as Hrbt by (rewrite <- Ht'; reflexivity).
  assert (red_at_hand s = true) as Hred by (rewrite <- Hs; reflexivity).
  exists m, t, fs, s.
  split_and!; [reflexivity | exact Ht | exact Hrbt | exact Hun | exact Hred |].
  exact (delete_with_red_at_hand intCompare m t 4 fs s intCompare_comparator Ht Hrbt Hun Hred).
Defined.

(** ** The vector comparator as an order *)

Section DoubleOrder.

Ltac by_cases :=
  repeat match goal with
         | H : context [Pos.compare_cont Eq ?a ?b] |- _ =>
           change (Pos.compare_cont Eq a b) with (a ?= b)%positive in H
         | |- context [Pos.compare_cont Eq ?a ?b] =>
           change (Pos.compare_cont Eq a b) with (a ?= b)%positive
         end;
  repeat match goal with
         | H : context [(?a ?= ?b)%Z] |- _ => destruct (Z.compare_spec a b)
         | |- context [(?a ?= ?b)%Z] => destruct (Z.compare_spec a b)
         | H : context [(?a ?= ?b)%positive] |- _ => destruct (Pos.compare_spec a b)
         | |- context [(?a ?= ?b)%positive] => destruct (Pos.compare_spec a b)
         end;
  cbn [CompOpp] in *; first [done | congruence | lia].

(** [SFcompare] orders the numbers: smaller-or-equal steps compose. *)
Lemma SFcompare_trans x y z c1 c2 :
  SFcompare x y = Some c1 -> SFcompare y z = Some c2 -> c1 <> Gt -> c2 <> Gt ->
  SFcompare x z = Some match c1, c2 with Eq, Eq => Eq | _, _ => Lt end.
Proof.
  destruct x as [sx|sx| |sx mx ex], y as [sy|sy| |sy my ey], z as [sz|sz| |sz mz ez];
    cbv beta iota delta [SFcompare]; try done;
    intros [= <-] [= <-]; intros H1 H2;
    repeat match goal with s : bool |- _ => destruct s end; try done;
    by_cases.
Qed.

Lemma ltb_compare x y :
  (x <? y)%float = true <-> SFcompare (Prim2SF x) (Prim2SF y) = Some Lt.
Proof.
  rewrite FloatAxioms.ltb_spec. unfold SFltb.
  by destruct (SFcompare (Prim2SF x) (Prim2SF y)) as [[]|].
Qed.

Lemma double_lt_asym x y : (x <? y)%float = true -> (y <? x)%float = false.
Proof.
  rewrite !FloatAxioms.ltb_spec. unfold SFltb.
  rewrite (SFcompare_swap (Prim2SF x) (Prim2SF y)).
  by destruct (SFcompare (Prim2SF x) (Prim2SF y)) as [[]|].
Qed.

(** How two numbers compare: [Lt], [Eq] or [Gt]. *)
Lemma double_compare x y :
  is_nan x = false -> is_nan y = false ->
  SFcompare (Prim2SF x) (Prim2SF y)
  = Some (if (x <? y)%float then Lt else if (y <? x)%float then Gt else Eq).
Proof.
  intros Hx%is_nan_compare Hy%is_nan_compare.
  pose proof (SFcompare_some _ _ Hx Hy) as Hxy.
  rewrite !FloatAxioms.ltb_spec. unfold SFltb.
  rewrite (SFcompare_swap (Prim2SF x) (Prim2SF y)).
  by destruct (SFcompare (Prim2SF x) (Prim2SF y)) as [[]|].
Qed.

(** The outcomes of the two tests of the loop on [x], [z], from those
    on [x], [y] and on [y], [z]. *)
Lemma double_tests_trans x y z :
  is_nan x = false -> is_nan y = false -> is_nan z = false ->
  (y <? x)%float = false -> (z <? y)%float = false ->
  (z <? x)%float = false
  /\ (x <? z)%float = (x <? y)%float || (y <? z)%float.
Proof.
  intros Hx Hy Hz Hyx Hzy.
  pose proof (double_compare x y Hx Hy) as Hxy. rewrite Hyx in Hxy.
  pose proof (double_compare y z Hy Hz) as Hyz. rewrite Hzy in Hyz.
  pose proof (double_compare x z Hx Hz) as Hxz.
  rewrite (SFcompare_trans _ _ _ _ _ Hxy Hyz) in Hxz.
  - pose proof (double_lt_asym x z) as Hasym.
    destruct (x <? y)%float, (y <? z)%float, (x <? z)%float, (z <? x)%float;
      cbn in Hxz |- *; first [done | by specialize (Hasym eq_refl)].
  - by destruct (x <? y)%float.
  - by destruct (y <? z)%float.
Qed.

End DoubleOrder.

Section VectorOrder.

Implicit Types (av bv cv : list float) (a b c : Vector).

Local Abbreviation vec av := (mkVector (Z.of_nat (length av)) av).

Lemma compare_from_swap todo : forall i av bv,
  compare_from todo i bv av = option_map (option_map Z.opp) (compare_from todo i av bv).
Proof.
  induction todo as [|todo IH]; intros i av bv; cbn [compare_from]; [done|].
  destruct (av !! i) as [x|], (bv !! i) as [y|]; try done.
  destruct (x <? y)%float eqn:Hxy.
  - by rewrite (double_lt_asym x y Hxy).
  - destruct (y <? x)%float; [done | apply IH].
Qed.

Lemma min_comm (n k : Z) : min n k = min k n.
Proof. unfold min. destruct (Z.gtb_spec n k), (Z.gtb_spec k n); lia. Qed.

Lemma vectorCompare1By1_nil_l bv :
  vectorCompare1By1 (vec (@nil float)) (vec bv) = Some (if decide (bv = []) then 0 else -1).
Proof. by destruct bv. Qed.

Lemma vectorCompare1By1_nil_r av :
  vectorCompare1By1 (vec av) (vec (@nil float)) = Some (if decide (av = []) then 0 else 1).
Proof.
  destruct av as [|x av]; [done|]. unfold vectorCompare1By1. cbn [len vector].
  rewrite min_nat. cbn [length Nat.min compare_from]. rewrite decide_False by done.
  destruct (Z.eqb_spec (Z.of_nat (S (length av))) (Z.of_nat 0)); [lia|].
  destruct (Z.ltb_spec (Z.of_nat (S (length av))) (Z.of_nat 0)); [lia|done].
Qed.

Lemma vectorCompare1By1_cons x y av bv :
  vectorCompare1By1 (vec (x :: av)) (vec (y :: bv))
  = if (x <? y)%float then Some (-1)
    else if (y <? x)%float then Some 1
    else vectorCompare1By1 (vec av) (vec bv).
Proof.
  unfold vectorCompare1By1. cbn [len vector]. rewrite !min_nat.
  cbn [length Nat.min compare_from]. change ((x :: av) !! 0%nat) with (Some x).
  change ((y :: bv) !! 0%nat) with (Some y). cbv iota.
  destruct (x <? y)%float; [done|]. destruct (y <? x)%float; [done|].
  rewrite compare_from_cons.
  destruct (compare_from _ 0 av bv) as [[r|]|]; try done.
  assert ((Z.of_nat (S (length av)) =? Z.of_nat (S (length bv)))
          = (Z.of_nat (length av) =? Z.of_nat (length bv))) as ->.
  { destruct (Z.eqb_spec (Z.of_nat (S (length av))) (Z.of_nat (S (length bv)))),
      (Z.eqb_spec (Z.of_nat (length av)) (Z.of_nat (length bv))); first [done | lia]. }
  assert ((Z.of_nat (S (length av)) <? Z.of_nat (S (length bv)))
          = (Z.of_nat (length av) <? Z.of_nat (length bv))) as ->; [|done].
  destruct (Z.ltb_spec (Z.of_nat (S (length av))) (Z.of_nat (S (length bv)))),
    (Z.ltb_spec (Z.of_nat (length av)) (Z.of_nat (length bv))); first [done | lia].
Qed.

Lemma vectorCompare1By1_trans av : forall bv cv r1 r2,
  forallb (fun x => negb (is_nan x)) av = true ->
  forallb (fun x => negb (is_nan x)) bv = true ->
  forallb (fun x => negb (is_nan x)) cv = true ->
  vectorCompare1By1 (vec av) (vec bv) = Some r1 -> r1 <= 0 ->
  vectorCompare1By1 (vec bv) (vec cv) = Some r2 -> r2 <= 0 ->
  vectorCompare1By1 (vec av) (vec cv) = Some (if decide (r1 = 0 /\ r2 = 0) then 0 else -1).
Proof.
  induction av as [|x av IH]; intros bv cv r1 r2 Ha Hb Hc.
  - rewrite !vectorCompare1By1_nil_l. intros [= <-] _.
    destruct bv as [|y bv].
    + rewrite vectorCompare1By1_nil_l. intros [= <-] _.
      destruct cv; cbn; done.
    + destruct cv as [|z cv].
      * rewrite vectorCompare1By1_nil_r. cbn. intros [= <-]. lia.
      * intros _ _. cbn. done.
  - destruct bv as [|y bv].
    { rewrite vectorCompare1By1_nil_r. cbn. intros [= <-]. lia. }
    destruct cv as [|z cv].
    { intros _ _. rewrite vectorCompare1By1_nil_r. cbn. intros [= <-]. lia. }
    cbn [forallb] in Ha, Hb, Hc.
    apply andb_true_iff in Ha as (Hx & Ha), Hb as (Hy & Hb), Hc as (Hz & Hc).
    apply negb_true_iff in Hx, Hy, Hz.
    rewrite !vectorCompare1By1_cons.
    destruct (y <? x)%float eqn:Hyx.
    { rewrite (double_lt_asym y x Hyx). intros [= <-]. lia. }
    destruct (z <? y)%float eqn:Hzy.
    { intros _ _. rewrite (double_lt_asym z y Hzy). intros [= <-]. lia. }
    destruct (double_tests_trans x y z Hx Hy Hz Hyx Hzy) as (-> & ->).
    destruct (x <? y)%float, (y <? z)%float; cbn [orb].
    + intros [= <-] _ [= <-] _. done.
    + intros [= <-] _ _ _. done.
    + intros H1 H1' [= <-] _. f_equal. destruct (decide _) as [[_ ?]|]; done.
    + apply IH; done.
Qed.

End VectorOrder.

(** X11.  Exchanging the two arguments of [vectorCompare1By1] negates
    its result, for all vectors, NaN components included; a component
    is read outside its array for the one order exactly when it is for
    the other. *)
Theorem vectorCompare1By1_swap (a b : Vector) :
  vectorCompare1By1 b a = option_map Z.opp (vectorCompare1By1 a b).
Proof.
  unfold vectorCompare1By1. rewrite (min_comm (len b) (len a)), compare_from_swap.
  destruct (compare_from _ 0 (vector a) (vector b)) as [[r|]|]; cbn [option_map]; try done.
  f_equal.
  destruct (Z.eqb_spec (len a) (len b)), (Z.eqb_spec (len b) (len a)),
    (Z.ltb_spec (len a) (len b)), (Z.ltb_spec (len b) (len a)); first [done | lia].
Qed.

(** X12.  On vectors whose [len] is their number of components and
    whose components are numbers (no NaN), [vectorCompare1By1] is an
    order: a vector compares equal to itself, and from [a] not after
    [b] and [b] not after [c] it follows that [a] is not after [c],
    with the result 0 when both steps gave 0 and -1 otherwise. *)
Theorem vectorCompare1By1_order (a b c : Vector) :
  sized a -> sized b -> sized c ->
  numbers a = true -> numbers b = true -> numbers c = true ->
  vectorCompare1By1 a a = Some 0
  /\ forall r1 r2,
       vectorCompare1By1 a b = Some r1 -> vectorCompare1By1 b c = Some r2 ->
       r1 <= 0 -> r2 <= 0 ->
       vectorCompare1By1 a c = Some (if decide (r1 = 0 /\ r2 = 0) then 0 else -1).
Proof.
  destruct a as [alen av], b as [blen bv], c as [clen cv]. unfold sized, numbers.
  cbn [len vector]. intros -> -> -> Ha Hb Hc. split.
  - clear Ha. induction av as [|x av IH]; [done|].
    rewrite vectorCompare1By1_cons.
    destruct (x <? x)%float eqn:Hxx; [|exact IH].
    by rewrite (double_lt_asym x x Hxx) in Hxx.
  - intros r1 r2 H1 H2 Hr1 Hr2. by apply (vectorCompare1By1_trans av bv cv).
Qed.

Lemma vectorCompare1By1_order_witness :
  let a := mkVector 2 [1.5%float; 2%float] in
  let b := mkVector 3 [1.5%float; 2%float; 0%float] in
  let c := mkVector 2 [1.5%float; 3%float] in
  (sized a /\ sized b /\ sized c)
  /\ (numbers a = true /\ numbers b = true /\ numbers c = true)
  /\ vectorCompare1By1 a b = Some (-1) /\ vectorCompare1By1 b c = Some (-1)
  /\ vectorCompare1By1 a a = Some 0
  /\ vectorCompare1By1 a c = Some (-1).
Proof.
  intros a b c.
  split; [by split_and!|]. split; [by split_and!|].
  split; [reflexivity|]. split; [reflexivity|].
  destruct (vectorCompare1By1_order a b c) as (Hrefl & Htrans); try reflexivity.
  split; [exact Hrefl|].
  exact (Htrans (-1) (-1) eq_refl eq_refl ltac:(lia) ltac:(lia)).
Defined.

(** ** The helpers of the insertion *)

Section Helpers.

Context {A : Type} (compFunc : A -> A -> Z).
Implicit Types (t l r : btree A) (fs up : list (frame A)) (h : gmap positive (Node A)).

(** [treeRBinsert] when the descent meets an element equal to the new
    one: only the comparison at the node it is called on decides the
    result, and nothing is written. *)
Lemma treeRBinsert_duplicate h tr fr n nn d fuel : forall t par,
  shape h par t -> h !! n = Some nn -> data nn = d ->
  contains_tree compFunc t d = 1 -> (count t < fuel)%nat ->
  treeRBinsert compFunc fuel (top t) (Some n) (mkMem h tr fr)
  = Done match t with
         | Leaf => 0
         | Br _ _ _ x _ => if compFunc x d =? 0 then 0 else 1
         end (mkMem h tr fr).
Proof.
  induction fuel as [|fuel IH]; intros t par Hs Hn Hd Hc Hcount; [lia|].
  destruct t as [|a c l x r]; [done|].
  cbn [shape] in Hs. destruct Hs as (Ha & Hl & Hr).
  cbn [treeRBinsert contains_tree top count] in *. exec. rewrite Hd.
  destruct (compFunc x d =? 0); [done|].
  destruct (compFunc x d <? 0).
  - destruct r as [|b cb bl xb br]; [done|]. exec.
    rewrite (bind_done _ _ _ _ _ (IH (Br b cb bl xb br) _ Hr Hn Hd Hc ltac:(lia))).
    done.
  - destruct l as [|b cb bl xb br]; [done|]. exec.
    rewrite (bind_done _ _ _ _ _ (IH (Br b cb bl xb br) _ Hl Hn Hd Hc ltac:(lia))).
    done.
Qed.

End Helpers.

(** X13.  [getUncle] on a node of a stored tree with ascending
    elements: NULL for the root and for a child of the root, otherwise
    the other child of the grandparent, NULL when there is none.  It
    tells the parent from the uncle by comparing elements. *)
Theorem getUncle_is_the_parents_sibling {A : Type} (compFunc : A -> A -> Z)
    (m : mem A) (fs : list (frame A)) n cn nl dn nr :
  Comparator compFunc ->
  tree_of m = Some (plug fs (Br n cn nl dn nr)) ->
  ascending compFunc (inorder (plug fs (Br n cn nl dn nr))) = true ->
  getUncle compFunc (Some n) m
  = Done match fs with
         | _ :: g :: _ => top (fsib g)
         | _ => None
         end m.
Proof.
  intros Hcmp Ht Hasc. apply rep_tree_of in Ht as (Hs & Hroot & Hu).
  apply (ascending_sorted compFunc) in Hasc.
  pose proof (sorted_keys_inj compFunc _ Hasc) as Hinj.
  destruct m as [h tr fr]. cbn [nodes] in Hs.
  destruct fs as [|[d p cp dp s] up].
  - cbn [plug shape] in Hs. destruct Hs as (Hn & _). unfold getUncle. exec. reflexivity.
  - rewrite (getUncle_eval compFunc h tr fr d p cp dp s up n cn nl dn nr Hs Hu Hinj).
    by destruct up.
Qed.

Lemma getUncle_is_the_parents_sibling_witness :
  exists m,
    final (run (map insertZ [2; 1; 3; 4]) newRBTree) = Some m
    /\ tree_of m
       = Some (plug [F Rgt 3 BLACK 3 Leaf; F Rgt 1 BLACK 2 (Br 2 BLACK Leaf 1 Leaf)]
                    (Br 4 RED Leaf 4 Leaf))
    /\ getUncle intCompare (Some 4%positive) m = Done (Some 2%positive) m.
Proof.
  destruct (run (map insertZ [2; 1; 3; 4]) newRBTree) as [rs m| |] eqn:Hrun;
    [|vm_compute in Hrun; discriminate Hrun ..].
  vm_compute in Hrun. injection Hrun as _ Hm.
  assert (tree_of m
          = Some (plug [F Rgt 3 BLACK 3 Leaf; F Rgt 1 BLACK 2 (Br 2 BLACK Leaf 1 Leaf)]
                       (Br 4 RED Leaf 4 Leaf)))
    as Ht by (rewrite <- Hm; vm_compute; reflexivity).
  exists m. split_and!; [reflexivity | exact Ht |].
  exact (getUncle_is_the_parents_sibling intCompare m _ 4%positive RED Leaf 4 Leaf
           intCompare_comparator Ht eq_refl).
Defined.

(** X14.  [treeRBinsert] reports a duplicate only at the node it is
    called on.  When the descent for the element of the new node meets
    an equal element, it returns 0 if that element is in the node it
    was called on and 1 if it is further down (the result of the
    recursive call is dropped); in both cases nothing is written and
    the new node stays unlinked. *)
Theorem treeRBinsert_duplicate_below {A : Type} (compFunc : A -> A -> Z)
    (m : mem A) a c l x r (n : positive) (nn : Node A) :
  tree_of m = Some (Br a c l x r) ->
  nodes m !! n = Some nn ->
  contains_tree compFunc (Br a c l x r) (data nn) = 1 ->
  treeRBinsert compFunc (gas m) (root (tree m)) (Some n) m
  = Done (if compFunc x (data nn) =? 0 then 0 else 1) m.
Proof.
  intros Ht Hn Hc. apply rep_tree_of in Ht as (Hs & Hroot & Hu).
  destruct m as [h [rt sz] fr]. cbn [nodes tree root] in *. subst rt.
  apply (treeRBinsert_duplicate compFunc h _ fr n nn (data nn) _ (Br a c l x r) None);
    try done.
  pose proof (uniq_count _ _ _ Hs Hu). unfold gas. cbn [nodes]. lia.
Qed.

Lemma treeRBinsert_duplicate_below_witness :
  exists m0 m n,
    final (run (map insertZ [2; 1; 3]) newRBTree) = Some m0
    /\ new_node bump 3 m0 = Done (Some n) m
    /\ tree_of m = Some (Br 1 BLACK (Br 2 RED Leaf 1 Leaf) 2 (Br 3 RED Leaf 3 Leaf))
    /\ treeRBinsert intCompare (gas m) (root (tree m)) (Some n) m = Done 1 m.
Proof.
  destruct (run (map insertZ [2; 1; 3]) newRBTree) as [rs m0| |] eqn:Hrun;
    [|vm_compute in Hrun; discriminate Hrun ..].
  vm_compute in Hrun. injection Hrun as _ Hm0.
  destruct (new_node bump 3 m0) as [[n|] m| |] eqn:Hnew;
    try (rewrite <- Hm0 in Hnew; vm_compute in Hnew; discriminate Hnew).
  pose proof Hnew as Hnew'. rewrite <- Hm0 in Hnew'. vm_compute in Hnew'.
  injection Hnew' as Hn Hm.
  assert (tree_of m = Some (Br 1 BLACK (Br 2 RED Leaf 1 Leaf) 2 (Br 3 RED Leaf 3 Leaf)))
    as Ht by (rewrite <- Hm; vm_compute; reflexivity).
  assert (nodes m !! n = Some (mkNode 3 RED None None None)) as Hnn
    by (rewrite <- Hm, <- Hn; vm_compute; reflexivity).
  exists m0, m, n. split_and!; [reflexivity | exact Hnew | exact Ht |].
  exact (treeRBinsert_duplicate_below intCompare m _ _ _ _ _ n _ Ht Hnn eq_refl).
Defined.

(** ** The vector of largest norm *)

Section Invariant.

Context {A C : Type} (func : A -> C -> Z * C) (I : C -> Prop).
Implicit Types (t : btree A) (h : gmap positive (Node A)).

Lemma fold_left_invariant (xs : list A) : forall args,
  I args -> (forall x c, x ∈ xs -> I c -> I (func x c).2) ->
  I (fold_left (fun c x => (func x c).2) xs args).
Proof.
  induction xs as [|x xs IH]; intros args Hi Hstep; [done|]. cbn [fold_left].
  apply IH.
  - apply Hstep; [by left | done].
  - intros y c Hy. apply Hstep. by right.
Qed.

(** [forEachHelper] with a visitor that accepts every element as long
    as the contents of [args] satisfy an invariant that it keeps. *)
Lemma forEachHelper_invariant fuel : forall t h tr fr par args seen,
  shape h par t -> (count t < fuel)%nat -> I args ->
  (forall x c, x ∈ inorder t -> I c -> (func x c).1 <> 0 /\ I (func x c).2) ->
  forEachHelper fuel (top t) func args seen (mkMem h tr fr)
  = Done (1, fold_left (fun c x => (func x c).2) (inorder t) args, seen ++ inorder t)
         (mkMem h tr fr).
Proof.
  induction fuel as [|fuel IH]; intros t h tr fr par args seen Hs Hc Hi Hok; [lia|].
  destruct t as [|a c l x r]; cbn [forEachHelper top inorder].
  { cbn. by rewrite app_nil_r. }
  cbn [shape count] in Hs, Hc. destruct Hs as (Ha & Hl & Hr).
  assert (forall y c, y ∈ inorder l -> I c -> (func y c).1 <> 0 /\ I (func y c).2) as Hokl
    by (intros y c' Hy; apply Hok; cbn [inorder]; set_solver).
  assert (forall y c, y ∈ inorder r -> I c -> (func y c).1 <> 0 /\ I (func y c).2) as Hokr
    by (intros y c' Hy; apply Hok; cbn [inorder]; set_solver).
  exec. rewrite (bind_done _ _ _ _ _ (IH l h tr fr (Some a) args seen Hl ltac:(lia) Hi Hokl)).
  exec.
  assert (I (fold_left (fun c x => (func x c).2) (inorder l) args)) as Hil.
  { apply fold_left_invariant; [done|]. intros y c' Hy Hc'. by apply Hokl. }
  destruct (Hok x _ ltac:(cbn [inorder]; set_solver) Hil) as (Hx & Hix).
  destruct (func x _) as [try c'] eqn:Hf. cbn [fst snd] in Hx, Hix.
  destruct (Z.eqb_spec try 0) as [|_]; [done|]. cbn [orb Z.eqb]. exec.
  rewrite (bind_done _ _ _ _ _ (IH r h tr fr (Some a) c' ((seen ++ inorder l) ++ [x]) Hr
                   ltac:(lia) Hix Hokr)).
  cbn [Z.eqb]. rewrite fold_left_app. cbn [fold_left]. rewrite Hf. cbn [snd].
  by rewrite <- !app_assoc.
Qed.

End Invariant.

Section SquareRoot.

Lemma double_lt_trans x y z :
  (x <? y)%float = true -> (y <? z)%float = true -> (x <? z)%float = true.
Proof.
  rewrite !ltb_compare. intros Hxy Hyz.
  by rewrite (SFcompare_trans _ _ _ _ _ Hxy Hyz).
Qed.

(** A square root is not below zero. *)
Lemma sqrt_not_negative x : (PrimFloat.sqrt x <? 0)%float = false.
Proof.
  rewrite FloatAxioms.ltb_spec, FloatAxioms.sqrt_spec. unfold SFltb, SF64sqrt, SFsqrt.
  change (Prim2SF 0) with (S754_zero false).
  destruct (Prim2SF x) as [[]|[]| |[] mx ex]; try done.
  destruct (SFsqrt_core_binary prec emax (Z.pos mx) ex) as [[mz ez] lz].
  unfold binary_round_aux.
  destruct (shr_fexp prec emax mz ez lz) as [mrs' e'].
  destruct (shr_fexp prec emax _ e' loc_Exact) as [mrs'' e''].
  destruct (shr_m mrs'') as [|m|m]; try done.
  by destruct (e'' <=? emax - prec).
Qed.

(** Below a number that is not below zero comes nothing above zero. *)
Lemma double_between x y :
  (x <? 0)%float = false -> (x <? y)%float = true -> (0 <? y)%float = true.
Proof.
  intros Hx0 Hxy. pose proof Hxy as Hc. apply ltb_compare in Hc.
  assert (is_nan x = false /\ is_nan y = false) as (Hnx & Hny).
  { unfold is_nan. rewrite !FloatAxioms.eqb_spec. unfold SFeqb.
    destruct (Prim2SF x) as [[]|[]| |[] mx ex], (Prim2SF y) as [[]|[]| |[] my ey];
      try done; cbn; by rewrite ?Z.compare_refl, ?Pos.compare_cont_refl. }
  pose proof (double_compare 0 x eq_refl Hnx) as H0x. rewrite Hx0 in H0x.
  apply ltb_compare.
  rewrite (SFcompare_trans _ _ _ _ _ H0x Hc); [|by destruct (0 <? x)%float|done].
  by destruct (0 <? x)%float.
Qed.

End SquareRoot.

Section Largest.

Variable pow : float -> float -> float.
Variable realloc_ok : Z -> bool.
Variable junk : float.

Implicit Types (first x y : Vector) (second s : MaxVector) (src buf : list float).

Local Abbreviation norm := (normCalculator pow).

Lemma sum_from_total v : forall todo i sum,
  (i + todo <= length v)%nat -> is_Some (sum_from pow todo i v sum).
Proof.
  induction todo as [|todo IH]; intros i sum Hi; cbn [sum_from]; [done|].
  destruct (lookup_lt_is_Some_2 v i ltac:(lia)) as (x & ->). apply IH. lia.
Qed.

Lemma normCalculator_sized x : sized x -> is_Some (norm x).
Proof.
  unfold sized, normCalculator. intros Hx.
  destruct (sum_from_total (vector x) (Z.to_nat (len x)) 0 0%float ltac:(lia)) as (sum & ->).
  done.
Qed.

Lemma copy_from_all src : forall todo i buf,
  (i + todo)%nat = length src -> length buf = length src ->
  take i buf = take i src ->
  copy_from todo i src (Some buf) = Some (Some src).
Proof.
  induction todo as [|todo IH]; intros i buf Hi Hlen Htake; cbn [copy_from].
  - rewrite !take_ge in Htake by lia. by subst.
  - destruct (lookup_lt_is_Some_2 src i ltac:(lia)) as (x & Hx). rewrite Hx.
    rewrite decide_True by lia. apply IH.
    + lia.
    + by rewrite length_insert.
    + rewrite (take_S_r src i x Hx).
      rewrite (take_S_r (<[i:=x]> buf) i x) by (apply list_lookup_insert_eq; lia).
      by rewrite take_insert_ge, Htake.
Qed.

Lemma length_resized n old : length (resized junk n old) = n.
Proof. unfold resized. rewrite length_app, length_take, length_replicate. lia. Qed.

(** What [copyIfNormIsLarger] does when nothing goes wrong. *)
Lemma copyIfNormIsLarger_step first second :
  sized first -> well_sized second -> realloc_ok (len first) = true ->
  exists larger s',
    null_or_smaller pow first second = Some larger
    /\ copyIfNormIsLarger pow realloc_ok junk first second = Some (1, s')
    /\ well_sized s'
    /\ if larger : bool
       then mlen s' = len first /\ default [] (mvector s') = vector first
       else s' = second.
Proof.
  intros Hf Hs Hre. unfold copyIfNormIsLarger.
  assert (exists larger, null_or_smaller pow first second = Some larger) as (larger & Hl).
  { unfold null_or_smaller. destruct second as [n [buf|]]; cbn [mvector mlen]; [|by eexists].
    destruct (normCalculator_sized first Hf) as (nf & ->).
    destruct (normCalculator_sized (mkVector n buf) Hs) as (ns & ->). by eexists. }
  rewrite Hl. destruct larger; [|by exists false, second].
  rewrite Hre, andb_false_r.
  destruct (Z.eqb_spec (len first) (mlen second)) as [He|Hne]; cbn [negb].
  - destruct second as [n [buf|]]; unfold well_sized in Hs; cbn in Hs, He, Hl |- *.
    + rewrite (copy_from_all (vector first) _ 0 buf); [| |unfold sized in Hf; lia|done].
      * exists true, (mkMaxVector (len first) (Some (vector first))).
        split_and!; try done.
      * unfold sized in Hf. lia.
    + cbn [length] in Hs. subst n. rewrite He. cbn [Z.to_nat copy_from].
      exists true, (mkMaxVector 0 None). split_and!; try done.
      unfold sized in Hf. destruct (vector first); [done | cbn [length] in Hf; lia].
  - rewrite (copy_from_all (vector first) _ 0);
      [| unfold sized in Hf; lia | rewrite length_resized; unfold sized in Hf; lia | done].
    exists true, (mkMaxVector (len first) (Some (vector first))). split_and!; try done.
Qed.

Lemma norm_of_copy x s buf :
  copy_of x s -> mvector s = Some buf ->
  normCalculator pow (mkVector (mlen s) buf) = norm x.
Proof.
  destruct x as [n v], s as [k o]. unfold copy_of. cbn. intros (-> & Hv) ->.
  cbn in Hv. by subst.
Qed.

Lemma norm_of_empty x s :
  sized x -> copy_of x s -> mvector s = None -> norm x = Some 0%float.
Proof.
  destruct x as [n v], s as [k o]. unfold copy_of, sized. cbn. intros Hn (-> & Hv) ->.
  cbn in Hv. subst v. cbn in Hn. by subst n.
Qed.

Lemma norm_is_root x nx : norm x = Some nx -> (nx <? 0)%float = false.
Proof.
  unfold normCalculator. destruct (sum_from _ _ _ _ _) as [sum|]; [|done].
  intros [= <-]. apply sqrt_not_negative.
Qed.

Local Abbreviation best pre s :=
  (exists x, x ∈ pre /\ copy_of x s
             /\ forall y nx ny, y ∈ pre -> norm x = Some nx -> norm y = Some ny ->
                                (nx <? ny)%float = false).

Local Abbreviation so_far pre s :=
  (match pre with
   | [] => s = mkMaxVector 0 None
   | _ :: _ => best pre s
   end).

(** One call of the visitor, on the vector that follows [pre]. *)
Lemma largest_step (pre : list Vector) s x :
  (forall y, y ∈ pre -> sized y) -> sized x -> realloc_ok (len x) = true ->
  well_sized s -> so_far pre s ->
  exists s1,
    copyIfNormIsLarger pow realloc_ok junk x s = Some (1, s1)
    /\ well_sized s1 /\ best (pre ++ [x]) s1.
Proof.
  intros Hpre Hx Hre Hws Hso.
  destruct (copyIfNormIsLarger_step x s Hx Hws Hre) as (larger & s1 & Hl & Hcopy & Hws1 & Hres).
  exists s1. split_and!; [done | done |].
  unfold null_or_smaller in Hl. destruct larger.
  - exists x. split_and!; [set_solver | done |].
    intros y nx ny [Hy| ->%list_elem_of_singleton]%elem_of_app Hnx Hny.
    + destruct pre as [|p pre']; [by apply elem_of_nil in Hy|].
      destruct Hso as (z & Hz & Hcz & Hbest).
      destruct (mvector s) as [buf|] eqn:Hmv.
      * rewrite (norm_of_copy z s buf Hcz Hmv), Hnx in Hl.
        destruct (norm z) as [nz|] eqn:Hnz; [|done]. injection Hl as Hl.
        pose proof (Hbest y nz ny Hy eq_refl Hny) as Hzy.
        destruct (nx <? ny)%float eqn:Hxy; [|done].
        by rewrite (double_lt_trans nz nx ny Hl Hxy) in Hzy.
      * pose proof (Hbest y _ ny Hy (norm_of_empty z s (Hpre z Hz) Hcz Hmv) Hny) as Hzy.
        destruct (nx <? ny)%float eqn:Hxy; [|done].
        by rewrite (double_between nx ny (norm_is_root x nx Hnx) Hxy) in Hzy.
    + rewrite Hnx in Hny. injection Hny as <-.
      destruct (nx <? nx)%float eqn:Hxx; [|done].
      by rewrite (double_lt_asym nx nx Hxx) in Hxx.
  - subst s1. destruct (mvector s) as [buf|] eqn:Hmv; [|done].
    destruct pre as [|p pre']; [by subst s|].
    destruct Hso as (z & Hz & Hcz & Hbest).
    exists z. split_and!; [set_solver | done |].
    intros y nz ny [Hy| ->%list_elem_of_singleton]%elem_of_app Hnz Hny.
    + by apply (Hbest y).
    + rewrite (norm_of_copy z s buf Hcz Hmv), Hnz, Hny in Hl. by injection Hl.
Qed.

(** The contents of [args] after the calls on [xs]. *)
Lemma fold_largest (xs : list Vector) : forall pre s,
  (forall y, y ∈ pre ++ xs -> sized y /\ realloc_ok (len y) = true) ->
  well_sized s -> so_far pre s ->
  exists s',
    fold_left (fun c x => (guarded (copyIfNormIsLarger pow realloc_ok junk) x c).2)
              xs (Some s) = Some s'
    /\ well_sized s' /\ so_far (pre ++ xs) s'.
Proof.
  induction xs as [|x xs IH]; intros pre s Hall Hws Hso.
  - exists s. rewrite app_nil_r. by split_and!.
  - destruct (largest_step pre s x) as (s1 & Hcopy & Hws1 & Hbest); try done.
    + intros y Hy. apply Hall. set_solver.
    + apply Hall. set_solver.
    + apply Hall. set_solver.
    + cbn [fold_left]. unfold guarded at 2. rewrite Hcopy. cbn [snd].
      destruct (IH (pre ++ [x]) s1) as (s' & Hfold & Hws' & Hso').
      * intros y Hy. apply Hall. rewrite <- app_assoc in Hy. exact Hy.
      * done.
      * destruct pre; exact Hbest.
      * exists s'. rewrite <- app_assoc in Hso'. by split_and!.
Qed.

End Largest.

(** X15.  [copyIfNormIsLarger] on a vector [first] whose [len] is its
    number of components and a [second] whose [len] is that of its
    array (0 for NULL), when [realloc] does not fail: it returns 1;
    [second] becomes a copy of [first] when its array was NULL or the
    norm of [first] is greater than its own, and is left as it was
    otherwise. *)
Theorem copyIfNormIsLarger_copies_the_larger (pow : float -> float -> float)
    (realloc_ok : Z -> bool) (junk : float) (first : Vector) (second : MaxVector) :
  sized first -> well_sized second -> realloc_ok (len first) = true ->
  exists larger second',
    null_or_smaller pow first second = Some larger
    /\ copyIfNormIsLarger pow realloc_ok junk first second = Some (1, second')
    /\ well_sized second'
    /\ if larger : bool then copy_of first second' else second' = second.
Proof. apply copyIfNormIsLarger_step. Qed.

Lemma copyIfNormIsLarger_copies_the_larger_witness :
  let pow := fun x _ : float => (x * x)%float in
  let first := mkVector 2 [3%float; 4%float] in
  let second := mkMaxVector 1 (Some [1%float]) in
  sized first /\ well_sized second
  /\ null_or_smaller pow first second = Some true
  /\ exists second',
       copyIfNormIsLarger pow (fun _ => true) 0%float first second = Some (1, second')
       /\ well_sized second' /\ copy_of first second'.
Proof.
  intros pow first second.
  split; [reflexivity|]. split; [reflexivity|]. split; [reflexivity|].
  destruct (copyIfNormIsLarger_copies_the_larger pow (fun _ => true) 0%float first second)
    as (larger & second' & Hl & Hcopy & Hws & Hres); try reflexivity.
  assert (larger = true) as -> by (vm_compute in Hl; by injection Hl).
  by exists second'.
Defined.

(** X16.  [findMaxNormVectorInTree] on a stored tree of vectors whose
    [len] is their number of components, when its [malloc] and every
    [realloc] succeed: it returns a vector and leaves the tree as it
    was.  For an empty tree the vector has [len] 0 and a NULL array;
    otherwise it is a copy of a vector of the tree, and no vector of
    the tree has a greater norm. *)
Theorem findMaxNormVectorInTree_largest (pow : float -> float -> float)
    (realloc_ok : Z -> bool) (junk : float) (m : mem Vector) (t : btree Vector) :
  tree_of m = Some t ->
  (forall x, x ∈ inorder t -> sized x /\ realloc_ok (len x) = true) ->
  exists v,
    findMaxNormVectorInTree pow realloc_ok junk true TREE m = Done (Some v) m
    /\ match inorder t with
       | [] => v = mkMaxVector 0 None
       | _ :: _ =>
         exists x, x ∈ inorder t /\ copy_of x v
                   /\ forall y nx ny, y ∈ inorder t ->
                        normCalculator pow x = Some nx -> normCalculator pow y = Some ny ->
                        (nx <? ny)%float = false
       end.
Proof.
  intros (Hs & Hroot & Hu)%rep_tree_of Hall.
  destruct (fold_largest pow realloc_ok junk (inorder t) [] (mkMaxVector 0 None))
    as (v & Hfold & _ & Hv); try done.
  exists v. split; [|exact Hv].
  destruct m as [h [rt sz] fr]. cbn [nodes tree root] in *. subst rt.
  unfold findMaxNormVectorInTree, forEachRBTree.
  rewrite (bind_done _ _ _ (1, Some v, inorder t) (mkMem h (mkRBTree (top t) sz) fr)).
  { done. }
  exec. unfold with_gas.
  rewrite (forEachHelper_invariant (guarded (copyIfNormIsLarger pow realloc_ok junk))
             (fun c => exists s, c = Some s /\ well_sized s) _ t h _ fr None _ [] Hs).
  - by rewrite Hfold.
  - pose proof (uniq_count _ _ _ Hs Hu). unfold gas. cbn [nodes]. lia.
  - by eexists.
  - intros x c Hx (s & -> & Hws). destruct (Hall x Hx) as (Hsx & Hre).
    destruct (copyIfNormIsLarger_step pow realloc_ok junk x s Hsx Hws Hre)
      as (larger & s1 & _ & Hcopy & Hws1 & _).
    unfold guarded. rewrite Hcopy. cbn [fst snd]. split; [done | by eexists].
Qed.

Lemma findMaxNormVectorInTree_largest_witness :
  let pow := fun x _ : float => (x * x)%float in
  let v1 := mkVector 1 [1%float] in
  let v2 := mkVector 2 [3%float; 4%float] in
  let m := mkMem (<[2%positive := mkNode v1 RED None None (Some 1%positive)]>
                    (<[1%positive := mkNode v2 BLACK (Some 2%positive) None None]> ∅))
                 (mkRBTree (Some 1%positive) 2) [] in
  let t := Br 1 BLACK (Br 2 RED Leaf v1 Leaf) v2 Leaf in
  tree_of m = Some t
  /\ exists v,
       findMaxNormVectorInTree pow (fun _ => true) 0%float true TREE m = Done (Some v) m
       /\ exists x, x ∈ inorder t /\ copy_of x v
                    /\ forall y nx ny, y ∈ inorder t ->
                         normCalculator pow x = Some nx -> normCalculator pow y = Some ny ->
                         (nx <? ny)%float = false.
Proof.
  intros pow v1 v2 m t.
  assert (tree_of m = Some t) as Ht by (vm_compute; reflexivity).
  split; [exact Ht|].
  apply (findMaxNormVectorInTree_largest pow (fun _ => true) 0%float m t Ht).
  intros x Hx. split; [|reflexivity].
  cbn in Hx. repeat (apply elem_of_cons in Hx as [->|Hx]; [reflexivity|]).
  by apply elem_of_nil in Hx.
Defined.

(** ** The rotations of the insertion *)

(** X17.  The rotations that [fixTreeInsert] calls, on a node [n] with
    the parent [p] and the grandparent [g] in a stored tree with
    ascending elements, where the parent of [g], if there is one, has a
    left child.  [rotateLeft] for a right child [n] and [rotateRight]
    for a left child [n] return; the one of [n], [p], [g] that is
    between the other two in the order is then at the place of [g] and
    BLACK, [g] is its child and RED, the four subtrees hang below in
    their order, and the rest of the tree, the size field and the
    destructor calls are as before. *)
Theorem insertion_rotations {A : Type} (compFunc : A -> A -> Z) (m : mem A)
    up g cg u dg p cp s dp n cn nl dn nr :
  Comparator compFunc -> left_present up = true ->
  (let T := Br g cg u dg (Br p cp s dp (Br n cn nl dn nr)) in
     tree_of m = Some (plug up T) -> ascending compFunc (inorder (plug up T)) = true ->
     exists m',
       rotateLeft compFunc (Some n) m = Done tt m'
       /\ tree_of m' = Some (plug up (Br p BLACK (Br g RED u dg s) dp (Br n cn nl dn nr)))
       /\ size (tree m') = size (tree m) /\ freed m' = freed m)
  /\ (let T := Br g cg (Br p cp s dp (Br n cn nl dn nr)) dg u in
        tree_of m = Some (plug up T) -> ascending compFunc (inorder (plug up T)) = true ->
        exists m',
          rotateLeft compFunc (Some n) m = Done tt m'
          /\ tree_of m' = Some (plug up (Br n BLACK (Br p cp s dp nl) dn (Br g RED nr dg u)))
          /\ size (tree m') = size (tree m) /\ freed m' = freed m)
  /\ (let T := Br g cg (Br p cp (Br n cn nl dn nr) dp s) dg u in
        tree_of m = Some (plug up T) -> ascending compFunc (inorder (plug up T)) = true ->
        exists m',
          rotateRight compFunc (Some n) m = Done tt m'
          /\ tree_of m' = Some (plug up (Br p BLACK (Br n cn nl dn nr) dp (Br g RED s dg u)))
          /\ size (tree m') = size (tree m) /\ freed m' = freed m)
  /\ (let T := Br g cg u dg (Br p cp (Br n cn nl dn nr) dp s) in
        tree_of m = Some (plug up T) -> ascending compFunc (inorder (plug up T)) = true ->
        exists m',
          rotateRight compFunc (Some n) m = Done tt m'
          /\ tree_of m' = Some (plug up (Br n BLACK (Br g RED u dg nl) dn (Br p cp nr dp s)))
          /\ size (tree m') = size (tree m) /\ freed m' = freed m).
Proof.
  intros Hcmp Hlp. split_and!; intros T Ht%rep_tree_of Hasc%(ascending_sorted compFunc);
    subst T.
  - destruct (rotateLeft_RR compFunc m up g cg u dg p cp s dp n cn nl dn nr Ht Hasc Hlp)
      as (m' & Hrun & Hrep & Hsz & Hfr).
    exists m'. split_and!; try done. by apply rep_tree_of.
  - destruct (rotateLeft_LR compFunc m up g cg u dg p cp s dp n cn nl dn nr Ht Hasc Hlp)
      as (m' & Hrun & Hrep & Hsz & Hfr).
    exists m'. split_and!; try done. by apply rep_tree_of.
  - destruct (rotateRight_LL compFunc m up g cg u dg p cp s dp n cn nl dn nr Ht Hasc Hlp)
      as (m' & Hrun & Hrep & Hsz & Hfr).
    exists m'. split_and!; try done. by apply rep_tree_of.
  - destruct (rotateRight_RL compFunc m up g cg u dg p cp s dp n cn nl dn nr Ht Hasc Hlp)
      as (m' & Hrun & Hrep & Hsz & Hfr).
    exists m'. split_and!; try done. by apply rep_tree_of.
Qed.

Lemma insertion_rotations_witness :
  exists m m',
    final (run (map insertZ [2; 1; 3; 4]) newRBTree) = Some m
    /\ tree_of m
       = Some (Br 1 BLACK (Br 2 BLACK Leaf 1 Leaf) 2
                  (Br 3 BLACK Leaf 3 (Br 4 RED Leaf 4 Leaf)))
    /\ rotateLeft intCompare (Some 4%positive) m = Done tt m'
    /\ tree_of m'
       = Some (Br 3 BLACK (Br 1 RED (Br 2 BLACK Leaf 1 Leaf) 2 Leaf) 3
                  (Br 4 RED Leaf 4 Leaf)).
Proof.
  destruct (run (map insertZ [2; 1; 3; 4]) newRBTree) as [rs m| |] eqn:Hrun;
    [|vm_compute in Hrun; discriminate Hrun ..].
  vm_compute in Hrun. injection Hrun as _ Hm.
  assert (tree_of m
          = Some (plug [] (Br 1 BLACK (Br 2 BLACK Leaf 1 Leaf) 2
                              (Br 3 BLACK Leaf 3 (Br 4 RED Leaf 4 Leaf)))))
    as Ht by (rewrite <- Hm; vm_compute; reflexivity).
  destruct (insertion_rotations intCompare m [] 1%positive BLACK (Br 2 BLACK Leaf 1 Leaf) 2
              3%positive BLACK Leaf 3 4%positive RED Leaf 4 Leaf
              intCompare_comparator eq_refl) as (Hrr & _).
  destruct (Hrr Ht eq_refl) as (m' & Hrot & Ht' & _).
  exists m, m'. split_and!; [reflexivity | exact Ht | exact Hrot | exact Ht'].
Defined.

(** ** The destructor *)

(** X18.  The destructor calls of each operation, in any store.
    [freeRBTree] on a stored tree returns after calling the destructor
    on each element that hangs off the root exactly once, from the last
    to the first; a [deleteFromRBTree] that returns 1 has called it
    exactly once, on an element comparing equal to the one asked for;
    no call of [insertToRBTree] calls it. *)
Theorem destructor_calls_per_operation {A : Type} (compFunc : A -> A -> Z)
    (alloc : gmap positive (Node A) -> option positive) :
  (forall (m : mem A) t, tree_of m = Some t ->
     exists m', freeRBTree m = Done tt m' /\ freed m' = freed m ++ rev (inorder t))
  /\ (forall (m : mem A) d m',
        deleteFromRBTree compFunc TREE (Some d) m = Done 1 m' ->
        exists x, compFunc x d = 0 /\ freed m' = freed m ++ [x])
  /\ (forall t od (m : mem A) r m',
        insertToRBTree compFunc alloc t od m = Done r m' -> freed m' = freed m).
Proof.
  split_and!.
  - intros m t Ht%rep_tree_of.
    destruct (freeRBTree_spec m t Ht) as (m' & Hrun & Hfr & _). by exists m'.
  - intros m d m' Hdel. apply deleteFromRBTree_result in Hdel.
    destruct Hdel as [(? & _)|(_ & _ & d' & x & [= <-] & Hx & Hfr)]; [done|].
    by exists x.
  - intros t od m r m' Hins. by apply quiet_insertToRBTree in Hins.
Qed.

Lemma destructor_calls_per_operation_witness :
  exists m m1 m2 m3,
    final (run (map insertZ [2; 1; 3]) newRBTree) = Some m
    /\ freeRBTree m = Done tt m1 /\ freed m1 = [3; 2; 1]
    /\ deleteFromRBTree intCompare TREE (Some 3) m = Done 1 m2
    /\ (exists x, intCompare x 3 = 0 /\ freed m2 = freed m ++ [x])
    /\ insertToRBTree intCompare bump TREE (Some 3) m = Done 0 m3
    /\ freed m3 = freed m.
Proof.
  destruct (run (map insertZ [2; 1; 3]) newRBTree) as [rs m| |] eqn:Hrun;
    [|vm_compute in Hrun; discriminate Hrun ..].
  vm_compute in Hrun. injection Hrun as _ Hm.
  destruct (destructor_calls_per_operation intCompare (@bump Z)) as (Hfree & Hdel & Hins).
  assert (tree_of m = Some (Br 1 BLACK (Br 2 RED Leaf 1 Leaf) 2 (Br 3 RED Leaf 3 Leaf)))
    as Ht by (rewrite <- Hm; vm_compute; reflexivity).
  destruct (Hfree m _ Ht) as (m1 & Hrun1 & Hfr1).
  destruct (deleteFromRBTree intCompare TREE (Some 3) m) as [r2 m2| |] eqn:Hrun2;
    [|rewrite <- Hm in Hrun2; vm_compute in Hrun2; discriminate Hrun2 ..].
  assert (r2 = 1) as ->
    by (rewrite <- Hm in Hrun2; vm_compute in Hrun2; by injection Hrun2 as <- _).
  destruct (insertToRBTree intCompare bump TREE (Some 3) m) as [r3 m3| |] eqn:Hrun3;
    [|rewrite <- Hm in Hrun3; vm_compute in Hrun3; discriminate Hrun3 ..].
  assert (r3 = 0) as ->
    by (rewrite <- Hm in Hrun3; vm_compute in Hrun3; by injection Hrun3 as <- _).
  exists m, m1, m2, m3. split_and!; try done.
  - rewrite Hfr1, <- Hm. reflexivity.
  - by apply Hdel.
  - by apply (Hins TREE (Some 3) m 0 m3).
Defined.
